(** * generate-geo-images: the grid sampler and the coordinate/DMS codec

    Shallow embedding of [decimal_to_dms], [generate_coordinates] and the
    GPS-tagging part of [create_image] (identical in
    [generate_geo_images.py] and [generate_geo_images_map.py]).

    Python's [float] is IEEE 754 binary64: it is modelled by Rocq's primitive
    [float], whose operations are specified by [SpecFloat] (precision 53,
    [emax] 1024).  Python's [int] is [Z].  Exceptions are an error monad;
    [while] loops take fuel. *)

From Stdlib Require Import Ascii.
From Stdlib Require Import ZArith QArith Qabs Qround Bool List Sorted Lia Lqa String.
From Stdlib Require Import Floats.
From Stdlib Require Decimal DecimalString DecimalN.
Import ListNotations.

#[local] Set Warnings "-inexact-float".

Local Open Scope Z_scope.

(** ** Exceptions *)

Inductive exn : Set := ValueError | OverflowError | ZeroDivisionError.

Inductive res (A : Type) : Type :=
| Ok (a : A)
| Raise (e : exn).
Arguments Ok {A} a.
Arguments Raise {A} e.

Definition bind {A B : Type} (r : res A) (k : A -> res B) : res B :=
  match r with
  | Ok a => k a
  | Raise e => Raise e
  end.

Notation "x <- r ;; k" := (bind r (fun x => k))
  (at level 61, r at next level, right associativity).

(** ** Python's float and int primitives *)

Module Py.

(** [int(x)]: truncation towards zero; [ValueError] on NaN and
    [OverflowError] on an infinity. *)
Definition int (x : float) : res Z :=
  match Prim2SF x with
  | S754_nan => Raise ValueError
  | S754_infinity _ => Raise OverflowError
  | S754_zero _ => Ok 0
  | S754_finite s m e =>
      let a := match e with
               | Zneg p => Z.shiftr (Zpos m) (Zpos p)
               | _ => Z.shiftl (Zpos m) e
               end in
      Ok (if s then - a else a)
  end.

(** [float(n)], also the implicit conversion of an [int] operand in mixed
    arithmetic: round to nearest even, [OverflowError] when out of range. *)
Definition float (n : Z) : res PrimFloat.float :=
  match binary_normalize prec emax n 0 false with
  | S754_infinity _ => Raise OverflowError
  | r => Ok (SF2Prim r)
  end.

(** [x / y] on floats raises on a zero divisor. *)
Definition div (x y : PrimFloat.float) : res PrimFloat.float :=
  if PrimFloat.eqb y 0 then Raise ZeroDivisionError else Ok (x / y)%float.

(** [x >= y] *)
Definition ge (x y : PrimFloat.float) : bool := PrimFloat.leb y x.

End Py.

(** ** The coordinate/DMS codec *)

(** [decimal_to_dms], lines 8-36.  The [int] operands of the two
    subtractions are converted to [float], as Python does; the unused
    [sign] of line 19 is kept. *)
Definition decimal_to_dms (decimal_degree : float)
  : res (float * float * float) :=
  let sign := if PrimFloat.ltb decimal_degree 0 then (-1) else 1 in
  let decimal_degree := abs decimal_degree in
  degrees <- Py.int decimal_degree ;;
  degrees_f <- Py.float degrees ;;
  let minutes_decimal := ((decimal_degree - degrees_f) * 60)%float in
  minutes <- Py.int minutes_decimal ;;
  minutes_f <- Py.float minutes ;;
  let seconds := ((minutes_decimal - minutes_f) * 60)%float in
  seconds <- Py.int seconds ;;
  d <- Py.float degrees ;;
  m <- Py.float minutes ;;
  s <- Py.float seconds ;;
  Ok (d, m, s).

(** ** The grid sampler *)

Definition point : Type := float * float.

(** Inner loop, lines 50-52: one longitude row. *)
Fixpoint while_lon (fuel : nat) (lat lon lon_max lon_step : float)
    (coordinates : list point) : option (list point) :=
  match fuel with
  | O => None
  | S fuel =>
      if (lon <=? lon_max)%float then
        while_lon fuel lat (lon + lon_step)%float lon_max lon_step
          (coordinates ++ [(lat, lon)])
      else Some coordinates
  end.

(** Outer loop, lines 48-53. *)
Fixpoint while_lat (fuel : nat)
    (lat lat_max lat_step lon_min lon_max lon_step : float)
    (coordinates : list point) : option (list point) :=
  match fuel with
  | O => None
  | S fuel =>
      if (lat <=? lat_max)%float then
        match while_lon fuel lat lon_min lon_max lon_step coordinates with
        | None => None
        | Some coordinates =>
            while_lat fuel (lat + lat_step)%float lat_max lat_step
              lon_min lon_max lon_step coordinates
        end
      else Some coordinates
  end.

Definition km_per_degree : float := 111.

Section Sampler.

(** [math.radians] and [math.cos] belong to the C library, not to this
    repository: they are parameters.  [math.cos] raises [ValueError] on an
    infinity. *)
Variable math_radians : float -> float.
Variable math_cos : float -> res float.

(** The two angular steps, lines 42-44.  [step_km] is taken as a float: an
    [int] below [2^53], such as the default [1], divides as its float does.
    A zero product [111 * cos(...)] raises [ZeroDivisionError]. *)
Definition grid_steps (lat_min step_km : float) : res (float * float) :=
  lat_step <- Py.div step_km km_per_degree ;;
  c <- math_cos (math_radians lat_min) ;;
  lon_step <- Py.div step_km (km_per_degree * c)%float ;;
  Ok (lat_step, lon_step).

(** [generate_coordinates], lines 40-54: the steps, then the two nested
    loops on an empty list.  [None]: the fuel ran out, that is, the call
    has not returned yet. *)
Definition generate_coordinates (fuel : nat)
    (lat_min lat_max lon_min lon_max step_km : float)
  : option (res (list point)) :=
  match grid_steps lat_min step_km with
  | Raise e => Some (Raise e)
  | Ok (lat_step, lon_step) =>
      option_map Ok
        (while_lat fuel lat_min lat_max lat_step lon_min lon_max lon_step [])
  end.

End Sampler.

(** [math.radians] as CPython computes it: [x * (pi / 180)]. *)
Definition radians (x : float) : float := (x * 0.017453292519943295)%float.

(** The cosine of the examples below, all of which take [lat_min = 0.0]:
    [math.cos(math.radians(0.0))] is exactly [1.0]. *)
Definition cos_equator (x : float) : res float := Ok 1%float.

(** ** The GPS tags of the emitter *)

Record gps_tags : Type := {
  gps_latitude : float * float * float;
  gps_latitude_ref : string;
  gps_longitude : float * float * float;
  gps_longitude_ref : string
}.

(** [create_image], the four EXIF assignments (lines 80-83); drawing and
    file I/O are left out. *)
Definition create_image (lat lon : float) : res gps_tags :=
  la <- decimal_to_dms lat ;;
  let la_ref := if Py.ge lat 0 then "N"%string else "S"%string in
  lo <- decimal_to_dms lon ;;
  let lo_ref := if Py.ge lon 0 then "E"%string else "W"%string in
  Ok {| gps_latitude := la; gps_latitude_ref := la_ref;
        gps_longitude := lo; gps_longitude_ref := lo_ref |}.

(** ** Values of floats

    Every finite binary64 number is an integer multiple of [2^-1074]:
    [ticks x] is that integer, [F2Q x] the rational value. *)

Definition SFticks (x : spec_float) : Z :=
  match x with
  | S754_finite s m e =>
      let a := Zpos m * 2 ^ (e + 1074) in if s then - a else a
  | _ => 0
  end.

Definition ticks (x : float) : Z := SFticks (Prim2SF x).

Definition unit_ticks : positive := (2 ^ 1074)%positive.

Definition F2Q (x : float) : Q := ticks x # unit_ticks.

(** Decimal degrees rebuilt from a DMS triple, in exact arithmetic:
    [degrees + minutes/60 + seconds/3600]. *)
Definition dms_to_decimal (dms : float * float * float) : Q :=
  let '(degrees, minutes, seconds) := dms in
  (F2Q degrees + F2Q minutes / 60 + F2Q seconds / 3600)%Q.

(** All three components of a DMS triple are non-negative. *)
Definition dms_nonneg (dms : float * float * float) : Prop :=
  let '(degrees, minutes, seconds) := dms in
  (0 <= F2Q degrees /\ 0 <= F2Q minutes /\ 0 <= F2Q seconds)%Q.

(** One accumulated range, as the specification describes a loop of the
    sampler on its own: [start], [start + step], ... while the value is
    [<= stop].  [None]: the fuel ran out. *)
Fixpoint accumulate_range (fuel : nat) (start stop step : float)
  : option (list float) :=
  match fuel with
  | O => None
  | S fuel =>
      if (start <=? stop)%float then
        option_map (cons start)
          (accumulate_range fuel (start + step)%float stop step)
      else Some []
  end.

(** Row-major product of a list of latitudes and one list of longitudes. *)
Definition row_major (lats lons : list float) : list point :=
  flat_map (fun lat => map (pair lat) lons) lats.



(** Finite floats in strictly increasing order. *)
Definition increasing (l : list float) : Prop :=
  Forall (fun v => is_finite v = true) l
  /\ StronglySorted (fun a b => ticks a < ticks b) l.

(** Round to nearest, ties to even, of [m / 2^n] for [m >= 0]. *)
Definition rne_shr (m n : Z) : Z :=
  if n <=? 0 then m
  else
    let q := m / 2 ^ n in
    if Z.testbit m (n - 1) && (negb (m mod 2 ^ (n - 1) =? 0) || Z.odd q)
    then q + 1 else q.

(** Number of low bits a tick count loses to fit 53 significant bits. *)
Definition drop_bits (t : Z) : Z := Z.max 0 (Z.log2 (Z.abs t) + 1 - 53).

(** Binary64 rounding of an exact result of [t] ticks. *)
Definition rnd_ticks (t : Z) : Z :=
  Z.sgn t * (rne_shr (Z.abs t) (drop_bits t) * 2 ^ drop_bits t).

(** The float built from a rounded mantissa and its exponent: the last
    step of [binary_round_aux]. *)
Definition SFmake (s : bool) (m e : Z) : spec_float :=
  match m with
  | Z0 => S754_zero s
  | Zpos p => if e <=? 971 then S754_finite s p e else S754_infinity s
  | Zneg _ => S754_nan
  end.

Definition SFfinite (x : spec_float) : bool :=
  match x with
  | S754_zero _ | S754_finite _ _ _ => true
  | _ => false
  end.

(** ** Formatting and file names

    [f"{x:.6f}"]: the exact value rounded to six decimals, ties to even,
    with the sign bit kept even when the digits are all zero. *)

Definition sign_bit (x : float) : bool :=
  match Prim2SF x with
  | S754_zero s | S754_infinity s | S754_finite s _ _ => s
  | S754_nan => false
  end.

(** [|x|] in millionths, rounded to nearest, ties to even. *)
Definition millionths (x : float) : Z :=
  rne_shr (Z.abs (ticks x) * 10 ^ 6) 1074.

Definition digit (d : Z) : ascii := ascii_of_nat (48 + Z.to_nat d).

Definition six_digits (f : Z) : string :=
  String (digit (f / 100000 mod 10)) (String (digit (f / 10000 mod 10))
  (String (digit (f / 1000 mod 10)) (String (digit (f / 100 mod 10))
  (String (digit (f / 10 mod 10)) (String (digit (f mod 10)) ""))))).

(** The decimal digits of a natural number, ["0"] for zero. *)
Definition decimal_digits (n : Z) : string :=
  DecimalString.NilEmpty.string_of_uint (N.to_uint (Z.to_N n)).

Definition format_6f (x : float) : string :=
  match Prim2SF x with
  | S754_nan => "nan"
  | S754_infinity s => if s then "-inf" else "inf"
  | _ =>
      ((if sign_bit x then "-" else "")
       ++ decimal_digits (millionths x / 10 ^ 6) ++ "."
       ++ six_digits (millionths x mod 10 ^ 6))%string
  end.

(** [f"image_{lat:.6f}_{lon:.6f}.jpg"], line 73. *)
Definition image_name (lat lon : float) : string :=
  ("image_" ++ format_6f lat ++ "_" ++ format_6f lon ++ ".jpg")%string.

Fixpoint ends_with_slash (a : string) : bool :=
  match a with
  | EmptyString => false
  | String c EmptyString => Ascii.eqb c "/"
  | String _ r => ends_with_slash r
  end.

(** [os.path.join(a, b)] on a POSIX system. *)
Definition path_join (a b : string) : string :=
  match b with
  | String "/" _ => b
  | _ =>
      match a with
      | EmptyString => b
      | _ => if ends_with_slash a then (a ++ b)%string
             else (a ++ "/" ++ b)%string
      end
  end.

Definition image_path (output_dir : string) (lat lon : float) : string :=
  path_join output_dir (image_name lat lon).

(** [f"Lat: {lat:.6f}, Lon: {lon:.6f}"], line 69. *)
Definition overlay_text (lat lon : float) : string :=
  ("Lat: " ++ format_6f lat ++ ", Lon: " ++ format_6f lon)%string.

(** ** The emitter and the batch, with their effects

    The calls into the image, EXIF and file-system libraries are recorded
    as events, in the order the code makes them, and are taken to succeed.
    What the environment answers is a parameter: whether the output
    directory exists and whether the font file is found. *)

Inductive font : Set := Arial | DefaultFont.

Inductive event : Type :=
| MakeDirs (path : string)
| PrintLine (text : string)
| SaveImage (path : string) (size : Z * Z) (f : font) (text : string)
| WriteExif (path : string) (tags : gps_tags).

(** [create_image] of [generate_geo_images.py], lines 58-87: the canvas is
    saved first, the GPS tags are computed next (this may raise) and the
    file is then rewritten with them. *)
Definition create_image_io (font_found : bool) (lat lon : float)
    (output_dir : string) (image_size : Z * Z) : list event * res unit :=
  let f := if font_found then Arial else DefaultFont in
  let text := overlay_text lat lon in
  let image_path := image_path output_dir lat lon in
  let saved := [SaveImage image_path image_size f text] in
  match create_image lat lon with
  | Raise e => (saved, Raise e)
  | Ok tags =>
      (saved ++ [WriteExif image_path tags;
                 PrintLine ("Image created: " ++ image_path)%string], Ok tt)
  end.

(** The [for] loop of [generate_images], lines 98-99: it stops at the first
    exception. *)
Fixpoint create_images (font_found : bool) (output_dir : string)
    (coordinates : list point) : list event * res unit :=
  match coordinates with
  | [] => ([], Ok tt)
  | (lat, lon) :: rest =>
      match create_image_io font_found lat lon output_dir (500, 500) with
      | (t, Raise e) => (t, Raise e)
      | (t, Ok _) =>
          let '(t', r) := create_images font_found output_dir rest in
          (t ++ t', r)
      end
  end.

Section Batch.

Variable math_radians : float -> float.
Variable math_cos : float -> res float.

(** [generate_images] of [generate_geo_images.py], lines 91-99, with
    [step_km=1] as on line 95.  [None]: [generate_coordinates] has not
    returned. *)
Definition generate_images (dir_exists font_found : bool) (fuel : nat)
    (lat_min lat_max lon_min lon_max : float) (output_dir : string)
  : option (list event * res unit) :=
  let made := if dir_exists then [] else [MakeDirs output_dir] in
  match generate_coordinates math_radians math_cos fuel
          lat_min lat_max lon_min lon_max 1 with
  | None => None
  | Some (Raise e) => Some (made, Raise e)
  | Some (Ok coordinates) =>
      let count :=
        PrintLine (decimal_digits (Z.of_nat (List.length coordinates))
                   ++ " images will be generated.")%string in
      let '(t, r) := create_images font_found output_dir coordinates in
      Some (made ++ count :: t, r)
  end.

End Batch.

(** The files a run has tagged, and the files it has saved, in order. *)
Fixpoint written (t : list event) : list (string * gps_tags) :=
  match t with
  | [] => []
  | WriteExif path tags :: t' => (path, tags) :: written t'
  | _ :: t' => written t'
  end.

Fixpoint saved (t : list event) : list string :=
  match t with
  | [] => []
  | SaveImage path _ _ _ :: t' => path :: saved t'
  | _ :: t' => saved t'
  end.

(** ** The bounding box of the command line *)

(** The characters ['0'] to ['9'], and the strings made of them. *)
Definition is_digit (c : ascii) : bool :=
  ((48 <=? nat_of_ascii c)%nat && (nat_of_ascii c <=? 57)%nat)%bool.

Fixpoint all_digits (s : string) : bool :=
  match s with
  | EmptyString => true
  | String c r => is_digit c && all_digits r
  end.

(** What [os.path.join] puts before a relative name. *)
Definition dir_prefix (a : string) : string :=
  match a with
  | EmptyString => EmptyString
  | _ => if ends_with_slash a then a else (a ++ "/")%string
  end.

(** [c in s]. *)
Fixpoint has_char (c : ascii) (s : string) : bool :=
  match s with
  | EmptyString => false
  | String d r => Ascii.eqb d c || has_char c r
  end.

(** [s.split(sep)] for a separator of one character. *)
Fixpoint split_on (sep : ascii) (s : string) : list string :=
  match s with
  | EmptyString => [EmptyString]
  | String c r =>
      if Ascii.eqb c sep then EmptyString :: split_on sep r
      else match split_on sep r with
           | h :: t => String c h :: t
           | [] => [String c EmptyString]
           end
  end.

Section CommandLine.

(** [float(s)] on a string is Python's parser: a parameter. *)
Variable float_of_string : string -> res float.

(** Line 182 of [generate_geo_images_map.py]:
    [lat_min, lat_max, lon_min, lon_max = map(float, box.split(','))].
    [map] is lazy: the fields are converted one by one while the four names
    are filled, and one more conversion is attempted to see that nothing is
    left. *)
Definition parse_bounding_box (box : string)
  : res (float * float * float * float) :=
  match split_on "," box with
  | f1 :: r1 =>
      lat_min <- float_of_string f1 ;;
      match r1 with
      | f2 :: r2 =>
          lat_max <- float_of_string f2 ;;
          match r2 with
          | f3 :: r3 =>
              lon_min <- float_of_string f3 ;;
              match r3 with
              | f4 :: r4 =>
                  lon_max <- float_of_string f4 ;;
                  match r4 with
                  | [] => Ok (lat_min, lat_max, lon_min, lon_max)
                  | f5 :: _ => _ <- float_of_string f5 ;; Raise ValueError
                  end
              | [] => Raise ValueError
              end
          | [] => Raise ValueError
          end
      | [] => Raise ValueError
      end
  | [] => Raise ValueError
  end.

End CommandLine.

(** ** Reading the tags back

    How an EXIF reader turns a DMS triple and its hemisphere letter into
    signed decimal degrees. *)
Definition gps_to_decimal (dms : float * float * float) (ref : string) : Q :=
  if (String.eqb ref "S" || String.eqb ref "W")%bool
  then (- dms_to_decimal dms)%Q else dms_to_decimal dms.

(** * Binary64 rounding *)

Section Digits.

Lemma digits2_bounds (m : positive) :
  2 ^ (Zpos (digits2_pos m) - 1) <= Zpos m < 2 ^ Zpos (digits2_pos m).
Proof.
  induction m as [m IH | m IH |]; cbn [digits2_pos].
  - rewrite Pos2Z.inj_succ.
    replace (Z.succ (Zpos (digits2_pos m)) - 1) with (Zpos (digits2_pos m)) by lia.
    rewrite Z.pow_succ_r by lia.
    assert (2 ^ Zpos (digits2_pos m) = 2 * 2 ^ (Zpos (digits2_pos m) - 1)) as E
      by (rewrite <- Z.pow_succ_r by lia; f_equal; lia).
    lia.
  - rewrite Pos2Z.inj_succ.
    replace (Z.succ (Zpos (digits2_pos m)) - 1) with (Zpos (digits2_pos m)) by lia.
    rewrite Z.pow_succ_r by lia.
    assert (2 ^ Zpos (digits2_pos m) = 2 * 2 ^ (Zpos (digits2_pos m) - 1)) as E
      by (rewrite <- Z.pow_succ_r by lia; f_equal; lia).
    lia.
  - cbn. lia.
Qed.

Lemma digits2_log2 (m : positive) :
  Zpos (digits2_pos m) = Z.log2 (Zpos m) + 1.
Proof.
  pose proof (digits2_bounds m) as H.
  assert (Z.log2 (Zpos m) = Zpos (digits2_pos m) - 1) as E; [| lia].
  apply Z.log2_unique; [lia |].
  replace (Z.succ (Zpos (digits2_pos m) - 1)) with (Zpos (digits2_pos m)) by lia.
  exact H.
Qed.

Lemma Zdigits2_log2 (m : Z) : 0 < m -> Zdigits2 m = Z.log2 m + 1.
Proof.
  destruct m as [| p | p]; try lia. intros _. cbn [Zdigits2].
  apply digits2_log2.
Qed.

End Digits.

Section ShiftRight.

Lemma iter_pos_nat {A : Type} (f : A -> A) (p : positive) (x : A) :
  iter_pos f p x = Nat.iter (Pos.to_nat p) f x.
Proof.
  revert x. induction p as [p IH | p IH |]; intros x; cbn [iter_pos].
  - rewrite !IH, Pos2Nat.inj_xI.
    replace (S (2 * Pos.to_nat p))%nat with (Pos.to_nat p + (Pos.to_nat p + 1))%nat by lia.
    rewrite !Nat.iter_add. reflexivity.
  - rewrite !IH, Pos2Nat.inj_xO.
    replace (2 * Pos.to_nat p)%nat with (Pos.to_nat p + Pos.to_nat p)%nat by lia.
    rewrite Nat.iter_add. reflexivity.
  - reflexivity.
Qed.

Lemma shr_1_nonneg (m : Z) (r s : bool) :
  0 <= m ->
  shr_1 (Build_shr_record m r s) = Build_shr_record (m / 2) (Z.odd m) (r || s).
Proof.
  intros Hm. rewrite <- Z.div2_div.
  destruct m as [| [p | p |] | p]; try lia; reflexivity.
Qed.

(** [n + 1] one-bit shifts of an exact record. *)
Lemma shr_iter (m : Z) (n : nat) :
  0 <= m ->
  Nat.iter (S n) shr_1 (Build_shr_record m false false) =
  Build_shr_record (m / 2 ^ Z.of_nat (S n)) (Z.testbit m (Z.of_nat n))
    (negb (m mod 2 ^ Z.of_nat n =? 0)).
Proof.
  intros Hm. induction n as [| n IH].
  - cbn [Nat.iter]. rewrite shr_1_nonneg by assumption.
    change (Z.of_nat 1) with 1. change (Z.of_nat 0) with 0.
    rewrite Z.pow_1_r, Z.pow_0_r, Z.mod_1_r, Z.bit0_odd. reflexivity.
  - change (Nat.iter (S (S n)) shr_1 ?x) with (shr_1 (Nat.iter (S n) shr_1 x)).
    rewrite IH.
    assert (0 < 2 ^ Z.of_nat (S n)) as Hp by (apply Z.pow_pos_nonneg; lia).
    rewrite shr_1_nonneg by (apply Z.div_pos; lia).
    f_equal.
    + rewrite Z.div_div by lia. f_equal.
      rewrite (Nat2Z.inj_succ (S n)), Z.pow_succ_r by lia. lia.
    + rewrite Z.testbit_odd, Z.shiftr_div_pow2 by lia. reflexivity.
    + rewrite (Nat2Z.inj_succ n), Z.pow_succ_r by lia.
      set (h := 2 ^ Z.of_nat n).
      assert (0 < h) as Hh by (apply Z.pow_pos_nonneg; lia).
      pose proof (Z.testbit_spec' m (Z.of_nat n) ltac:(lia)) as Hb. fold h in Hb.
      rewrite (Z.mul_comm 2 h), Z.rem_mul_r by lia.
      pose proof (Z.mod_pos_bound m h Hh).
      destruct (Z.testbit m (Z.of_nat n)); cbn [Z.b2z] in Hb; rewrite <- Hb;
        destruct (Z.eqb_spec (m mod h) 0) as [E1 | E1];
        match goal with
        | |- context [?a =? 0] => destruct (Z.eqb_spec a 0) as [E2 | E2]
        end; cbn; try reflexivity; lia.
Qed.

End ShiftRight.

Section NearestEven.

Lemma pow2_pos (n : Z) : 0 <= n -> 0 < 2 ^ n.
Proof. intros. apply Z.pow_pos_nonneg; lia. Qed.

Lemma pow2_split (n : Z) : 0 < n -> 2 ^ n = 2 * 2 ^ (n - 1).
Proof.
  intros. rewrite <- Z.pow_succ_r by lia. f_equal. lia.
Qed.

(** Quotient, round bit and sticky part of [m] at position [n]. *)
Lemma shr_decompose (m n : Z) :
  0 < n ->
  m = m / 2 ^ n * 2 ^ n + Z.b2z (Z.testbit m (n - 1)) * 2 ^ (n - 1)
      + m mod 2 ^ (n - 1).
Proof.
  intros Hn. set (h := 2 ^ (n - 1)).
  assert (0 < h) as Hh by (apply pow2_pos; lia).
  rewrite (pow2_split n Hn). fold h.
  rewrite Z.testbit_spec' by lia. fold h.
  rewrite (Z.mul_comm 2 h), <- Z.div_div by lia.
  pose proof (Z.div_mod m h ltac:(lia)).
  pose proof (Z.div_mod (m / h) 2 ltac:(lia)).
  nia.
Qed.

Lemma rne_shr_bounds (m n : Z) :
  0 < n -> m / 2 ^ n <= rne_shr m n <= m / 2 ^ n + 1.
Proof.
  intros Hn. unfold rne_shr.
  destruct (Z.leb_spec n 0); [lia |].
  destruct (_ && _); lia.
Qed.

Lemma rne_shr_error (m n : Z) :
  0 <= m -> 0 < n -> 2 * Z.abs (rne_shr m n * 2 ^ n - m) <= 2 ^ n.
Proof.
  intros Hm Hn. pose proof (shr_decompose m n Hn) as D.
  set (h := 2 ^ (n - 1)) in *.
  assert (0 < h) as Hh by (apply pow2_pos; lia).
  pose proof (Z.mod_pos_bound m h Hh) as Hl.
  pose proof (pow2_split n Hn) as P. fold h in P.
  unfold rne_shr. destruct (Z.leb_spec n 0); [lia |]. fold h.
  destruct (Z.testbit m (n - 1)); cbn [Z.b2z andb] in *.
  - destruct (Z.eqb_spec (m mod h) 0) as [E | E]; cbn [negb orb].
    + destruct (Z.odd (m / 2 ^ n)); nia.
    + nia.
  - nia.
Qed.

Lemma rne_shr_exact (m n : Z) :
  0 <= n -> m mod 2 ^ n = 0 -> rne_shr m n * 2 ^ n = m.
Proof.
  intros Hn Hd. unfold rne_shr.
  destruct (Z.leb_spec n 0).
  - replace n with 0 by lia. lia.
  - pose proof (shr_decompose m n ltac:(lia)) as D.
    set (h := 2 ^ (n - 1)) in *.
    assert (0 < h) as Hh by (apply pow2_pos; lia).
    pose proof (Z.mod_pos_bound m h Hh) as Hl.
    pose proof (pow2_split n ltac:(lia)) as P. fold h in P.
    pose proof (Z.div_mod m (2 ^ n) ltac:(lia)) as Q.
    rewrite Hd in Q.
    assert (Z.b2z (Z.testbit m (n - 1)) * h + m mod h = 0) as Z0 by lia.
    destruct (Z.testbit m (n - 1)); cbn [Z.b2z andb] in *; lia.
Qed.

(** Trailing zero bits do not change the rounded quotient. *)
Lemma rne_shr_shift (m n k : Z) :
  0 <= m -> 0 < n -> 0 <= k -> rne_shr (m * 2 ^ k) (n + k) = rne_shr m n.
Proof.
  intros Hm Hn Hk. unfold rne_shr.
  destruct (Z.leb_spec (n + k) 0); [lia |].
  destruct (Z.leb_spec n 0); [lia |].
  assert (0 < 2 ^ k) as Pk by (apply pow2_pos; lia).
  assert (0 < 2 ^ n) as Pn by (apply pow2_pos; lia).
  assert (0 < 2 ^ (n - 1)) as Pn1 by (apply pow2_pos; lia).
  replace (m * 2 ^ k / 2 ^ (n + k)) with (m / 2 ^ n).
  2:{ rewrite Z.pow_add_r by lia. rewrite Z.div_mul_cancel_r by lia.
      reflexivity. }
  replace (Z.testbit (m * 2 ^ k) (n + k - 1)) with (Z.testbit m (n - 1)).
  2:{ rewrite Z.mul_pow2_bits by lia. f_equal. lia. }
  replace (m * 2 ^ k mod 2 ^ (n + k - 1) =? 0) with (m mod 2 ^ (n - 1) =? 0).
  2:{ replace (n + k - 1) with (n - 1 + k) by lia.
      rewrite Z.pow_add_r by lia.
      rewrite Z.mul_mod_distr_r by lia.
      destruct (Z.eqb_spec (m mod 2 ^ (n - 1)) 0) as [E | E];
        destruct (Z.eqb_spec (m mod 2 ^ (n - 1) * 2 ^ k) 0) as [E' | E'];
        try reflexivity; nia. }
  reflexivity.
Qed.

Lemma shr_exact_record (m e : Z) (p : positive) :
  0 <= m ->
  shr (Build_shr_record m false false) e (Zpos p) =
  (Build_shr_record (m / 2 ^ Zpos p) (Z.testbit m (Zpos p - 1))
     (negb (m mod 2 ^ (Zpos p - 1) =? 0)), e + Zpos p).
Proof.
  intros Hm. unfold shr. rewrite iter_pos_nat.
  destruct (Pos2Nat.is_succ p) as [k Hk]. rewrite Hk.
  rewrite shr_iter by assumption.
  assert (Zpos p = Z.of_nat (S k)) as E by lia.
  rewrite <- E. replace (Z.of_nat k) with (Zpos p - 1) by lia.
  reflexivity.
Qed.

Lemma round_after_shr (m : Z) (p : positive) :
  let mrs := Build_shr_record (m / 2 ^ Zpos p) (Z.testbit m (Zpos p - 1))
               (negb (m mod 2 ^ (Zpos p - 1) =? 0)) in
  round_nearest_even (shr_m mrs) (loc_of_shr_record mrs) = rne_shr m (Zpos p).
Proof.
  cbn zeta. unfold rne_shr.
  destruct (Z.leb_spec (Zpos p) 0); [lia |].
  cbn [shr_m loc_of_shr_record].
  destruct (Z.testbit m (Zpos p - 1)), (m mod 2 ^ (Zpos p - 1) =? 0);
    cbn [negb andb orb round_nearest_even]; try reflexivity.
  rewrite <- Z.negb_odd.
  destruct (Z.odd (m / 2 ^ Zpos p)); reflexivity.
Qed.

End NearestEven.

Section RoundAux.

Lemma fexp_53 (x : Z) : fexp prec emax x = Z.max (x - 53) (-1074).
Proof. reflexivity. Qed.

Lemma shr_nonpos (mrs : shr_record) (e n : Z) : n <= 0 -> shr mrs e n = (mrs, e).
Proof. intros H. destruct n; try reflexivity. lia. Qed.

Lemma Zdigits2_le (m d : Z) : 0 <= m -> 0 <= d -> m < 2 ^ d -> Zdigits2 m <= d.
Proof.
  intros Hm Hd Hlt. destruct (Z.eq_dec m 0) as [-> | Hne]; [cbn; lia |].
  rewrite Zdigits2_log2 by lia.
  assert (Z.log2 m < d) by (apply Z.log2_lt_pow2; lia). lia.
Qed.

Lemma Zdigits2_bounds (m : Z) :
  0 < m -> 2 ^ (Zdigits2 m - 1) <= m < 2 ^ Zdigits2 m.
Proof.
  intros Hm. destruct m as [| p | p]; try lia. apply digits2_bounds.
Qed.

Lemma shr_fexp_keep (m f : Z) :
  -1074 <= f -> 0 <= m < 2 ^ 53 ->
  shr_fexp prec emax m f loc_Exact = (Build_shr_record m false false, f).
Proof.
  intros Hf Hm. unfold shr_fexp. cbn [shr_record_of_loc].
  apply shr_nonpos. rewrite fexp_53.
  pose proof (Zdigits2_le m 53 ltac:(lia) ltac:(lia) ltac:(lia)). lia.
Qed.

Lemma shr_fexp_carry (f : Z) :
  -1074 <= f ->
  shr_fexp prec emax (2 ^ 53) f loc_Exact =
  (Build_shr_record (2 ^ 52) false false, f + 1).
Proof.
  intros Hf. unfold shr_fexp. cbn [shr_record_of_loc].
  rewrite fexp_53.
  replace (Zdigits2 (2 ^ 53)) with 54 by reflexivity.
  replace (Z.max (54 + f - 53) (-1074) - f) with 1 by lia.
  reflexivity.
Qed.

(** What [binary_round_aux] computes on an exact positive mantissa that
    has to lose [n >= 0] bits. *)
Lemma round_aux_eq (s : bool) (m e : Z) :
  0 < m ->
  let n := fexp prec emax (Zdigits2 m + e) - e in
  0 <= n ->
  binary_round_aux prec emax s m e loc_Exact =
  if rne_shr m n =? 2 ^ 53 then SFmake s (2 ^ 52) (e + n + 1)
  else SFmake s (rne_shr m n) (e + n).
Proof.
  intros Hm n Hn.
  pose proof (Zdigits2_bounds m Hm) as Hd.
  assert (-1074 <= e + n) as Hf by (unfold n; rewrite fexp_53; lia).
  assert (Zdigits2 m <= 53 + n) as Hd53 by (unfold n; rewrite fexp_53; lia).
  assert (0 <= rne_shr m n <= 2 ^ 53) as Hr.
  { destruct (Z.eq_dec n 0) as [E0 | E0].
    - rewrite E0. unfold rne_shr. cbn [Z.leb Z.compare].
      assert (2 ^ Zdigits2 m <= 2 ^ 53) by (apply Z.pow_le_mono_r; lia). lia.
    - pose proof (rne_shr_bounds m n ltac:(lia)) as B.
      assert (0 < 2 ^ n) by (apply pow2_pos; lia).
      assert (0 <= m / 2 ^ n) by (apply Z.div_pos; lia).
      assert (m / 2 ^ n < 2 ^ 53).
      { apply Z.div_lt_upper_bound; [lia |].
        rewrite <- Z.pow_add_r by lia.
        assert (2 ^ Zdigits2 m <= 2 ^ (n + 53)) by (apply Z.pow_le_mono_r; lia).
        lia. }
      lia. }
  unfold binary_round_aux.
  assert (shr_fexp prec emax m e loc_Exact =
          (fst (shr_fexp prec emax m e loc_Exact), e + n)
          /\ round_nearest_even (shr_m (fst (shr_fexp prec emax m e loc_Exact)))
               (loc_of_shr_record (fst (shr_fexp prec emax m e loc_Exact)))
             = rne_shr m n) as [E1 E2].
  { unfold shr_fexp. fold n. cbn [shr_record_of_loc].
    destruct n as [| p | p] eqn:En; try lia.
    - cbn [shr fst]. rewrite Z.add_0_r. split; reflexivity.
    - rewrite shr_exact_record by lia. cbn [fst]. split; [reflexivity |].
      apply round_after_shr. }
  rewrite E1, E2.
  destruct (Z.eqb_spec (rne_shr m n) (2 ^ 53)) as [C | C].
  - rewrite C, shr_fexp_carry by lia. reflexivity.
  - rewrite shr_fexp_keep by lia. cbn [shr_m]. unfold SFmake.
    destruct (rne_shr m n); try reflexivity.
Qed.

End RoundAux.

Section Canonical.

Lemma Zdigits2_unique (m d : Z) : 2 ^ (d - 1) <= m < 2 ^ d -> 0 < d -> Zdigits2 m = d.
Proof.
  intros H Hd.
  assert (0 < 2 ^ (d - 1)) by (apply pow2_pos; lia).
  rewrite Zdigits2_log2 by lia.
  assert (Z.log2 m = d - 1); [| lia].
  apply Z.log2_unique; [lia |].
  replace (Z.succ (d - 1)) with d by lia. exact H.
Qed.

Lemma bounded_intro (m : positive) (e : Z) :
  Zpos m < 2 ^ 53 -> -1074 <= e <= 971 -> e = -1074 \/ 2 ^ 52 <= Zpos m ->
  bounded prec emax m e = true.
Proof.
  intros Hm He Hn. unfold bounded, canonical_mantissa.
  apply andb_true_intro. split.
  - apply Z.eqb_eq. rewrite fexp_53.
    change (Zpos (digits2_pos m)) with (Zdigits2 (Zpos m)).
    pose proof (Zdigits2_le (Zpos m) 53 ltac:(lia) ltac:(lia) Hm).
    destruct Hn as [-> | Hn]; [lia |].
    rewrite (Zdigits2_unique (Zpos m) 53) by (change (53 - 1) with 52; lia). lia.
  - apply Z.leb_le. change (emax - prec) with 971. lia.
Qed.

Lemma bounded_elim (m : positive) (e : Z) :
  bounded prec emax m e = true ->
  Zpos m < 2 ^ 53 /\ -1074 <= e <= 971 /\ (e = -1074 \/ 2 ^ 52 <= Zpos m).
Proof.
  unfold bounded, canonical_mantissa. intros H.
  apply andb_prop in H. destruct H as [Hc He].
  apply Z.eqb_eq in Hc. apply Z.leb_le in He.
  change (emax - prec) with 971 in He. rewrite fexp_53 in Hc.
  pose proof (digits2_bounds m) as Hd.
  set (d := Zpos (digits2_pos m)) in *.
  assert (d <= 53) by lia.
  assert (2 ^ d <= 2 ^ 53) by (apply Z.pow_le_mono_r; lia).
  split; [lia |]. split; [lia |].
  destruct (Z.eq_dec e (-1074)) as [E | E]; [left; exact E | right].
  assert (d = 53) as -> by lia. exact (proj1 Hd).
Qed.

Lemma rne_shr_scale (m n k : Z) :
  0 <= m -> 0 <= n -> 0 <= k -> rne_shr (m * 2 ^ k) (n + k) = rne_shr m n.
Proof.
  intros Hm Hn Hk. destruct (Z.eq_dec n 0) as [-> | Hn0].
  - assert (0 < 2 ^ k) by (apply pow2_pos; lia).
    assert (rne_shr (m * 2 ^ k) (0 + k) * 2 ^ k = m * 2 ^ k) as E.
    { apply rne_shr_exact; [lia |]. apply Z.mod_mul. lia. }
    unfold rne_shr at 2. cbn [Z.leb Z.compare]. nia.
  - apply rne_shr_shift; lia.
Qed.

Lemma drop_bits_pos (t : Z) :
  0 < t -> drop_bits t = Z.max 0 (Zdigits2 t - 53).
Proof.
  intros Ht. unfold drop_bits. rewrite Z.abs_eq, Zdigits2_log2 by lia.
  reflexivity.
Qed.

End Canonical.

Section RoundTicks.

Lemma Zdigits2_scale (t m a b : Z) :
  0 < t -> 0 < m -> 0 <= a -> 0 <= b -> t * 2 ^ a = m * 2 ^ b ->
  Zdigits2 t + a = Zdigits2 m + b.
Proof.
  intros Ht Hm Ha Hb E.
  rewrite !Zdigits2_log2 by lia.
  pose proof (Z.log2_mul_pow2 t a Ht Ha) as L1.
  pose proof (Z.log2_mul_pow2 m b Hm Hb) as L2.
  rewrite E in L1. lia.
Qed.

(** Rounding a positive exact result of [t] ticks, given as the mantissa
    [m] at exponent [e], yields the binary64 number of
    [rne_shr t n * 2^n] ticks, [n = drop_bits t]. *)
Lemma round_aux_ticks (s : bool) (m e t a b : Z) :
  0 < m -> 0 < t -> 0 <= a -> 0 <= b -> b - a = e + 1074 ->
  t * 2 ^ a = m * 2 ^ b ->
  rne_shr t (drop_bits t) * 2 ^ drop_bits t < 2 ^ 2098 ->
  e <= fexp prec emax (Zdigits2 m + e) ->
  exists m' e',
    binary_round_aux prec emax s m e loc_Exact = S754_finite s m' e'
    /\ bounded prec emax m' e' = true
    /\ Zpos m' * 2 ^ (e' + 1074)
       = rne_shr t (drop_bits t) * 2 ^ drop_bits t.
Proof.
  intros Hm Ht Ha Hb Hab E Hmax Hn.
  pose proof (Zdigits2_scale t m a b Ht Hm Ha Hb E) as Hd.
  pose proof (Zdigits2_bounds t Ht) as Bt.
  set (n := fexp prec emax (Zdigits2 m + e) - e).
  assert (0 <= n) as Hn0 by (unfold n; lia).
  rewrite (round_aux_eq s m e Hm Hn0). fold n.
  set (nt := drop_bits t).
  assert (nt = Z.max 0 (Zdigits2 t - 53)) as Hnt by (apply drop_bits_pos; exact Ht).
  assert (nt + a = n + b) as Hshift.
  { unfold n. rewrite fexp_53. lia. }
  assert (rne_shr m n = rne_shr t nt) as Hr.
  { rewrite <- (rne_shr_scale m n b) by lia.
    rewrite <- (rne_shr_scale t nt a) by lia.
    rewrite E, Hshift. reflexivity. }
  rewrite Hr.
  assert (e + n = nt - 1074) as He by lia.
  rewrite He.
  assert (0 <= nt) as Hnt2 by lia.
  assert (0 < 2 ^ nt) as Pnt by (apply pow2_pos; lia).
  fold nt in Hmax.
  (* the rounded mantissa *)
  assert (0 < rne_shr t nt <= 2 ^ 53
          /\ (nt = 0 \/ 2 ^ 52 <= rne_shr t nt)) as [Hr1 Hr2].
  { destruct (Z.eq_dec nt 0) as [E0 | E0].
    - rewrite E0. unfold rne_shr. cbn [Z.leb Z.compare].
      assert (2 ^ Zdigits2 t <= 2 ^ 53) by (apply Z.pow_le_mono_r; lia).
      split; [lia | left; reflexivity].
    - pose proof (rne_shr_bounds t nt ltac:(lia)) as B.
      assert (Zdigits2 t = nt + 53) as Dt by lia.
      assert (2 ^ 52 <= t / 2 ^ nt).
      { apply Z.div_le_lower_bound; [lia |].
        rewrite <- Z.pow_add_r by lia.
        replace (nt + 52) with (Zdigits2 t - 1) by lia. lia. }
      assert (t / 2 ^ nt < 2 ^ 53).
      { apply Z.div_lt_upper_bound; [lia |].
        rewrite <- Z.pow_add_r by lia.
        replace (nt + 53) with (Zdigits2 t) by lia. lia. }
      split; [lia | right; lia]. }
  assert (2 ^ 52 <= rne_shr t nt -> nt <= 2045) as Hov.
  { intros Hge. apply Z.nlt_ge. intros C.
    assert (2 ^ 2046 <= 2 ^ nt) by (apply Z.pow_le_mono_r; lia).
    change (2 ^ 2098) with (2 ^ 52 * 2 ^ 2046) in Hmax. nia. }
  destruct (Z.eqb_spec (rne_shr t nt) (2 ^ 53)) as [C | C].
  - assert (nt <= 2044).
    { apply Z.nlt_ge. intros C'.
      assert (2 ^ 2045 <= 2 ^ nt) by (apply Z.pow_le_mono_r; lia).
      rewrite C in Hmax.
      change (2 ^ 2098) with (2 ^ 53 * 2 ^ 2045) in Hmax. nia. }
    rewrite C.
    exists (Z.to_pos (2 ^ 52)), (nt - 1074 + 1).
    split; [| split].
    + unfold SFmake. change (2 ^ 52) with (Zpos (Z.to_pos (2 ^ 52))).
      destruct (Z.leb_spec (nt - 1074 + 1) 971); [reflexivity | lia].
    + apply bounded_intro.
      * reflexivity.
      * lia.
      * right. change (Zpos (Z.to_pos (2 ^ 52))) with (2 ^ 52). lia.
    + change (Zpos (Z.to_pos (2 ^ 52))) with (2 ^ 52).
      replace (nt - 1074 + 1 + 1074) with (Z.succ nt) by lia.
      rewrite Z.pow_succ_r by lia.
      change (2 ^ 53) with (2 ^ 52 * 2). lia.
  - assert (nt <= 2045) by (destruct Hr2; [lia | auto]).
    destruct (rne_shr t nt) as [| p | p] eqn:Ep; try lia.
    exists p, (nt - 1074).
    split; [| split].
    + unfold SFmake.
      destruct (Z.leb_spec (nt - 1074) 971); [reflexivity | lia].
    + apply bounded_intro; lia.
    + replace (nt - 1074 + 1074) with nt by lia. reflexivity.
Qed.

End RoundTicks.

Section Normalize.

Lemma iter_xO (m d : positive) : Zpos (Pos.iter xO m d) = Zpos m * 2 ^ Zpos d.
Proof.
  induction d as [| d IH] using Pos.peano_ind.
  - cbn [Pos.iter]. rewrite Z.pow_1_r. lia.
  - rewrite Pos.iter_succ, Pos2Z.inj_succ, Z.pow_succ_r by lia.
    rewrite Pos2Z.inj_xO, IH. lia.
Qed.

Lemma shl_align_spec (m : positive) (e e' : Z) :
  snd (shl_align m e e') = Z.min e e'
  /\ Zpos (fst (shl_align m e e')) = Zpos m * 2 ^ (e - Z.min e e').
Proof.
  unfold shl_align. destruct (e' - e) as [| d | d] eqn:E; cbn [fst snd].
  - replace (Z.min e e') with e by lia. rewrite Z.sub_diag. lia.
  - replace (Z.min e e') with e by lia. rewrite Z.sub_diag. lia.
  - replace (Z.min e e') with e' by lia.
    rewrite iter_xO. replace (e - e') with (Zpos d) by lia. lia.
Qed.

Lemma round_ticks (s : bool) (m : positive) (e : Z) :
  -1074 <= e ->
  let t := Zpos m * 2 ^ (e + 1074) in
  rne_shr t (drop_bits t) * 2 ^ drop_bits t < 2 ^ 2098 ->
  exists m' e',
    binary_round prec emax s m e = S754_finite s m' e'
    /\ bounded prec emax m' e' = true
    /\ Zpos m' * 2 ^ (e' + 1074) = rne_shr t (drop_bits t) * 2 ^ drop_bits t.
Proof.
  intros He t Hmax. unfold binary_round.
  set (f := fexp prec emax (Zpos (digits2_pos m) + e)).
  destruct (shl_align_spec m e f) as [A1 A2].
  destruct (shl_align m e f) as [mz ez]. cbn [fst snd] in A1, A2.
  assert (-1074 <= f) as Hf by (unfold f; rewrite fexp_53; lia).
  assert (0 < 2 ^ (e + 1074)) by (apply pow2_pos; lia).
  assert (Zpos mz * 2 ^ (ez + 1074) = t) as Et.
  { unfold t. rewrite A2, <- Z.mul_assoc, <- Z.pow_add_r by lia.
    do 2 f_equal. lia. }
  apply (round_aux_ticks s (Zpos mz) ez t 0 (ez + 1074)); try lia.
  change (Zpos (digits2_pos m)) with (Zdigits2 (Zpos m)) in f.
  assert (Zdigits2 (Zpos mz) + ez = Zdigits2 (Zpos m) + e) as Ed.
  { pose proof (Zdigits2_scale (Zpos mz) (Zpos m) 0 (e - ez)
                  ltac:(lia) ltac:(lia) ltac:(lia) ltac:(lia)) as D.
    rewrite Z.pow_0_r, Z.mul_1_r in D. rewrite <- A1 in A2. specialize (D A2). lia. }
  rewrite Ed. fold f. lia.
Qed.

Lemma rnd_ticks_0 : rnd_ticks 0 = 0.
Proof. reflexivity. Qed.

Lemma rnd_ticks_opp (t : Z) : rnd_ticks (- t) = - rnd_ticks t.
Proof.
  unfold rnd_ticks, drop_bits. rewrite Z.abs_opp, Z.sgn_opp. lia.
Qed.

Lemma rnd_ticks_pos (t : Z) :
  0 < t -> rnd_ticks t = rne_shr t (drop_bits t) * 2 ^ drop_bits t.
Proof.
  intros Ht. unfold rnd_ticks. rewrite Z.sgn_pos, Z.abs_eq by lia.
  unfold drop_bits. rewrite Z.abs_eq by lia. lia.
Qed.

(** [binary_normalize], in ticks. *)
Lemma normalize_ticks (m e : Z) :
  -1074 <= e ->
  Z.abs (rnd_ticks (m * 2 ^ (e + 1074))) < 2 ^ 2098 ->
  let r := binary_normalize prec emax m e false in
  SFfinite r = true /\ valid_binary r = true
  /\ SFticks r = rnd_ticks (m * 2 ^ (e + 1074)).
Proof.
  intros He Hmax r. subst r.
  assert (0 < 2 ^ (e + 1074)) by (apply pow2_pos; lia).
  destruct m as [| p | p]; cbn [binary_normalize].
  - repeat split; reflexivity.
  - rewrite rnd_ticks_pos in * by lia.
    destruct (round_ticks false p e He) as (m' & e' & E1 & E2 & E3).
    { lia. }
    rewrite E1. cbn [SFfinite valid_binary SFticks]. auto.
  - replace (Z.neg p * 2 ^ (e + 1074)) with (- (Zpos p * 2 ^ (e + 1074))) in * by lia.
    rewrite rnd_ticks_opp in *. rewrite rnd_ticks_pos in * by lia.
    destruct (round_ticks true p e He) as (m' & e' & E1 & E2 & E3).
    { lia. }
    rewrite E1. cbn [SFfinite valid_binary SFticks].
    repeat split; auto. lia.
Qed.

End Normalize.

Section RndTicks.

Lemma drop_bits_nonneg (t : Z) : 0 <= drop_bits t.
Proof. unfold drop_bits. lia. Qed.

Lemma drop_bits_le (t k : Z) :
  0 <= k -> Z.abs t < 2 ^ (53 + k) -> drop_bits t <= k.
Proof.
  intros Hk Ht. unfold drop_bits.
  destruct (Z.eq_dec t 0) as [-> | Hne]; [cbn; lia |].
  assert (Z.log2 (Z.abs t) < 53 + k) by (apply Z.log2_lt_pow2; lia).
  lia.
Qed.

(** Rounding moves an exact result by at most half a unit in the last
    place. *)
Lemma rnd_ticks_error (t : Z) :
  2 * Z.abs (rnd_ticks t - t) <= 2 ^ drop_bits t
  /\ (drop_bits t = 0 -> rnd_ticks t = t).
Proof.
  assert (forall u, 0 <= u ->
            2 * Z.abs (rnd_ticks u - u) <= 2 ^ drop_bits u
            /\ (drop_bits u = 0 -> rnd_ticks u = u)) as Hpos.
  { intros u Hu. destruct (Z.eq_dec u 0) as [-> | Hne].
    - split; [cbn; lia | reflexivity].
    - rewrite rnd_ticks_pos by lia.
      pose proof (drop_bits_nonneg u) as Hn.
      destruct (Z.eq_dec (drop_bits u) 0) as [E | E].
      + rewrite E. unfold rne_shr. cbn [Z.leb Z.compare].
        rewrite Z.pow_0_r. split; lia.
      + split; [apply rne_shr_error; lia | lia]. }
  destruct (Z.le_gt_cases 0 t) as [Ht | Ht]; [apply Hpos; exact Ht |].
  destruct (Hpos (- t) ltac:(lia)) as [H1 H2].
  rewrite rnd_ticks_opp in H1, H2.
  assert (drop_bits (- t) = drop_bits t) as Ed
    by (unfold drop_bits; rewrite Z.abs_opp; reflexivity).
  rewrite Ed in H1, H2. split; [lia |]. intros E. specialize (H2 E). lia.
Qed.

(** A number with at most 53 significant bits is its own rounding. *)
Lemma rnd_ticks_repr (a k : Z) :
  Z.abs a < 2 ^ 53 -> 0 <= k -> rnd_ticks (a * 2 ^ k) = a * 2 ^ k.
Proof.
  intros Ha Hk.
  assert (0 < 2 ^ k) as Pk by (apply pow2_pos; lia).
  assert (forall b, 0 <= b < 2 ^ 53 -> rnd_ticks (b * 2 ^ k) = b * 2 ^ k) as Hpos.
  { intros b Hb. destruct (Z.eq_dec b 0) as [-> | Hne]; [reflexivity |].
    rewrite rnd_ticks_pos by nia.
    set (t := b * 2 ^ k).
    assert (drop_bits t <= k) as Hd.
    { apply drop_bits_le; [lia |]. unfold t.
      rewrite Z.abs_eq, Z.pow_add_r by nia. nia. }
    pose proof (drop_bits_nonneg t).
    set (d := drop_bits t) in *.
    apply rne_shr_exact; [lia |].
    unfold t. replace k with (k - d + d) by lia.
    rewrite Z.pow_add_r, Z.mul_assoc by lia. apply Z.mod_mul.
    assert (0 < 2 ^ d) by (apply pow2_pos; lia). lia. }
  destruct (Z.le_gt_cases 0 a) as [H | H]; [apply Hpos; lia |].
  replace (a * 2 ^ k) with (- ((- a) * 2 ^ k)) by lia.
  rewrite rnd_ticks_opp, Hpos by lia. reflexivity.
Qed.

Lemma SFticks_valid (x : spec_float) :
  valid_binary x = true ->
  rnd_ticks (SFticks x) = SFticks x /\ Z.abs (SFticks x) < 2 ^ 2098.
Proof.
  destruct x as [s | s | | s m e]; intros Hv; cbn [SFticks];
    try (split; [reflexivity | cbn; lia]).
  cbn [valid_binary] in Hv. apply bounded_elim in Hv.
  destruct Hv as (Hm & He & _).
  assert (0 < 2 ^ (e + 1074)) as P by (apply pow2_pos; lia).
  assert (2 ^ (e + 1074) <= 2 ^ 2045) by (apply Z.pow_le_mono_r; lia).
  change (2 ^ 2098) with (2 ^ 53 * 2 ^ 2045).
  destruct s.
  - replace (- (Zpos m * 2 ^ (e + 1074))) with ((- Zpos m) * 2 ^ (e + 1074)) by lia.
    split; [apply rnd_ticks_repr; lia | nia].
  - split; [apply rnd_ticks_repr; lia | nia].
Qed.

End RndTicks.

Section SpecOps.

Lemma aligned_ticks (s : bool) (m : positive) (e ez : Z) :
  -1074 <= ez <= e ->
  cond_Zopp s (Zpos (fst (shl_align m e ez))) * 2 ^ (ez + 1074)
  = SFticks (S754_finite s m e).
Proof.
  intros H. destruct (shl_align_spec m e ez) as [_ A]. rewrite A.
  replace (Z.min e ez) with ez by lia.
  cbv beta iota zeta delta [SFticks cond_Zopp].
  replace (e + 1074) with ((e - ez) + (ez + 1074)) by lia.
  rewrite (Z.pow_add_r 2 (e - ez) (ez + 1074)) by lia.
  destruct s; ring.
Qed.

Lemma valid_finite_exp (s : bool) (m : positive) (e : Z) :
  valid_binary (S754_finite s m e) = true -> -1074 <= e.
Proof. intros H. apply bounded_elim in H. lia. Qed.

Lemma SFadd_ticks (x y : spec_float) :
  valid_binary x = true -> valid_binary y = true ->
  SFfinite x = true -> SFfinite y = true ->
  Z.abs (rnd_ticks (SFticks x + SFticks y)) < 2 ^ 2098 ->
  SFfinite (SFadd prec emax x y) = true
  /\ SFticks (SFadd prec emax x y) = rnd_ticks (SFticks x + SFticks y).
Proof.
  intros Vx Vy Fx Fy Hmax.
  destruct x as [sx | sx | | sx mx ex]; try discriminate;
    destruct y as [sy | sy | | sy my ey]; try discriminate.
  - destruct sx, sy; split; reflexivity.
  - cbn [SFadd]. split; [reflexivity |].
    change (SFticks (S754_zero sx)) with 0. rewrite Z.add_0_l.
    symmetry. apply SFticks_valid. exact Vy.
  - cbn [SFadd]. split; [reflexivity |].
    change (SFticks (S754_zero sy)) with 0. rewrite Z.add_0_r.
    symmetry. apply SFticks_valid. exact Vx.
  - pose proof (valid_finite_exp _ _ _ Vx). pose proof (valid_finite_exp _ _ _ Vy).
    cbn [SFadd]. set (ez := Z.min ex ey).
    set (msum := cond_Zopp sx (Zpos (fst (shl_align mx ex ez)))
                 + cond_Zopp sy (Zpos (fst (shl_align my ey ez)))).
    assert (msum * 2 ^ (ez + 1074)
            = SFticks (S754_finite sx mx ex) + SFticks (S754_finite sy my ey)) as E.
    { unfold msum. rewrite Z.mul_add_distr_r, !aligned_ticks by lia. reflexivity. }
    rewrite <- E in *.
    destruct (normalize_ticks msum ez ltac:(lia) Hmax) as (R1 & _ & R3).
    split; assumption.
Qed.

Lemma SFsub_ticks (x y : spec_float) :
  valid_binary x = true -> valid_binary y = true ->
  SFfinite x = true -> SFfinite y = true ->
  Z.abs (rnd_ticks (SFticks x - SFticks y)) < 2 ^ 2098 ->
  SFfinite (SFsub prec emax x y) = true
  /\ SFticks (SFsub prec emax x y) = rnd_ticks (SFticks x - SFticks y).
Proof.
  intros Vx Vy Fx Fy Hmax.
  destruct x as [sx | sx | | sx mx ex]; try discriminate;
    destruct y as [sy | sy | | sy my ey]; try discriminate.
  - destruct sx, sy; split; reflexivity.
  - cbn [SFsub]. split; [reflexivity |].
    change (SFticks (S754_zero sx)) with 0. rewrite Z.sub_0_l.
    rewrite rnd_ticks_opp.
    rewrite (proj1 (SFticks_valid _ Vy)).
    cbn [SFticks]. destruct sy; cbn [negb]; lia.
  - cbn [SFsub]. split; [reflexivity |].
    change (SFticks (S754_zero sy)) with 0. rewrite Z.sub_0_r.
    symmetry. apply SFticks_valid. exact Vx.
  - pose proof (valid_finite_exp _ _ _ Vx). pose proof (valid_finite_exp _ _ _ Vy).
    cbn [SFsub]. set (ez := Z.min ex ey).
    set (msum := cond_Zopp sx (Zpos (fst (shl_align mx ex ez)))
                 - cond_Zopp sy (Zpos (fst (shl_align my ey ez)))).
    assert (msum * 2 ^ (ez + 1074)
            = SFticks (S754_finite sx mx ex) - SFticks (S754_finite sy my ey)) as E.
    { unfold msum. rewrite Z.mul_sub_distr_r, !aligned_ticks by lia. reflexivity. }
    rewrite <- E in *.
    destruct (normalize_ticks msum ez ltac:(lia) Hmax) as (R1 & _ & R3).
    split; assumption.
Qed.

End SpecOps.

Section SpecMul.

(** [60.0] as the specification sees it. *)
Lemma Prim2SF_60 : Prim2SF 60 = S754_finite false 8444249301319680 (-47).
Proof. reflexivity. Qed.

Lemma SFmul60_ticks (x : spec_float) :
  valid_binary x = true -> SFfinite x = true ->
  Z.abs (rnd_ticks (60 * SFticks x)) < 2 ^ 2098 ->
  let r := SFmul prec emax x (S754_finite false 8444249301319680 (-47)) in
  SFfinite r = true /\ SFticks r = rnd_ticks (60 * SFticks x).
Proof.
  intros Vx Fx Hmax r. subst r.
  destruct x as [sx | sx | | sx mx ex]; try discriminate.
  - split; reflexivity.
  - pose proof (valid_finite_exp _ _ _ Vx) as He.
    cbn [SFmul]. rewrite xorb_false_r.
    set (t := 60 * (Zpos mx * 2 ^ (ex + 1074))).
    assert (0 < 2 ^ (ex + 1074)) as P by (apply pow2_pos; lia).
    assert (0 < t) as Ht by (unfold t; nia).
    assert (Z.abs (rnd_ticks t) < 2 ^ 2098) as Hmax'.
    { revert Hmax. cbn [SFticks]. fold t.
      destruct sx; [| auto].
      replace (60 * - (Zpos mx * 2 ^ (ex + 1074))) with (- t) by (unfold t; lia).
      rewrite rnd_ticks_opp, Z.abs_opp. auto. }
    rewrite rnd_ticks_pos in Hmax' by exact Ht.
    destruct (round_aux_ticks sx (Zpos (mx * 8444249301319680)) (ex + -47)
                t 47 (ex + 1074)) as (m' & e' & E1 & _ & E3); try lia.
    + rewrite fexp_53.
      assert (53 <= Zdigits2 (Zpos (mx * 8444249301319680))); [| lia].
      apply Z.nlt_ge. intros C.
      pose proof (Zdigits2_bounds (Zpos (mx * 8444249301319680)) ltac:(lia)) as B.
      assert (2 ^ Zdigits2 (Zpos (mx * 8444249301319680)) <= 2 ^ 52)
        by (apply Z.pow_le_mono_r; lia).
      change (2 ^ 52) with 4503599627370496 in *. lia.
    + rewrite E1. split; [reflexivity |].
      cbn [SFticks]. fold t. rewrite E3.
      destruct sx.
      * replace (60 * - (Zpos mx * 2 ^ (ex + 1074))) with (- t) by (unfold t; lia).
        rewrite rnd_ticks_opp, rnd_ticks_pos by exact Ht. reflexivity.
      * fold t. rewrite rnd_ticks_pos by exact Ht. reflexivity.
Qed.

End SpecMul.

Section SpecCompare.

Lemma pos_ticks_compare (m1 m2 : positive) (e1 e2 : Z) :
  bounded prec emax m1 e1 = true -> bounded prec emax m2 e2 = true ->
  (Zpos m1 * 2 ^ (e1 + 1074) ?= Zpos m2 * 2 ^ (e2 + 1074))
  = match e1 ?= e2 with
    | Lt => Lt
    | Gt => Gt
    | Eq => Pos.compare_cont Eq m1 m2
    end.
Proof.
  intros B1 B2.
  apply bounded_elim in B1. apply bounded_elim in B2.
  destruct B1 as (M1 & E1 & N1). destruct B2 as (M2 & E2 & N2).
  assert (forall ma mb ea eb,
            Zpos ma < 2 ^ 53 -> 2 ^ 52 <= Zpos mb -> -1074 <= ea < eb ->
            Zpos ma * 2 ^ (ea + 1074) < Zpos mb * 2 ^ (eb + 1074)) as Hlt.
  { intros ma mb ea eb Ha Hb Hab.
    assert (0 < 2 ^ (ea + 1074)) by (apply pow2_pos; lia).
    assert (2 ^ (ea + 1074 + 1) <= 2 ^ (eb + 1074)) as P
      by (apply Z.pow_le_mono_r; lia).
    rewrite Z.pow_add_r, Z.pow_1_r in P by lia.
    change (2 ^ 53) with (2 * 2 ^ 52) in Ha. nia. }
  destruct (Z.compare_spec e1 e2) as [E | E | E].
  - subst e2. assert (0 < 2 ^ (e1 + 1074)) by (apply pow2_pos; lia).
    change (Pos.compare_cont Eq m1 m2) with (Zpos m1 ?= Zpos m2).
    destruct (Z.compare_spec (Zpos m1) (Zpos m2)) as [C | C | C].
    + rewrite C. apply Z.compare_refl.
    + apply Z.compare_lt_iff. nia.
    + apply Z.compare_gt_iff. nia.
  - apply Z.compare_lt_iff. apply Hlt; lia.
  - apply Z.compare_gt_iff. apply Hlt; lia.
Qed.

(** On finite numbers [SFcompare] is the order of the values. *)
Lemma SFcompare_ticks (x y : spec_float) :
  valid_binary x = true -> valid_binary y = true ->
  SFfinite x = true -> SFfinite y = true ->
  SFcompare x y = Some (SFticks x ?= SFticks y).
Proof.
  intros Vx Vy Fx Fy.
  destruct x as [sx | sx | | sx mx ex]; try discriminate;
    destruct y as [sy | sy | | sy my ey]; try discriminate.
  - reflexivity.
  - pose proof (valid_finite_exp _ _ _ Vy).
    assert (0 < 2 ^ (ey + 1074)) by (apply pow2_pos; lia).
    cbn [SFcompare SFticks]. f_equal. symmetry.
    destruct sy; [apply Z.compare_gt_iff | apply Z.compare_lt_iff]; nia.
  - pose proof (valid_finite_exp _ _ _ Vx).
    assert (0 < 2 ^ (ex + 1074)) by (apply pow2_pos; lia).
    cbn [SFcompare SFticks]. f_equal. symmetry.
    destruct sx; [apply Z.compare_lt_iff | apply Z.compare_gt_iff]; nia.
  - pose proof (valid_finite_exp _ _ _ Vx). pose proof (valid_finite_exp _ _ _ Vy).
    assert (0 < 2 ^ (ex + 1074)) by (apply pow2_pos; lia).
    assert (0 < 2 ^ (ey + 1074)) by (apply pow2_pos; lia).
    cbn [valid_binary] in Vx, Vy.
    pose proof (pos_ticks_compare mx my ex ey Vx Vy) as C.
    cbn [SFcompare SFticks]. f_equal.
    destruct sx, sy.
    + rewrite Z.compare_opp.
      rewrite (Z.compare_antisym (Zpos mx * 2 ^ (ex + 1074))
                 (Zpos my * 2 ^ (ey + 1074))), C.
      destruct (ex ?= ey); reflexivity.
    + symmetry. apply Z.compare_lt_iff. nia.
    + symmetry. apply Z.compare_gt_iff. nia.
    + symmetry. exact C.
Qed.

End SpecCompare.

(** * The primitive operations, in ticks *)

Section PrimOps.

Lemma is_finite_spec (x : float) : is_finite x = SFfinite (Prim2SF x).
Proof.
  unfold is_finite, is_nan, is_infinity.
  rewrite !eqb_spec, abs_spec.
  change (Prim2SF infinity) with (S754_infinity false).
  destruct (Prim2SF x) as [s | s | | s m e]; try reflexivity.
  - destruct s; reflexivity.
  - unfold SFeqb. cbn [SFabs SFcompare].
    rewrite Z.compare_refl, Pos.compare_cont_refl.
    destruct s; reflexivity.
Qed.

Lemma finite_abs (x : float) : is_finite (abs x) = is_finite x.
Proof.
  rewrite !is_finite_spec, abs_spec. destruct (Prim2SF x); reflexivity.
Qed.

Lemma ticks_abs (x : float) : ticks (abs x) = Z.abs (ticks x).
Proof.
  unfold ticks. rewrite abs_spec.
  destruct (Prim2SF x) as [s | s | | s m e] eqn:E; try reflexivity.
  pose proof (Prim2SF_valid x) as V. rewrite E in V.
  pose proof (valid_finite_exp _ _ _ V).
  assert (0 < 2 ^ (e + 1074)) by (apply pow2_pos; lia).
  cbn [SFabs SFticks]. destruct s; lia.
Qed.

Lemma ticks_bound (x : float) :
  rnd_ticks (ticks x) = ticks x /\ Z.abs (ticks x) < 2 ^ 2098.
Proof. apply SFticks_valid, Prim2SF_valid. Qed.

Lemma add_ticks (x y : float) :
  is_finite x = true -> is_finite y = true ->
  Z.abs (rnd_ticks (ticks x + ticks y)) < 2 ^ 2098 ->
  is_finite (x + y) = true /\ ticks (x + y) = rnd_ticks (ticks x + ticks y).
Proof.
  rewrite !is_finite_spec. unfold ticks. rewrite add_spec.
  intros Fx Fy H. apply SFadd_ticks; auto using Prim2SF_valid.
Qed.

Lemma sub_ticks (x y : float) :
  is_finite x = true -> is_finite y = true ->
  Z.abs (rnd_ticks (ticks x - ticks y)) < 2 ^ 2098 ->
  is_finite (x - y) = true /\ ticks (x - y) = rnd_ticks (ticks x - ticks y).
Proof.
  rewrite !is_finite_spec. unfold ticks. rewrite sub_spec.
  intros Fx Fy H. apply SFsub_ticks; auto using Prim2SF_valid.
Qed.

Lemma mul60_ticks (x : float) :
  is_finite x = true ->
  Z.abs (rnd_ticks (60 * ticks x)) < 2 ^ 2098 ->
  is_finite (x * 60) = true /\ ticks (x * 60) = rnd_ticks (60 * ticks x).
Proof.
  rewrite !is_finite_spec. unfold ticks. rewrite mul_spec, Prim2SF_60.
  intros Fx H. apply SFmul60_ticks; auto using Prim2SF_valid.
Qed.

Lemma compare_ticks (x y : float) :
  is_finite x = true -> is_finite y = true ->
  SFcompare (Prim2SF x) (Prim2SF y) = Some (ticks x ?= ticks y).
Proof.
  rewrite !is_finite_spec. intros Fx Fy.
  apply SFcompare_ticks; auto using Prim2SF_valid.
Qed.

Lemma leb_ticks (x y : float) :
  is_finite x = true -> is_finite y = true ->
  (x <=? y)%float = (ticks x <=? ticks y).
Proof.
  intros Fx Fy. rewrite leb_spec. unfold SFleb.
  rewrite (compare_ticks x y Fx Fy). unfold Z.leb.
  destruct (ticks x ?= ticks y); reflexivity.
Qed.

Lemma ltb_ticks (x y : float) :
  is_finite x = true -> is_finite y = true ->
  (x <? y)%float = (ticks x <? ticks y).
Proof.
  intros Fx Fy. rewrite ltb_spec. unfold SFltb.
  rewrite (compare_ticks x y Fx Fy). unfold Z.ltb.
  destruct (ticks x ?= ticks y); reflexivity.
Qed.


End PrimOps.

Section PyConversions.

Lemma int_ticks (x : float) :
  is_finite x = true -> Py.int x = Ok (Z.quot (ticks x) (2 ^ 1074)).
Proof.
  rewrite is_finite_spec. unfold Py.int, ticks.
  pose proof (Prim2SF_valid x) as V.
  destruct (Prim2SF x) as [s | s | | s m e]; try discriminate; intros _.
  - reflexivity.
  - pose proof (valid_finite_exp _ _ _ V) as He.
    assert (0 < 2 ^ (e + 1074)) as Pk by (apply pow2_pos; lia).
    cbn [SFticks]. f_equal.
    set (a := match e with
              | Z.neg p => Z.shiftr (Zpos m) (Zpos p)
              | _ => Z.shiftl (Zpos m) e
              end).
    assert (a = Zpos m * 2 ^ (e + 1074) / 2 ^ 1074) as Ea.
    { unfold a. destruct e as [| p | p].
      - cbn [Z.shiftl]. rewrite Z.div_mul by (apply Z.pow_nonzero; lia). reflexivity.
      - rewrite Z.shiftl_mul_pow2 by lia.
        rewrite (Z.pow_add_r 2 (Zpos p) 1074), Z.mul_assoc by lia.
        rewrite Z.div_mul by (apply Z.pow_nonzero; lia). reflexivity.
      - rewrite Z.shiftr_div_pow2 by lia.
        assert (2 ^ 1074 = 2 ^ Zpos p * 2 ^ (Z.neg p + 1074)) as E.
        { rewrite <- Z.pow_add_r by lia. f_equal. lia. }
        rewrite E, Z.div_mul_cancel_r by lia. reflexivity. }
    assert (0 < 2 ^ 1074) as PU by reflexivity.
    assert (0 <= Zpos m * 2 ^ (e + 1074)) as Pt by lia.
    destruct s.
    + rewrite Z.quot_opp_l, Z.quot_div_nonneg by lia. lia.
    + rewrite Z.quot_div_nonneg by lia. exact Ea.
Qed.

Lemma float_ticks (n : Z) :
  Z.abs (rnd_ticks (n * 2 ^ 1074)) < 2 ^ 2098 ->
  exists f, Py.float n = Ok f /\ is_finite f = true
            /\ ticks f = rnd_ticks (n * 2 ^ 1074).
Proof.
  intros H.
  destruct (normalize_ticks n 0 ltac:(lia) H) as (R1 & R2 & R3).
  unfold Py.float.
  set (r := binary_normalize prec emax n 0 false) in *.
  exists (SF2Prim r).
  assert (Prim2SF (SF2Prim r) = r) as E by (apply Prim2SF_SF2Prim; exact R2).
  split; [| split].
  - destruct r; try reflexivity; discriminate.
  - rewrite is_finite_spec, E. exact R1.
  - unfold ticks. rewrite E. exact R3.
Qed.

(** A finite float is a mantissa below [2^53] times a power of two. *)
Lemma ticks_form (x : float) :
  exists a k, ticks x = a * 2 ^ k /\ Z.abs a < 2 ^ 53 /\ 0 <= k <= 2045.
Proof.
  unfold ticks. pose proof (Prim2SF_valid x) as V.
  destruct (Prim2SF x) as [s | s | | s m e];
    try (exists 0, 0; cbn; lia).
  cbn [valid_binary] in V. apply bounded_elim in V.
  cbn [SFticks].
  exists (if s then - Zpos m else Zpos m), (e + 1074).
  destruct s; repeat split; lia.
Qed.

End PyConversions.

(** * The codec *)

Section CodecSteps.

Lemma rnd_ticks_nonneg (t : Z) : 0 <= t -> 0 <= rnd_ticks t.
Proof.
  intros Ht. destruct (Z.eq_dec t 0) as [-> | Hne]; [cbn; lia |].
  rewrite rnd_ticks_pos by lia.
  pose proof (drop_bits_nonneg t) as Hn.
  assert (0 < 2 ^ drop_bits t) by (apply pow2_pos; lia).
  assert (0 <= rne_shr t (drop_bits t)); [| nia].
  destruct (Z.eq_dec (drop_bits t) 0) as [E | E].
  - rewrite E. unfold rne_shr. cbn [Z.leb Z.compare]. lia.
  - pose proof (rne_shr_bounds t (drop_bits t) ltac:(lia)).
    assert (0 <= t / 2 ^ drop_bits t) by (apply Z.div_pos; lia). lia.
Qed.

(** Integer and fractional part of a non-negative float are floats, and
    the fractional part stays [2^-53] below one. *)
Lemma trunc_repr (y : float) :
  0 <= ticks y ->
  let t := ticks y in
  rnd_ticks (t / 2 ^ 1074 * 2 ^ 1074) = t / 2 ^ 1074 * 2 ^ 1074
  /\ rnd_ticks (t mod 2 ^ 1074) = t mod 2 ^ 1074
  /\ 0 <= t mod 2 ^ 1074 <= 2 ^ 1074 - 2 ^ 1021.
Proof.
  intros Ht t. subst t.
  destruct (ticks_form y) as (a & k & E & Ha & Hk).
  assert (0 < 2 ^ k) as Pk by (apply pow2_pos; lia).
  assert (0 <= a) as Ha0 by nia.
  rewrite E.
  destruct (Z.le_gt_cases 1074 k) as [Hge | Hlt].
  - assert (2 ^ k = 2 ^ (k - 1074) * 2 ^ 1074) as Ek.
    { rewrite <- Z.pow_add_r by lia. f_equal. lia. }
    assert (a * 2 ^ k = a * 2 ^ (k - 1074) * 2 ^ 1074) as Ek' by (rewrite Ek; ring).
    rewrite Ek'. rewrite Z.div_mul, Z.mod_mul by (apply Z.pow_nonzero; lia).
    rewrite <- Ek'.
    split; [apply rnd_ticks_repr; lia |].
    split; [reflexivity |]. split; [lia | cbv; discriminate].
  - set (j := 1074 - k).
    assert (0 < 2 ^ j) as Pj by (apply pow2_pos; lia).
    assert (2 ^ 1074 = 2 ^ j * 2 ^ k) as EU.
    { rewrite <- Z.pow_add_r by lia. f_equal. lia. }
    assert (a * 2 ^ k / 2 ^ 1074 = a / 2 ^ j) as Ed
      by (rewrite EU, Z.div_mul_cancel_r by lia; reflexivity).
    assert ((a * 2 ^ k) mod 2 ^ 1074 = a mod 2 ^ j * 2 ^ k) as Em
      by (rewrite EU, Z.mul_mod_distr_r by lia; reflexivity).
    rewrite Ed, Em.
    pose proof (Z.mod_pos_bound a (2 ^ j) Pj) as Hb.
    assert (a mod 2 ^ j <= a) by (apply Z.mod_le; lia).
    assert (0 <= a / 2 ^ j) by (apply Z.div_pos; lia).
    assert (a / 2 ^ j <= a) by (apply Z.div_le_upper_bound; nia).
    split; [apply rnd_ticks_repr; lia |].
    split; [apply rnd_ticks_repr; lia |].
    split; [nia |].
    destruct (Z.le_gt_cases 1021 k) as [K | K].
    + assert (2 ^ 1021 <= 2 ^ k) by (apply Z.pow_le_mono_r; lia).
      rewrite EU. nia.
    + assert (2 ^ k <= 2 ^ 1020) by (apply Z.pow_le_mono_r; lia).
      assert (2 ^ 53 * 2 ^ 1020 <= 2 ^ 1074 - 2 ^ 1021) by (cbv; discriminate).
      nia.
Qed.

(** Multiplying a fraction of a degree by sixty stays below sixty and
    is off by at most [2^-48]. *)
Lemma mul60_fraction (f : float) :
  is_finite f = true ->
  0 <= ticks f <= 2 ^ 1074 - 2 ^ 1021 ->
  is_finite (f * 60) = true
  /\ 0 <= ticks (f * 60) < 60 * 2 ^ 1074
  /\ Z.abs (ticks (f * 60) - 60 * ticks f) <= 2 ^ 1026.
Proof.
  intros Ff Hf.
  set (t := 60 * ticks f).
  assert (0 <= t) as Ht by lia.
  assert (drop_bits t <= 1027) as Hd.
  { apply drop_bits_le; [lia |].
    assert (60 * 2 ^ 1074 < 2 ^ (53 + 1027)) by reflexivity. lia. }
  pose proof (drop_bits_nonneg t) as Hd0.
  destruct (rnd_ticks_error t) as [He _].
  assert (2 ^ drop_bits t <= 2 ^ 1027) as Hp by (apply Z.pow_le_mono_r; lia).
  pose proof (rnd_ticks_nonneg t Ht) as Hr.
  assert (2 ^ 1027 = 2 * 2 ^ 1026) as E27 by reflexivity.
  assert (60 * 2 ^ 1021 = 2 ^ 1026 + 28 * 2 ^ 1021) as E21 by reflexivity.
  assert (0 < 2 ^ 1021) as P21 by reflexivity.
  assert (60 * 2 ^ 1074 < 2 ^ 2098) as Big by reflexivity.
  destruct (mul60_ticks f Ff) as [F1 F2]; fold t.
  - lia.
  - fold t in F2. rewrite F2. split; [exact F1 |]. lia.
Qed.

End CodecSteps.

Section Codec.

(** What the three steps of [decimal_to_dms] compute, in ticks: with
    [t = |x|], [d = floor t], the minutes [m] and seconds [s] are below
    sixty and [3600 t - (3600 d + 60 m + s)] lies within rounding of
    [[0, 1)]. *)
Lemma decimal_to_dms_ticks (x : float) :
  is_finite x = true ->
  exists fd fm fs m s,
    decimal_to_dms x = Ok (fd, fm, fs)
    /\ ticks fd = Z.abs (ticks x) / 2 ^ 1074 * 2 ^ 1074
    /\ ticks fm = m * 2 ^ 1074 /\ ticks fs = s * 2 ^ 1074
    /\ 0 <= m < 60 /\ 0 <= s < 60
    /\ - (61 * 2 ^ 1026)
       <= 3600 * Z.abs (ticks x)
          - (3600 * (Z.abs (ticks x) / 2 ^ 1074) + 60 * m + s) * 2 ^ 1074
       < 2 ^ 1074 + 61 * 2 ^ 1026.
Proof.
  intros Fx. unfold decimal_to_dms. cbv zeta.
  set (ax := abs x).
  assert (is_finite ax = true) as Fax by (unfold ax; rewrite finite_abs; exact Fx).
  rewrite <- (ticks_abs x). fold ax.
  assert (0 <= ticks ax) as Ht by (unfold ax; rewrite ticks_abs; lia).
  destruct (ticks_bound ax) as [_ Bt].
  assert (0 < 2 ^ 1074) as PU by reflexivity.
  assert (2 ^ 1074 < 2 ^ 2098) as PU2 by reflexivity.
  (* degrees *)
  rewrite (int_ticks ax Fax), Z.quot_div_nonneg by lia. cbn [bind].
  destruct (trunc_repr ax Ht) as (R1 & R2 & R3). cbv zeta in R1, R2, R3.
  pose proof (Z.div_mod (ticks ax) (2 ^ 1074) ltac:(lia)) as Dt.
  destruct (float_ticks (ticks ax / 2 ^ 1074)) as (fd & Efd & Ffd & Tfd).
  { rewrite R1. lia. }
  rewrite R1 in Tfd. rewrite Efd. cbn [bind].
  (* fraction of a degree *)
  assert (ticks ax - ticks fd = ticks ax mod 2 ^ 1074) as Efr by lia.
  destruct (sub_ticks ax fd Fax Ffd) as [Ffr Tfr].
  { rewrite Efr, R2. lia. }
  rewrite Efr, R2 in Tfr.
  set (fr := (ax - fd)%float) in *.
  (* minutes *)
  destruct (mul60_fraction fr Ffr ltac:(lia)) as (Fp & Bp & Ep).
  set (p := (fr * 60)%float) in *.
  rewrite (int_ticks p Fp), Z.quot_div_nonneg by lia. cbn [bind].
  destruct (trunc_repr p ltac:(lia)) as (P1 & P2 & P3). cbv zeta in P1, P2, P3.
  pose proof (Z.div_mod (ticks p) (2 ^ 1074) ltac:(lia)) as Dp.
  assert (0 <= ticks p / 2 ^ 1074 < 60) as Hm.
  { split; [apply Z.div_pos; lia | apply Z.div_lt_upper_bound; lia]. }
  destruct (float_ticks (ticks p / 2 ^ 1074)) as (fm & Efm & Ffm & Tfm).
  { rewrite P1. lia. }
  rewrite P1 in Tfm. rewrite Efm. cbn [bind].
  (* fraction of a minute *)
  assert (ticks p - ticks fm = ticks p mod 2 ^ 1074) as Eg by lia.
  destruct (sub_ticks p fm Fp Ffm) as [Fg Tg].
  { rewrite Eg, P2. lia. }
  rewrite Eg, P2 in Tg.
  set (g := (p - fm)%float) in *.
  (* seconds *)
  destruct (mul60_fraction g Fg ltac:(lia)) as (Fq & Bq & Eq).
  set (q := (g * 60)%float) in *.
  rewrite (int_ticks q Fq), Z.quot_div_nonneg by lia. cbn [bind].
  destruct (trunc_repr q ltac:(lia)) as (Q1 & Q2 & Q3). cbv zeta in Q1, Q2, Q3.
  pose proof (Z.div_mod (ticks q) (2 ^ 1074) ltac:(lia)) as Dq.
  assert (0 <= ticks q / 2 ^ 1074 < 60) as Hs.
  { split; [apply Z.div_pos; lia | apply Z.div_lt_upper_bound; lia]. }
  destruct (float_ticks (ticks q / 2 ^ 1074)) as (fs & Efs & Ffs & Tfs).
  { rewrite Q1. lia. }
  rewrite Q1 in Tfs. rewrite Efs. cbn [bind].
  exists fd, fm, fs, (ticks p / 2 ^ 1074), (ticks q / 2 ^ 1074).
  split; [reflexivity |].
  split; [exact Tfd |]. split; [exact Tfm |]. split; [exact Tfs |].
  split; [exact Hm |]. split; [exact Hs |].
  lia.
Qed.

(** The same steps, float by float: the three components are finite, and
    each is the integer part of the non-negative finite float that the code
    hands to [int]: [|x|], [(|x| - degrees) * 60] and
    [(minutes_decimal - minutes) * 60]. *)
Lemma decimal_to_dms_steps (x : float) :
  is_finite x = true ->
  exists fd fm fs,
    decimal_to_dms x = Ok (fd, fm, fs)
    /\ (is_finite fd = true /\ is_finite fm = true /\ is_finite fs = true)
    /\ (is_finite ((abs x - fd) * 60) = true
        /\ is_finite ((((abs x - fd) * 60) - fm) * 60) = true)
    /\ ticks fd = Z.abs (ticks x) / 2 ^ 1074 * 2 ^ 1074
    /\ ticks fm = ticks ((abs x - fd) * 60) / 2 ^ 1074 * 2 ^ 1074
    /\ ticks fs
       = ticks ((((abs x - fd) * 60) - fm) * 60) / 2 ^ 1074 * 2 ^ 1074
    /\ 0 <= ticks ((abs x - fd) * 60) < 60 * 2 ^ 1074
    /\ 0 <= ticks ((((abs x - fd) * 60) - fm) * 60) < 60 * 2 ^ 1074.
Proof.
  intros Fx. unfold decimal_to_dms. cbv zeta.
  set (ax := abs x).
  assert (is_finite ax = true) as Fax by (unfold ax; rewrite finite_abs; exact Fx).
  rewrite <- (ticks_abs x). fold ax.
  assert (0 <= ticks ax) as Ht by (unfold ax; rewrite ticks_abs; lia).
  destruct (ticks_bound ax) as [_ Bt].
  assert (0 < 2 ^ 1074) as PU by reflexivity.
  assert (2 ^ 1074 < 2 ^ 2098) as PU2 by reflexivity.
  (* degrees *)
  rewrite (int_ticks ax Fax), Z.quot_div_nonneg by lia. cbn [bind].
  destruct (trunc_repr ax Ht) as (R1 & R2 & R3). cbv zeta in R1, R2, R3.
  pose proof (Z.div_mod (ticks ax) (2 ^ 1074) ltac:(lia)) as Dt.
  destruct (float_ticks (ticks ax / 2 ^ 1074)) as (fd & Efd & Ffd & Tfd).
  { rewrite R1. lia. }
  rewrite R1 in Tfd. rewrite Efd. cbn [bind].
  (* fraction of a degree *)
  assert (ticks ax - ticks fd = ticks ax mod 2 ^ 1074) as Efr by lia.
  destruct (sub_ticks ax fd Fax Ffd) as [Ffr Tfr].
  { rewrite Efr, R2. lia. }
  rewrite Efr, R2 in Tfr.
  set (fr := (ax - fd)%float) in *.
  (* minutes *)
  destruct (mul60_fraction fr Ffr ltac:(lia)) as (Fp & Bp & Ep).
  set (p := (fr * 60)%float) in *.
  rewrite (int_ticks p Fp), Z.quot_div_nonneg by lia. cbn [bind].
  destruct (trunc_repr p ltac:(lia)) as (P1 & P2 & P3). cbv zeta in P1, P2, P3.
  pose proof (Z.div_mod (ticks p) (2 ^ 1074) ltac:(lia)) as Dp.
  assert (0 <= ticks p / 2 ^ 1074 < 60) as Hm.
  { split; [apply Z.div_pos; lia | apply Z.div_lt_upper_bound; lia]. }
  destruct (float_ticks (ticks p / 2 ^ 1074)) as (fm & Efm & Ffm & Tfm).
  { rewrite P1. lia. }
  rewrite P1 in Tfm. rewrite Efm. cbn [bind].
  (* fraction of a minute *)
  assert (ticks p - ticks fm = ticks p mod 2 ^ 1074) as Eg by lia.
  destruct (sub_ticks p fm Fp Ffm) as [Fg Tg].
  { rewrite Eg, P2. lia. }
  rewrite Eg, P2 in Tg.
  set (g := (p - fm)%float) in *.
  (* seconds *)
  destruct (mul60_fraction g Fg ltac:(lia)) as (Fq & Bq & Eq).
  set (q := (g * 60)%float) in *.
  rewrite (int_ticks q Fq), Z.quot_div_nonneg by lia. cbn [bind].
  destruct (trunc_repr q ltac:(lia)) as (Q1 & Q2 & Q3). cbv zeta in Q1, Q2, Q3.
  pose proof (Z.div_mod (ticks q) (2 ^ 1074) ltac:(lia)) as Dq.
  assert (0 <= ticks q / 2 ^ 1074 < 60) as Hs.
  { split; [apply Z.div_pos; lia | apply Z.div_lt_upper_bound; lia]. }
  destruct (float_ticks (ticks q / 2 ^ 1074)) as (fs & Efs & Ffs & Tfs).
  { rewrite Q1. lia. }
  rewrite Q1 in Tfs. rewrite Efs. cbn [bind].
  exists fd, fm, fs.
  split; [reflexivity |].
  split; [auto |]. split; [split; assumption |].
  split; [exact Tfd |]. split; [exact Tfm |]. split; [exact Tfs |].
  split; assumption.
Qed.

End Codec.

(** * The codec: values as rationals *)

Section CodecQ.

Lemma unit_ticks_Z : Zpos unit_ticks = 2 ^ 1074.
Proof. reflexivity. Qed.

Lemma F2Q_int (f : float) (n : Z) :
  ticks f = n * 2 ^ 1074 -> (F2Q f == inject_Z n)%Q.
Proof.
  intros H. unfold F2Q, Qeq, inject_Z. cbn [Qnum Qden].
  rewrite H, unit_ticks_Z. ring.
Qed.

Lemma recon_Q (t d m s : Z) :
  (((3600 * t - (3600 * d + 60 * m + s) * 2 ^ 1074) # unit_ticks) ==
   3600 * ((t # unit_ticks)
           - (inject_Z d + inject_Z m / 60 + inject_Z s / 3600)))%Q.
Proof.
  unfold Qeq, Qdiv, Qminus, Qplus, Qmult, Qopp, Qinv, inject_Z.
  cbn [Qnum Qden].
  rewrite !Pos2Z.inj_mul, unit_ticks_Z.
  set (U := 2 ^ 1074). ring.
Qed.

Lemma Qle_ticks (a b : Z) : a <= b -> (a # unit_ticks <= b # unit_ticks)%Q.
Proof.
  intros H. unfold Qle. cbn [Qnum Qden].
  apply Z.mul_le_mono_nonneg_r; lia.
Qed.

End CodecQ.

(** * Claims on the codec *)

Section CodecClaims.

(** C2: [decimal_to_dms(0.0)] is [(0.0, 0.0, 0.0)] and
    [decimal_to_dms(40.758896)] is [(40.0, 45.0, 32.0)]. *)
Theorem decimal_to_dms_examples :
  decimal_to_dms 0 = Ok (0, 0, 0)%float
  /\ decimal_to_dms 40.758896 = Ok (40, 45, 32)%float.
Proof. split; vm_compute; reflexivity. Qed.

(** C3: for every finite [x] the codec returns a triple of finite floats
    whose degrees are [floor |x|], whose minutes and seconds lie in
    [[0, 60)], and whose three components are non-negative whatever the
    sign of [x].  The ranges are stated twice: by the float comparisons of
    the language and on the exact values. *)
Theorem decimal_to_dms_invariant (x : float) :
  is_finite x = true ->
  exists degrees minutes seconds,
    decimal_to_dms x = Ok (degrees, minutes, seconds)
    /\ (is_finite degrees = true /\ is_finite minutes = true
        /\ is_finite seconds = true)
    /\ (F2Q degrees == inject_Z (Qfloor (Qabs (F2Q x))))%Q
    /\ (0 <=? degrees)%float = true
    /\ ((0 <=? minutes)%float = true /\ (minutes <? 60)%float = true)
    /\ ((0 <=? seconds)%float = true /\ (seconds <? 60)%float = true)
    /\ (0 <= F2Q minutes)%Q /\ (F2Q minutes < 60)%Q
    /\ (0 <= F2Q seconds)%Q /\ (F2Q seconds < 60)%Q
    /\ dms_nonneg (degrees, minutes, seconds).
Proof.
  intros Fx.
  destruct (decimal_to_dms_steps x Fx)
    as (fd & fm & fs & E & (Ffd & Ffm & Ffs) & _ & Td & Tm & Ts & Bp & Bq).
  exists fd, fm, fs. split; [exact E |].
  split; [auto |].
  set (m := ticks ((abs x - fd) * 60) / 2 ^ 1074) in *.
  set (s := ticks ((((abs x - fd) * 60) - fm) * 60) / 2 ^ 1074) in *.
  assert (0 < 2 ^ 1074) as PU by reflexivity.
  assert (0 <= m < 60) as Hm.
  { unfold m. split; [apply Z.div_pos; lia | apply Z.div_lt_upper_bound; lia]. }
  assert (0 <= s < 60) as Hs.
  { unfold s. split; [apply Z.div_pos; lia | apply Z.div_lt_upper_bound; lia]. }
  change (Qfloor (Qabs (F2Q x))) with (Z.abs (ticks x) / Zpos unit_ticks).
  rewrite unit_ticks_Z.
  pose proof (F2Q_int fd _ Td) as Qd.
  pose proof (F2Q_int fm _ Tm) as Qm.
  pose proof (F2Q_int fs _ Ts) as Qs.
  assert (0 <= Z.abs (ticks x) / 2 ^ 1074) as Hd
    by (apply Z.div_pos; [lia | reflexivity]).
  assert (forall n, 0 <= n -> (0 <= inject_Z n)%Q) as P0
    by (intros n Hn; unfold Qle, inject_Z; cbn [Qnum Qden]; lia).
  assert (forall n, n < 60 -> (inject_Z n < 60)%Q) as P60
    by (intros n Hn; unfold Qlt, inject_Z; cbn [Qnum Qden]; lia).
  assert (ticks 0 = 0) as T0 by reflexivity.
  assert (ticks 60 = 60 * 2 ^ 1074) as T60 by reflexivity.
  split; [exact Qd |].
  split.
  { rewrite (leb_ticks 0 fd eq_refl Ffd), T0, Td. apply Z.leb_le. nia. }
  split.
  { split.
    - rewrite (leb_ticks 0 fm eq_refl Ffm), T0, Tm. apply Z.leb_le. nia.
    - rewrite (ltb_ticks fm 60 Ffm eq_refl), T60, Tm. apply Z.ltb_lt. nia. }
  split.
  { split.
    - rewrite (leb_ticks 0 fs eq_refl Ffs), T0, Ts. apply Z.leb_le. nia.
    - rewrite (ltb_ticks fs 60 Ffs eq_refl), T60, Ts. apply Z.ltb_lt. nia. }
  unfold dms_nonneg. rewrite Qd, Qm, Qs.
  repeat split; try apply P0; try apply P60; lia.
Qed.

Lemma decimal_to_dms_invariant_witness :
  is_finite (-33.5) = true
  /\ exists degrees minutes seconds,
       decimal_to_dms (-33.5) = Ok (degrees, minutes, seconds)
       /\ (is_finite degrees = true /\ is_finite minutes = true
           /\ is_finite seconds = true)
       /\ (F2Q degrees == inject_Z (Qfloor (Qabs (F2Q (-33.5)))))%Q
       /\ (0 <=? degrees)%float = true
       /\ ((0 <=? minutes)%float = true /\ (minutes <? 60)%float = true)
       /\ ((0 <=? seconds)%float = true /\ (seconds <? 60)%float = true)
       /\ (0 <= F2Q minutes)%Q /\ (F2Q minutes < 60)%Q
       /\ (0 <= F2Q seconds)%Q /\ (F2Q seconds < 60)%Q
       /\ dms_nonneg (degrees, minutes, seconds).
Proof.
  split; [reflexivity |].
  apply (decimal_to_dms_invariant (-33.5)). reflexivity.
Defined.

(** C4: the codec does not see the sign of its argument:
    [decimal_to_dms(-x)] and [decimal_to_dms(x)] are the same result. *)
Theorem decimal_to_dms_sign_independent (x : float) :
  decimal_to_dms (- x) = decimal_to_dms x.
Proof.
  unfold decimal_to_dms. cbv zeta.
  assert (abs (- x) = abs x) as E.
  { apply Prim2SF_inj. rewrite !abs_spec, opp_spec.
    destruct (Prim2SF x); reflexivity. }
  rewrite E. reflexivity.
Qed.

(** C1, as amended: for every finite [x] the triple rebuilt as
    [degrees + minutes/60 + seconds/3600] is within
    [(1 + 2^-42) / 3600] of a degree of [|x|]. *)
Theorem dms_round_trip (x : float) :
  is_finite x = true ->
  exists dms,
    decimal_to_dms x = Ok dms
    /\ (Qabs (Qabs (F2Q x) - dms_to_decimal dms)
        <= (1 # 3600) * (1 + (1 # 2 ^ 42)))%Q.
Proof.
  intros Fx.
  destruct (decimal_to_dms_ticks x Fx)
    as (fd & fm & fs & m & s & E & Td & Tm & Ts & Hm & Hs & Hb).
  exists (fd, fm, fs). split; [exact E |].
  unfold dms_to_decimal.
  rewrite (F2Q_int fd _ Td), (F2Q_int fm _ Tm), (F2Q_int fs _ Ts).
  change (Qabs (F2Q x)) with (Z.abs (ticks x) # unit_ticks).
  set (t := Z.abs (ticks x)) in *.
  set (d := t / 2 ^ 1074) in *.
  pose proof (recon_Q t d m s) as R.
  set (n := 3600 * t - (3600 * d + 60 * m + s) * 2 ^ 1074) in *.
  set (X := ((t # unit_ticks)
             - (inject_Z d + inject_Z m / 60 + inject_Z s / 3600))%Q) in *.
  assert ((- (61 * 2 ^ 1026) # unit_ticks) <= (n # unit_ticks))%Q as L1
    by (apply Qle_ticks; lia).
  assert ((n # unit_ticks) <= (2 ^ 1074 + 61 * 2 ^ 1026 # unit_ticks))%Q as L2
    by (apply Qle_ticks; lia).
  assert ((- (61 * 2 ^ 1026) # unit_ticks) == - (61 # 2 ^ 48))%Q as C1
    by reflexivity.
  assert ((2 ^ 1074 + 61 * 2 ^ 1026 # unit_ticks) == 1 + (61 # 2 ^ 48))%Q as C2
    by reflexivity.
  rewrite C1, R in L1. rewrite C2, R in L2.
  apply Qabs_Qle_condition.
  change (2 ^ 48)%positive with 281474976710656%positive in *.
  change (2 ^ 42)%positive with 4398046511104%positive.
  split; lra.
Qed.

Lemma dms_round_trip_witness :
  is_finite 40.758896 = true
  /\ exists dms,
       decimal_to_dms 40.758896 = Ok dms
       /\ (Qabs (Qabs (F2Q 40.758896) - dms_to_decimal dms)
           <= (1 # 3600) * (1 + (1 # 2 ^ 42)))%Q.
Proof.
  split; [reflexivity |].
  apply (dms_round_trip 40.758896). reflexivity.
Defined.

(** C1 fails as stated: [decimal_to_dms(-0.9938888888888889)] is
    [(0.0, 59.0, 37.0)], which is neither within [1/3600] of the input nor
    within [1/3600] of its absolute value. *)
Lemma dms_round_trip_counterexample :
  is_finite (-0.9938888888888889) = true
  /\ decimal_to_dms (-0.9938888888888889) = Ok (0, 59, 37)%float
  /\ ~ (Qabs (F2Q (-0.9938888888888889) - dms_to_decimal (0, 59, 37)%float)
        <= 1 # 3600)%Q
  /\ ~ (Qabs (Qabs (F2Q (-0.9938888888888889))
              - dms_to_decimal (0, 59, 37)%float)
        <= 1 # 3600)%Q.
Proof.
  split; [reflexivity |].
  split; [vm_compute; reflexivity |].
  split; intros H; apply Qle_bool_iff in H; vm_compute in H; discriminate.
Qed.

End CodecClaims.

(** * The sampler *)

Section FloatOrder.

Lemma SFcompare_swap (x y : spec_float) :
  SFcompare y x = option_map CompOpp (SFcompare x y).
Proof.
  destruct x as [sx | sx | | sx mx ex], y as [sy | sy | | sy my ey];
    try reflexivity;
    try (destruct sx; reflexivity); try (destruct sy; reflexivity);
    try (destruct sx, sy; reflexivity).
  cbn [SFcompare option_map]. f_equal.
  assert (Pos.compare_cont Eq my mx = CompOpp (Pos.compare_cont Eq mx my)) as E
    by (rewrite Pos.compare_cont_antisym; reflexivity).
  rewrite (Z.compare_antisym ex ey), E.
  destruct sx, sy; cbn [CompOpp]; try reflexivity;
    destruct (ex ?= ey); cbn [CompOpp]; try reflexivity;
    destruct (Pos.compare_cont Eq mx my); reflexivity.
Qed.

Lemma ltb_leb_false (a b : float) :
  (a <? b)%float = true -> (b <=? a)%float = false.
Proof.
  rewrite ltb_spec, leb_spec. unfold SFltb, SFleb.
  rewrite (SFcompare_swap (Prim2SF a) (Prim2SF b)).
  destruct (SFcompare (Prim2SF a) (Prim2SF b)) as [[| |] |];
    intros H; try discriminate; reflexivity.
Qed.

Lemma SFcompare_refl (x : spec_float) :
  x <> S754_nan -> SFcompare x x = Some Eq.
Proof.
  destruct x as [s | s | | s m e]; intros H; try congruence.
  - reflexivity.
  - destruct s; reflexivity.
  - cbn [SFcompare]. rewrite Z.compare_refl, Pos.compare_cont_refl.
    destruct s; reflexivity.
Qed.

Lemma ltb_leb_refl (a b : float) :
  (a <? b)%float = true -> (a <=? a)%float = true.
Proof.
  rewrite ltb_spec, leb_spec. unfold SFltb, SFleb. intros H.
  rewrite SFcompare_refl; [reflexivity |].
  intros E. rewrite E in H. discriminate.
Qed.

End FloatOrder.

Section Loops.

Lemma accumulate_range_mono (fuel fuel' : nat) (start stop step : float)
    (r : list float) :
  accumulate_range fuel start stop step = Some r -> (fuel <= fuel')%nat ->
  accumulate_range fuel' start stop step = Some r.
Proof.
  revert fuel' start r. induction fuel as [| fuel IH]; intros fuel' start r H Hle.
  - discriminate.
  - destruct fuel' as [| fuel']; [lia |].
    cbn [accumulate_range] in *.
    destruct (start <=? stop)%float; [| exact H].
    destruct (accumulate_range fuel (start + step) stop step) as [r' |] eqn:E;
      [| discriminate].
    rewrite (IH fuel' _ r' E ltac:(lia)). exact H.
Qed.

(** The inner loop appends one accumulated row of longitudes. *)
Lemma while_lon_rows (fuel : nat) (lat lon lon_max lon_step : float)
    (coordinates : list point) :
  while_lon fuel lat lon lon_max lon_step coordinates
  = option_map (fun lons => coordinates ++ map (pair lat) lons)
      (accumulate_range fuel lon lon_max lon_step).
Proof.
  revert lon coordinates. induction fuel as [| fuel IH]; intros lon coordinates.
  - reflexivity.
  - cbn [while_lon accumulate_range].
    destruct (lon <=? lon_max)%float.
    + rewrite IH.
      destruct (accumulate_range fuel (lon + lon_step) lon_max lon_step);
        cbn [option_map map]; [| reflexivity].
      rewrite <- app_assoc. reflexivity.
    + cbn [option_map map]. rewrite app_nil_r. reflexivity.
Qed.

Lemma row_major_cons (lat : float) (lats lons : list float) :
  row_major (lat :: lats) lons = map (pair lat) lons ++ row_major lats lons.
Proof. reflexivity. Qed.

Lemma while_lat_sound (fuel : nat)
    (lat lat_max lat_step lon_min lon_max lon_step : float)
    (coordinates l : list point) :
  while_lat fuel lat lat_max lat_step lon_min lon_max lon_step coordinates
  = Some l ->
  exists lats lons,
    accumulate_range fuel lat lat_max lat_step = Some lats
    /\ (lats <> [] -> accumulate_range fuel lon_min lon_max lon_step = Some lons)
    /\ l = coordinates ++ row_major lats lons.
Proof.
  revert lat coordinates l.
  induction fuel as [| fuel IH]; intros lat coordinates l H; [discriminate |].
  cbn [while_lat accumulate_range] in *.
  destruct (lat <=? lat_max)%float.
  - rewrite while_lon_rows in H.
    destruct (accumulate_range fuel lon_min lon_max lon_step) as [lons |] eqn:El;
      cbn [option_map] in H; [| discriminate].
    destruct (IH _ _ _ H) as (lats' & lons' & A1 & A2 & A3).
    exists (lat :: lats'), lons. rewrite A1. cbn [option_map].
    split; [reflexivity |].
    split.
    + intros _.
      exact (accumulate_range_mono fuel (S fuel) _ _ _ _ El ltac:(lia)).
    + rewrite A3, row_major_cons, <- app_assoc. f_equal. f_equal.
      destruct lats' as [| la lats']; [reflexivity |].
      specialize (A2 ltac:(discriminate)).
      congruence.
  - exists [], []. injection H as <-.
    split; [reflexivity |]. split; [congruence |].
    cbn. rewrite app_nil_r. reflexivity.
Qed.

Lemma while_lat_complete (f1 f2 : nat)
    (lat lat_max lat_step lon_min lon_max lon_step : float)
    (coordinates : list point) (lats lons : list float) :
  accumulate_range f1 lat lat_max lat_step = Some lats ->
  (lats <> [] -> accumulate_range f2 lon_min lon_max lon_step = Some lons) ->
  while_lat (f1 + f2) lat lat_max lat_step lon_min lon_max lon_step coordinates
  = Some (coordinates ++ row_major lats lons).
Proof.
  revert lat coordinates lats.
  induction f1 as [| f1 IH]; intros lat coordinates lats H1 H2; [discriminate |].
  cbn [accumulate_range Nat.add while_lat] in *.
  destruct (lat <=? lat_max)%float.
  - destruct (accumulate_range f1 (lat + lat_step) lat_max lat_step)
      as [lats' |] eqn:E; [| discriminate].
    injection H1 as <-.
    specialize (H2 ltac:(discriminate)).
    rewrite while_lon_rows.
    rewrite (accumulate_range_mono f2 (f1 + f2) _ _ _ _ H2) by lia.
    cbn [option_map].
    rewrite (IH _ _ lats' E (fun _ => H2)).
    rewrite row_major_cons, <- app_assoc. reflexivity.
  - injection H1 as <-. cbn. rewrite app_nil_r. reflexivity.
Qed.

Lemma accumulate_range_bounded (fuel : nat) (start stop step : float)
    (r : list float) :
  accumulate_range fuel start stop step = Some r ->
  forall v, In v r -> (v <=? stop)%float = true.
Proof.
  revert start r. induction fuel as [| fuel IH]; intros start r H v Hv;
    [discriminate |].
  cbn [accumulate_range] in H.
  destruct (start <=? stop)%float eqn:E.
  - destruct (accumulate_range fuel (start + step) stop step) as [r' |] eqn:E';
      [| discriminate].
    injection H as <-. destruct Hv as [<- | Hv]; [exact E |].
    exact (IH _ _ E' v Hv).
  - injection H as <-. destruct Hv.
Qed.

Lemma in_row_major (p : point) (lats lons : list float) :
  In p (row_major lats lons) <-> In (fst p) lats /\ In (snd p) lons.
Proof.
  unfold row_major. rewrite in_flat_map. split.
  - intros (lat & Hl & Hp). apply in_map_iff in Hp.
    destruct Hp as (lon & <- & Hlon). auto.
  - intros [Hl Hn]. exists (fst p). split; [exact Hl |].
    apply in_map_iff. exists (snd p). split; [destruct p; reflexivity | exact Hn].
Qed.

End Loops.

Section SamplerClaims.

Variable math_radians : float -> float.
Variable math_cos : float -> res float.

Lemma grid_steps_ok (lat_min step_km lat_step lon_step : float) :
  grid_steps math_radians math_cos lat_min step_km = Ok (lat_step, lon_step)
  <-> exists c,
        math_cos (math_radians lat_min) = Ok c
        /\ (km_per_degree * c =? 0)%float = false
        /\ lat_step = (step_km / km_per_degree)%float
        /\ lon_step = (step_km / (km_per_degree * c))%float.
Proof.
  unfold grid_steps, Py.div.
  change ((km_per_degree =? 0)%float) with false. cbn [bind].
  split.
  - destruct (math_cos (math_radians lat_min)) as [c | e]; cbn [bind];
      [| discriminate].
    destruct (km_per_degree * c =? 0)%float eqn:E; cbn [bind]; [discriminate |].
    intros H. injection H as <- <-. exists c. auto.
  - intros (c & Ec & Ez & -> & ->). rewrite Ec. cbn [bind]. rewrite Ez.
    reflexivity.
Qed.

(** C7: [generate_coordinates] returns [l] exactly when the two steps are
    [step_km / 111] and [step_km / (111 * cos(radians(lat_min)))], and [l]
    is the row-major product of the latitudes accumulated from [lat_min]
    with one longitude list, accumulated from [lon_min] with that single
    longitude step: every row holds the same longitudes. *)
Theorem generate_coordinates_row_major
    (lat_min lat_max lon_min lon_max step_km : float) (l : list point) :
  (exists fuel,
     generate_coordinates math_radians math_cos fuel
       lat_min lat_max lon_min lon_max step_km = Some (Ok l))
  <-> exists c lats lons,
        math_cos (math_radians lat_min) = Ok c
        /\ (km_per_degree * c =? 0)%float = false
        /\ (exists fuel,
              accumulate_range fuel lat_min lat_max
                (step_km / km_per_degree) = Some lats)
        /\ (lats <> [] ->
            exists fuel,
              accumulate_range fuel lon_min lon_max
                (step_km / (km_per_degree * c)) = Some lons)
        /\ l = row_major lats lons.
Proof.
  unfold generate_coordinates. split.
  - intros [fuel H].
    destruct (grid_steps math_radians math_cos lat_min step_km)
      as [[lat_step lon_step] | e] eqn:G; [| discriminate].
    apply grid_steps_ok in G. destruct G as (c & Ec & Ez & -> & ->).
    destruct (while_lat fuel lat_min lat_max (step_km / km_per_degree)
                lon_min lon_max (step_km / (km_per_degree * c)) [])
      as [l' |] eqn:W; [| discriminate].
    cbn [option_map] in H. injection H as <-.
    destruct (while_lat_sound _ _ _ _ _ _ _ _ _ W) as (lats & lons & A1 & A2 & A3).
    exists c, lats, lons. repeat split; eauto.
  - intros (c & lats & lons & Ec & Ez & [f1 H1] & H2 & ->).
    assert (grid_steps math_radians math_cos lat_min step_km
            = Ok ((step_km / km_per_degree)%float,
                  (step_km / (km_per_degree * c))%float)) as G
      by (apply grid_steps_ok; exists c; auto).
    rewrite G.
    destruct lats as [| lat lats].
    + exists f1.
      rewrite <- (Nat.add_0_r f1) at 1.
      rewrite (while_lat_complete f1 0 _ _ _ _ _ _ [] [] lons H1)
        by (intros C; congruence).
      reflexivity.
    + destruct (H2 ltac:(discriminate)) as [f2 H2'].
      exists (f1 + f2)%nat.
      rewrite (while_lat_complete f1 f2 _ _ _ _ _ _ [] _ lons H1 (fun _ => H2')).
      reflexivity.
Qed.

End SamplerClaims.

Section SamplerBounds.

Variable math_radians : float -> float.
Variable math_cos : float -> res float.

(** C8, as amended: every point that [generate_coordinates] returns has
    its latitude [<= lat_max] and its longitude [<= lon_max]; no row lies
    above [lat_max]. *)
Theorem generate_coordinates_within_bounds (fuel : nat)
    (lat_min lat_max lon_min lon_max step_km : float) (l : list point) :
  generate_coordinates math_radians math_cos fuel
    lat_min lat_max lon_min lon_max step_km = Some (Ok l) ->
  forall p, In p l ->
    (fst p <=? lat_max)%float = true /\ (snd p <=? lon_max)%float = true.
Proof.
  unfold generate_coordinates. intros H p Hp.
  destruct (grid_steps math_radians math_cos lat_min step_km)
    as [[lat_step lon_step] | e]; [| discriminate].
  destruct (while_lat fuel lat_min lat_max lat_step lon_min lon_max lon_step [])
    as [l' |] eqn:W; [| discriminate].
  cbn [option_map] in H. injection H as <-.
  destruct (while_lat_sound _ _ _ _ _ _ _ _ _ W) as (lats & lons & A1 & A2 & A3).
  cbn [app] in A3. subst l'. apply in_row_major in Hp. destruct Hp as [Hl Hn].
  split.
  - exact (accumulate_range_bounded _ _ _ _ _ A1 _ Hl).
  - assert (lats <> []) as Hne by (intros ->; destruct Hl).
    exact (accumulate_range_bounded _ _ _ _ _ (A2 Hne) _ Hn).
Qed.

(** C6, as amended: on a box reduced to one corner whose steps are not
    absorbed by rounding there ([lat + lat_step > lat] and
    [lon + lon_step > lon]), [generate_coordinates] returns exactly that
    corner. *)
Theorem generate_coordinates_degenerate (fuel : nat)
    (lat lon step_km lat_step lon_step : float) :
  grid_steps math_radians math_cos lat step_km = Ok (lat_step, lon_step) ->
  (lat <? lat + lat_step)%float = true ->
  (lon <? lon + lon_step)%float = true ->
  (3 <= fuel)%nat ->
  generate_coordinates math_radians math_cos fuel lat lat lon lon step_km
  = Some (Ok [(lat, lon)]).
Proof.
  intros G Hlat Hlon Hf.
  destruct fuel as [| [| [| fuel]]]; try lia.
  unfold generate_coordinates. rewrite G.
  cbn [while_lat while_lon].
  rewrite (ltb_leb_refl _ _ Hlat), (ltb_leb_refl _ _ Hlon).
  rewrite (ltb_leb_false _ _ Hlon), (ltb_leb_false _ _ Hlat).
  reflexivity.
Qed.

End SamplerBounds.

(** C8 fails as stated: no input makes [generate_coordinates] return a
    point whose latitude exceeds [lat_max]. *)
Lemma no_row_above_lat_max :
  ~ exists (math_radians : float -> float) (math_cos : float -> res float)
      (fuel : nat) (lat_min lat_max lon_min lon_max step_km : float)
      (l : list point) (p : point),
      (lat_min <=? lat_max)%float = true
      /\ (lon_min <=? lon_max)%float = true
      /\ (0 <? step_km)%float = true
      /\ generate_coordinates math_radians math_cos fuel
           lat_min lat_max lon_min lon_max step_km = Some (Ok l)
      /\ In p l
      /\ (lat_max <? fst p)%float = true.
Proof.
  intros (mr & mc & fuel & lat_min & lat_max & lon_min & lon_max & step_km
          & l & p & _ & _ & _ & G & Hp & Habove).
  unfold generate_coordinates in G.
  destruct (grid_steps mr mc lat_min step_km) as [[lat_step lon_step] | e];
    [| discriminate].
  destruct (while_lat fuel lat_min lat_max lat_step lon_min lon_max lon_step [])
    as [l' |] eqn:W; [| discriminate].
  cbn [option_map] in G. injection G as <-.
  destruct (while_lat_sound _ _ _ _ _ _ _ _ _ W) as (lats & lons & A1 & _ & A3).
  cbn [app] in A3. subst l'. apply in_row_major in Hp. destruct Hp as [Hl _].
  pose proof (accumulate_range_bounded _ _ _ _ _ A1 _ Hl) as Hle.
  rewrite (ltb_leb_false _ _ Habove) in Hle. discriminate.
Qed.

Lemma generate_coordinates_within_bounds_witness :
  let l := [(0, -74); (0, -73.990990990990994); (0, -73.981981981981988);
            (0.0090090090090090089, -74);
            (0.0090090090090090089, -73.990990990990994);
            (0.0090090090090090089, -73.981981981981988);
            (0.018018018018018018, -74);
            (0.018018018018018018, -73.990990990990994);
            (0.018018018018018018, -73.981981981981988)]%float in
  generate_coordinates radians cos_equator 100 0 0.02 (-74) (-73.98) 1
  = Some (Ok l)
  /\ forall p, In p l ->
       (fst p <=? 0.02)%float = true /\ (snd p <=? -73.98)%float = true.
Proof.
  intros l. split; [vm_compute; reflexivity |].
  apply (generate_coordinates_within_bounds radians cos_equator 100
           0 0.02 (-74) (-73.98) 1 l).
  vm_compute. reflexivity.
Defined.

Lemma generate_coordinates_degenerate_witness :
  grid_steps radians cos_equator 0 1
  = Ok (0.0090090090090090089, 0.0090090090090090089)%float
  /\ (0 <? 0 + 0.0090090090090090089)%float = true
  /\ (-74 <? -74 + 0.0090090090090090089)%float = true
  /\ generate_coordinates radians cos_equator 3 0 0 (-74) (-74) 1
     = Some (Ok [(0, -74)%float]).
Proof.
  split; [reflexivity |]. split; [reflexivity |]. split; [reflexivity |].
  apply (generate_coordinates_degenerate radians cos_equator 3 0 (-74) 1
           0.0090090090090090089 0.0090090090090090089);
    reflexivity.
Defined.

(** C6 fails as stated: at the corner [(0, 100)] with [step_km = 2^-60]
    both steps are positive and finite, yet [100 + lon_step] is [100] again
    and the inner loop never ends. *)
Lemma degenerate_box_diverges :
  exists lat_step lon_step,
    grid_steps radians cos_equator 0 0x1p-60 = Ok (lat_step, lon_step)
    /\ (0 <? lat_step)%float = true /\ is_finite lat_step = true
    /\ (0 <? lon_step)%float = true /\ is_finite lon_step = true
    /\ forall fuel,
         generate_coordinates radians cos_equator fuel 0 0 100 100 0x1p-60
         = None.
Proof.
  exists (0x1p-60 / 111)%float, (0x1p-60 / 111)%float.
  split; [reflexivity |]. do 4 (split; [reflexivity |]).
  intros fuel. unfold generate_coordinates.
  change (grid_steps radians cos_equator 0 0x1p-60)
    with (@Ok (float * float) ((0x1p-60 / 111)%float, (0x1p-60 / 111)%float)).
  assert (forall k acc, while_lon k 0 100 100 (0x1p-60 / 111) acc = None) as Hrow.
  { induction k as [| k IH]; intros acc; [reflexivity |].
    cbn [while_lon].
    change ((100 <=? 100)%float) with true. cbn iota.
    change ((100 + 0x1p-60 / 111)%float) with 100%float.
    apply IH. }
  destruct fuel as [| fuel]; [reflexivity |].
  cbn [while_lat]. change ((0 <=? 0)%float) with true. cbn iota.
  rewrite Hrow. reflexivity.
Qed.

Section Finiteness.

Lemma ltb_add_finite (v s : float) :
  (v <? v + s)%float = true -> is_finite v = true.
Proof.
  rewrite ltb_spec, add_spec, is_finite_spec. unfold SF64add.
  destruct (Prim2SF v) as [sv | sv | | sv mv ev]; try reflexivity.
  - destruct (Prim2SF s) as [ss | ss | | ss ms es], sv; try destruct ss;
      cbn; intros H; discriminate.
  - cbn. intros H; discriminate.
Qed.

Lemma leb_between_finite (lo v hi : float) :
  is_finite lo = true -> is_finite hi = true ->
  (lo <=? v)%float = true -> (v <=? hi)%float = true -> is_finite v = true.
Proof.
  rewrite !leb_spec, !is_finite_spec.
  destruct (Prim2SF v) as [sv | sv | | sv mv ev]; try reflexivity;
    destruct (Prim2SF lo) as [sl | sl | | sl ml el]; try discriminate;
    destruct (Prim2SF hi) as [sh | sh | | sh mh eh]; try discriminate;
    intros _ _; try (destruct sv; cbn; intros H1 H2; discriminate);
    try (destruct sv, sl; cbn; intros H1 H2; discriminate);
    try (destruct sv, sh; cbn; intros H1 H2; discriminate);
    try (destruct sv, sl, sh; cbn; intros H1 H2; discriminate);
    cbn; intros H1 H2; discriminate.
Qed.

(** A value above a finite one that is not finite is above every finite
    bound. *)
Lemma ltb_nonfinite_above (v x stop : float) :
  is_finite v = true -> is_finite stop = true -> is_finite x = false ->
  (v <? x)%float = true -> (x <=? stop)%float = false.
Proof.
  rewrite ltb_spec, leb_spec, !is_finite_spec.
  destruct (Prim2SF x) as [sx | sx | | sx mx ex]; try discriminate;
    destruct (Prim2SF v) as [sv | sv | | sv mv ev]; try discriminate;
    destruct (Prim2SF stop) as [ss | ss | | ss ms es]; try discriminate;
    intros _ _ _; try reflexivity;
    destruct sx; try destruct sv; cbn; intros H; try discriminate; reflexivity.
Qed.

Lemma leb_refl_l (a b : float) : (a <=? b)%float = true -> (a <=? a)%float = true.
Proof.
  rewrite !leb_spec. unfold SFleb. intros H.
  rewrite SFcompare_refl; [reflexivity |].
  intros E. rewrite E in H. discriminate.
Qed.

Lemma leb_refl_r (a b : float) : (a <=? b)%float = true -> (b <=? b)%float = true.
Proof.
  rewrite !leb_spec. unfold SFleb. intros H.
  rewrite SFcompare_refl; [reflexivity |].
  intros E. rewrite E in H. destruct (Prim2SF a); discriminate.
Qed.

End Finiteness.

Section Termination.

(** One rounded addition, when the exact sum stays below [2^(53+k)]
    ticks: the result is finite and within [2^(k-1)] ticks of the sum. *)
Lemma add_error (v s : float) (k : Z) :
  is_finite v = true -> is_finite s = true ->
  1 <= k <= 2044 ->
  Z.abs (ticks v + ticks s) < 2 ^ (53 + k) ->
  is_finite (v + s) = true
  /\ Z.abs (ticks (v + s) - (ticks v + ticks s)) <= 2 ^ (k - 1).
Proof.
  intros Fv Fs Hk Hb.
  set (t := ticks v + ticks s) in *.
  assert (drop_bits t <= k) as Hd by (apply drop_bits_le; lia).
  pose proof (drop_bits_nonneg t) as Hd0.
  destruct (rnd_ticks_error t) as [He _].
  assert (2 ^ drop_bits t <= 2 ^ k) as Hp by (apply Z.pow_le_mono_r; lia).
  pose proof (pow2_split k ltac:(lia)) as Ek.
  assert (0 < 2 ^ (k - 1)) as Pk by (apply pow2_pos; lia).
  assert (2 ^ (53 + k) <= 2 ^ 2097) as Hbig by (apply Z.pow_le_mono_r; lia).
  assert (2 ^ k <= 2 ^ 2044) as Hbig' by (apply Z.pow_le_mono_r; lia).
  assert (2 ^ 2097 + 2 ^ 2044 < 2 ^ 2098) as Hbig'' by reflexivity.
  destruct (add_ticks v s Fv Fs) as [F1 F2]; fold t.
  - lia.
  - fold t in F2. rewrite F2. split; [exact F1 | lia].
Qed.

(** A step above half a unit in the last place is never absorbed. *)
Lemma no_absorption (lo hi step : float) (k : Z) :
  is_finite lo = true -> is_finite hi = true -> is_finite step = true ->
  1 <= k <= 2044 ->
  - 2 ^ (53 + k) < ticks lo + ticks step ->
  ticks hi + ticks step < 2 ^ (53 + k) ->
  2 ^ (k - 1) < ticks step ->
  forall v, (lo <=? v)%float = true -> (v <=? hi)%float = true ->
            (v <? v + step)%float = true.
Proof.
  intros Flo Fhi Fs Hk Hl Hh Hs v Hlv Hvh.
  pose proof (leb_between_finite lo v hi Flo Fhi Hlv Hvh) as Fv.
  rewrite (leb_ticks lo v Flo Fv) in Hlv. rewrite (leb_ticks v hi Fv Fhi) in Hvh.
  apply Z.leb_le in Hlv, Hvh.
  destruct (add_error v step k Fv Fs Hk) as [Fa Ea]; [lia |].
  rewrite (ltb_ticks v (v + step) Fv Fa). apply Z.ltb_lt. lia.
Qed.

Lemma accumulate_range_terminates (start stop step : float) :
  (forall v, (start <=? v)%float = true -> (v <=? stop)%float = true ->
             (v <? v + step)%float = true) ->
  exists fuel r, accumulate_range fuel start stop step = Some r.
Proof.
  intros Hstep.
  destruct (start <=? stop)%float eqn:Hss.
  2:{ exists 1%nat, []. cbn. rewrite Hss. reflexivity. }
  assert (is_finite start = true) as Fstart.
  { apply (ltb_add_finite start step), Hstep; [| exact Hss].
    exact (leb_refl_l _ _ Hss). }
  assert (is_finite stop = true) as Fstop.
  { apply (ltb_add_finite stop step), Hstep; [exact Hss |].
    exact (leb_refl_r _ _ Hss). }
  assert (forall n v,
            is_finite v = true -> ticks start <= ticks v ->
            ticks stop - ticks v < Z.of_nat n ->
            exists fuel r, accumulate_range fuel v stop step = Some r) as Hind.
  { induction n as [| n IH]; intros v Fv Hsv Hm.
    - exists 1%nat, []. cbn [accumulate_range].
      rewrite (leb_ticks v stop Fv Fstop).
      destruct (Z.leb_spec (ticks v) (ticks stop)); [lia | reflexivity].
    - destruct (v <=? stop)%float eqn:Hvs.
      2:{ exists 1%nat, []. cbn [accumulate_range]. rewrite Hvs. reflexivity. }
      assert ((v <? v + step)%float = true) as Hlt.
      { apply Hstep; [| exact Hvs].
        rewrite (leb_ticks start v Fstart Fv). apply Z.leb_le. exact Hsv. }
      destruct (is_finite (v + step)) eqn:Fn.
      + rewrite (ltb_ticks v (v + step) Fv Fn) in Hlt. apply Z.ltb_lt in Hlt.
        destruct (IH (v + step)%float Fn ltac:(lia) ltac:(lia)) as (fuel & r & E).
        exists (S fuel), (v :: r). cbn [accumulate_range].
        rewrite Hvs, E. reflexivity.
      + exists 2%nat, [v]. cbn [accumulate_range]. rewrite Hvs.
        rewrite (ltb_nonfinite_above v (v + step) stop Fv Fstop Fn Hlt).
        reflexivity. }
  apply (Hind (Z.to_nat (ticks stop - ticks start + 1)) start Fstart); lia.
Qed.

End Termination.

Section Emptiness.

Lemma accumulate_range_nil (fuel : nat) (start stop step : float)
    (r : list float) :
  accumulate_range fuel start stop step = Some r ->
  (r = [] <-> (start <=? stop)%float = false).
Proof.
  destruct fuel as [| fuel]; [discriminate |].
  cbn [accumulate_range]. destruct (start <=? stop)%float.
  - destruct (accumulate_range fuel (start + step) stop step);
      cbn [option_map]; intros H; [| discriminate].
    injection H as <-. split; intros C; discriminate.
  - intros H. injection H as <-. split; reflexivity.
Qed.

Lemma row_major_nil (lats lons : list float) :
  row_major lats lons = [] <-> lats = [] \/ lons = [].
Proof.
  split.
  - destruct lats as [| lat lats]; [auto |].
    destruct lons as [| lon lons]; [auto |].
    rewrite row_major_cons. cbn [map app]. discriminate.
  - intros [-> | ->]; [reflexivity |].
    induction lats as [| lat lats IH]; [reflexivity |].
    rewrite row_major_cons, IH. reflexivity.
Qed.

End Emptiness.

Section SamplerTermination.

Variable math_radians : float -> float.
Variable math_cos : float -> res float.

(** C10, as amended: when no step is absorbed by rounding inside the box
    ([v + lat_step > v] for every float [v] with
    [lat_min <= v <= lat_max], and likewise for the longitudes),
    [generate_coordinates] terminates and returns a list, which is empty
    exactly when [lat_min <= lat_max] is false or [lon_min <= lon_max] is
    false. *)
Theorem generate_coordinates_terminates
    (lat_min lat_max lon_min lon_max step_km lat_step lon_step : float) :
  grid_steps math_radians math_cos lat_min step_km = Ok (lat_step, lon_step) ->
  (forall v, (lat_min <=? v)%float = true -> (v <=? lat_max)%float = true ->
             (v <? v + lat_step)%float = true) ->
  (forall w, (lon_min <=? w)%float = true -> (w <=? lon_max)%float = true ->
             (w <? w + lon_step)%float = true) ->
  exists fuel l,
    generate_coordinates math_radians math_cos fuel
      lat_min lat_max lon_min lon_max step_km = Some (Ok l)
    /\ (l = [] <-> (lat_min <=? lat_max)%float = false
                   \/ (lon_min <=? lon_max)%float = false).
Proof.
  intros G Hlat Hlon.
  destruct (accumulate_range_terminates lat_min lat_max lat_step Hlat)
    as (f1 & lats & E1).
  destruct (accumulate_range_terminates lon_min lon_max lon_step Hlon)
    as (f2 & lons & E2).
  exists (f1 + f2)%nat, (row_major lats lons). split.
  - unfold generate_coordinates. rewrite G.
    rewrite (while_lat_complete f1 f2 _ _ _ _ _ _ [] lats lons E1 (fun _ => E2)).
    reflexivity.
  - rewrite row_major_nil.
    rewrite (accumulate_range_nil _ _ _ _ _ E1), (accumulate_range_nil _ _ _ _ _ E2).
    reflexivity.
Qed.

End SamplerTermination.

Lemma generate_coordinates_terminates_witness :
  grid_steps radians cos_equator 0 1
  = Ok (0.0090090090090090089, 0.0090090090090090089)%float
  /\ exists fuel l,
       generate_coordinates radians cos_equator fuel 0 0.02 (-74) (-73.98) 1
       = Some (Ok l)
       /\ (l = [] <-> (0 <=? 0.02)%float = false
                      \/ (-74 <=? -73.98)%float = false).
Proof.
  split; [reflexivity |].
  apply (generate_coordinates_terminates radians cos_equator
           0 0.02 (-74) (-73.98) 1
           0.0090090090090090089 0.0090090090090090089).
  - reflexivity.
  - apply (no_absorption 0 0.02 0.0090090090090090089 1017);
      try reflexivity; try lia; vm_compute; reflexivity.
  - apply (no_absorption (-74) (-73.98) 0.0090090090090090089 1028);
      try reflexivity; try lia; vm_compute; reflexivity.
Defined.

(** C10 fails as stated.  On the box [0..1] by [100..101] with
    [step_km = 2^-60] both steps are positive, yet the first longitude never
    moves and the call does not return; and with [lat_max = nan] the list is
    empty although neither [lat_min > lat_max] nor [lon_min > lon_max]. *)
Lemma generate_coordinates_termination_counterexample :
  (exists lat_step lon_step,
     grid_steps radians cos_equator 0 0x1p-60 = Ok (lat_step, lon_step)
     /\ (0 <? lat_step)%float = true /\ (0 <? lon_step)%float = true
     /\ forall fuel,
          generate_coordinates radians cos_equator fuel 0 1 100 101 0x1p-60
          = None)
  /\ (exists lat_step lon_step,
        grid_steps radians cos_equator 0 1 = Ok (lat_step, lon_step)
        /\ (0 <? lat_step)%float = true /\ (0 <? lon_step)%float = true
        /\ generate_coordinates radians cos_equator 1 0 nan 0 1 1 = Some (Ok [])
        /\ (nan <? 0)%float = false /\ (1 <? 0)%float = false).
Proof.
  split.
  - exists (0x1p-60 / 111)%float, (0x1p-60 / 111)%float.
    split; [reflexivity |]. do 2 (split; [reflexivity |]).
    intros fuel. unfold generate_coordinates.
    change (grid_steps radians cos_equator 0 0x1p-60)
      with (@Ok (float * float) ((0x1p-60 / 111)%float, (0x1p-60 / 111)%float)).
    assert (forall k acc, while_lon k 0 100 101 (0x1p-60 / 111) acc = None) as Hrow.
    { induction k as [| k IH]; intros acc; [reflexivity |].
      cbn [while_lon].
      change ((100 <=? 101)%float) with true. cbn iota.
      change ((100 + 0x1p-60 / 111)%float) with 100%float.
      apply IH. }
    destruct fuel as [| fuel]; [reflexivity |].
    cbn [while_lat]. change ((0 <=? 1)%float) with true. cbn iota.
    rewrite Hrow. reflexivity.
  - exists (1 / 111)%float, (1 / 111)%float.
    repeat split; reflexivity.
Qed.

(** * The emitter *)

Section Emitter.

Lemma decimal_to_dms_nonneg (x : float) :
  is_finite x = true ->
  exists dms, decimal_to_dms x = Ok dms /\ dms_nonneg dms.
Proof.
  intros Fx.
  destruct (decimal_to_dms_ticks x Fx)
    as (fd & fm & fs & m & s & E & Td & Tm & Ts & Hm & Hs & _).
  exists (fd, fm, fs). split; [exact E |].
  assert (0 <= Z.abs (ticks x) / 2 ^ 1074) as Hd
    by (apply Z.div_pos; [lia | reflexivity]).
  assert (forall f n, ticks f = n * 2 ^ 1074 -> 0 <= n -> (0 <= F2Q f)%Q) as P.
  { intros f n Hf Hn. rewrite (F2Q_int f n Hf).
    unfold Qle, inject_Z. cbn [Qnum Qden]. lia. }
  unfold dms_nonneg. repeat split; eapply P; eauto; lia.
Qed.

Lemma ge_zero_Q (x : float) :
  is_finite x = true -> Py.ge x 0 = Qle_bool 0 (F2Q x).
Proof.
  intros Fx. unfold Py.ge.
  rewrite (leb_ticks 0 x ltac:(reflexivity) Fx).
  unfold Qle_bool, F2Q. cbn [Qnum Qden].
  change (ticks 0) with 0. rewrite Z.mul_1_r. reflexivity.
Qed.

(** C5: for every finite sample point the emitter stores both DMS triples,
    the latitude reference ['N'] if [lat >= 0] and ['S'] otherwise, and the
    longitude reference ['E'] if [lon >= 0] and ['W'] otherwise, all DMS
    components being non-negative; the point [(-33.5, 151.2)] gets ['S'] and
    ['E']. *)
Theorem create_image_hemispheres (lat lon : float) :
  is_finite lat = true -> is_finite lon = true ->
  (exists tags,
     create_image lat lon = Ok tags
     /\ decimal_to_dms lat = Ok (gps_latitude tags)
     /\ gps_latitude_ref tags
        = (if Qle_bool 0 (F2Q lat) then "N" else "S")%string
     /\ decimal_to_dms lon = Ok (gps_longitude tags)
     /\ gps_longitude_ref tags
        = (if Qle_bool 0 (F2Q lon) then "E" else "W")%string
     /\ dms_nonneg (gps_latitude tags) /\ dms_nonneg (gps_longitude tags))
  /\ create_image (-33.5) 151.2
     = Ok {| gps_latitude := (33, 30, 0)%float;
             gps_latitude_ref := "S";
             gps_longitude := (151, 11, 59)%float;
             gps_longitude_ref := "E" |}.
Proof.
  intros Flat Flon. split; [| vm_compute; reflexivity].
  destruct (decimal_to_dms_nonneg lat Flat) as (la & Ela & Nla).
  destruct (decimal_to_dms_nonneg lon Flon) as (lo & Elo & Nlo).
  unfold create_image. rewrite Ela, Elo. cbn [bind].
  rewrite (ge_zero_Q lat Flat), (ge_zero_Q lon Flon).
  eexists. split; [reflexivity |]. cbn [gps_latitude gps_latitude_ref
    gps_longitude gps_longitude_ref]. auto 10.
Qed.

Lemma create_image_hemispheres_witness :
  is_finite 40.01 = true /\ is_finite (-73.99) = true
  /\ (exists tags,
        create_image 40.01 (-73.99) = Ok tags
        /\ decimal_to_dms 40.01 = Ok (gps_latitude tags)
        /\ gps_latitude_ref tags
           = (if Qle_bool 0 (F2Q 40.01) then "N" else "S")%string
        /\ decimal_to_dms (-73.99) = Ok (gps_longitude tags)
        /\ gps_longitude_ref tags
           = (if Qle_bool 0 (F2Q (-73.99)) then "E" else "W")%string
        /\ dms_nonneg (gps_latitude tags) /\ dms_nonneg (gps_longitude tags))
  /\ create_image (-33.5) 151.2
     = Ok {| gps_latitude := (33, 30, 0)%float;
             gps_latitude_ref := "S";
             gps_longitude := (151, 11, 59)%float;
             gps_longitude_ref := "E" |}.
Proof.
  split; [reflexivity |]. split; [reflexivity |].
  apply (create_image_hemispheres 40.01 (-73.99)); reflexivity.
Defined.

End Emitter.

(** * Counting latitude rows *)

Section Rows.




End Rows.

Section Drift.

Variables stop step : float.
Variables j lmin n : Z.

Hypothesis Fstop : is_finite stop = true.
Hypothesis Fstep : is_finite step = true.
Hypothesis Hj : 1 <= j <= 2044.
Hypothesis Hlo : - 2 ^ (53 + j) < lmin + ticks step.
Hypothesis Hhi : ticks stop + ticks step < 2 ^ (53 + j).
Hypothesis Hn : 0 <= n.
Hypothesis Hdiv : n * ticks step <= ticks stop - lmin < (n + 1) * ticks step.
Hypothesis Htol : (n + 2) * 2 ^ (j - 1) <= ticks step.


End Drift.

Section RowCount.





End RowCount.

Section SamplerRowCount.

Variable math_radians : float -> float.
Variable math_cos : float -> res float.


End SamplerRowCount.



(** * More on the codec *)

Section CodecErrors.

Lemma is_nan_spec (x : float) :
  is_nan x = match Prim2SF x with S754_nan => true | _ => false end.
Proof.
  unfold is_nan. rewrite eqb_spec. unfold SFeqb.
  destruct (Prim2SF x) as [s | s | | s m e] eqn:E; try reflexivity.
  - destruct s; reflexivity.
  - rewrite SFcompare_refl by discriminate. reflexivity.
Qed.

Lemma is_infinity_spec (x : float) :
  is_infinity x = match Prim2SF x with S754_infinity _ => true | _ => false end.
Proof.
  unfold is_infinity. rewrite eqb_spec, abs_spec.
  change (Prim2SF infinity) with (S754_infinity false).
  destruct (Prim2SF x) as [s | s | | s m e]; reflexivity.
Qed.

(** X1: [decimal_to_dms] raises [ValueError] on a NaN and [OverflowError]
    on an infinity, and returns a triple on every finite input. *)
Theorem decimal_to_dms_errors (x : float) :
  (is_nan x = true /\ decimal_to_dms x = Raise ValueError)
  \/ (is_infinity x = true /\ decimal_to_dms x = Raise OverflowError)
  \/ (is_finite x = true /\ exists dms, decimal_to_dms x = Ok dms).
Proof.
  destruct (is_finite x) eqn:F.
  - right. right. split; [reflexivity |].
    destruct (decimal_to_dms_ticks x F) as (fd & fm & fs & m & s & E & _).
    exists (fd, fm, fs). exact E.
  - rewrite is_finite_spec in F.
    rewrite is_nan_spec, is_infinity_spec.
    unfold decimal_to_dms, Py.int. cbv zeta. rewrite abs_spec.
    destruct (Prim2SF x) as [s | s | | s m e]; try discriminate.
    + right. left. split; reflexivity.
    + left. split; reflexivity.
Qed.

End CodecErrors.

(** * More on the sampler *)

Section ZeroStep.

Variable math_radians : float -> float.
Variable math_cos : float -> res float.

Lemma add_zero_leb (x y : float) : (x + 0 <=? y)%float = (x <=? y)%float.
Proof.
  rewrite !leb_spec, add_spec. change (Prim2SF 0) with (S754_zero false).
  destruct (Prim2SF x) as [s | s | | s m e]; try reflexivity.
  destruct s; reflexivity.
Qed.

Lemma while_lat_zero_step (fuel : nat)
    (lat lat_max lon_min lon_max lon_step : float) (coordinates : list point) :
  (lat <=? lat_max)%float = true ->
  while_lat fuel lat lat_max 0 lon_min lon_max lon_step coordinates = None.
Proof.
  revert lat coordinates.
  induction fuel as [| fuel IH]; intros lat coordinates H; [reflexivity |].
  cbn [while_lat]. rewrite H.
  destruct (while_lon fuel lat lon_min lon_max lon_step coordinates);
    [| reflexivity].
  apply IH. rewrite add_zero_leb. exact H.
Qed.

(** X2: with [step_km = 0] and [lat_min <= lat_max] the call of
    [generate_coordinates] never returns a list: the latitude does not
    move, whatever the fuel. *)
Theorem generate_coordinates_zero_step
    (lat_min lat_max lon_min lon_max : float) :
  (lat_min <=? lat_max)%float = true ->
  forall fuel l,
    generate_coordinates math_radians math_cos fuel
      lat_min lat_max lon_min lon_max 0 <> Some (Ok l).
Proof.
  intros H fuel l. unfold generate_coordinates.
  destruct (grid_steps math_radians math_cos lat_min 0)
    as [[lat_step lon_step] | e] eqn:G; [| discriminate].
  apply grid_steps_ok in G. destruct G as (c & _ & _ & -> & _).
  change ((0 / km_per_degree)%float) with 0%float.
  rewrite while_lat_zero_step by exact H. discriminate.
Qed.

End ZeroStep.

Lemma generate_coordinates_zero_step_witness :
  (0 <=? 0.02)%float = true
  /\ forall fuel l,
       generate_coordinates radians cos_equator fuel 0 0.02 (-74) (-73.98) 0
       <> Some (Ok l).
Proof.
  split; [reflexivity |].
  apply (generate_coordinates_zero_step radians cos_equator 0 0.02 (-74) (-73.98)).
  reflexivity.
Defined.

Section SamplerShape.

Lemma increasing_NoDup (l : list float) : increasing l -> NoDup l.
Proof.
  intros [_ Hs]. induction Hs as [| a l Hs IH Ha]; constructor; [| exact IH].
  intros Hin. rewrite Forall_forall in Ha. specialize (Ha a Hin). lia.
Qed.

Lemma NoDup_row_major (lats lons : list float) :
  NoDup lats -> NoDup lons -> NoDup (row_major lats lons).
Proof.
  intros Hlats Hlons. induction Hlats as [| a lats Ha Hlats IH].
  - constructor.
  - rewrite row_major_cons. apply NoDup_app.
    + apply NoDup_map_NoDup_ForallPairs; [| exact Hlons].
      intros x y _ _ E. injection E as E. exact E.
    + exact IH.
    + intros p Hp Hq. apply in_map_iff in Hp. destruct Hp as (lon & <- & _).
      apply in_row_major in Hq. cbn [fst] in Hq. exact (Ha (proj1 Hq)).
Qed.

Lemma accumulate_range_head (fuel : nat) (start stop step : float)
    (r : list float) :
  accumulate_range fuel start stop step = Some r ->
  (start <=? stop)%float = true ->
  exists r', r = start :: r'.
Proof.
  intros H Hss. destruct fuel as [| fuel]; [discriminate |].
  cbn [accumulate_range] in H. rewrite Hss in H.
  destruct (accumulate_range fuel (start + step) stop step) as [r' |];
    [| discriminate].
  exists r'. injection H as <-. reflexivity.
Qed.

End SamplerShape.

(** * The command line *)

Section Splitting.

Variable sep : ascii.

Lemma split_on_nonempty (s : string) : split_on sep s <> [].
Proof.
  destruct s as [| c r]; cbn [split_on]; [discriminate |].
  destruct (Ascii.eqb c sep); [discriminate |].
  destruct (split_on sep r); discriminate.
Qed.

Lemma split_on_field (f : string) :
  has_char sep f = false -> split_on sep f = [f].
Proof.
  induction f as [| c f IH]; intros H; [reflexivity |].
  cbn [has_char] in H. apply orb_false_elim in H. destruct H as [Hc Hf].
  cbn [split_on]. rewrite Hc, (IH Hf). reflexivity.
Qed.

Lemma split_on_app (f r : string) :
  has_char sep f = false ->
  split_on sep (f ++ String sep r) = f :: split_on sep r.
Proof.
  induction f as [| c f IH]; intros H.
  - cbn [append split_on]. rewrite Ascii.eqb_refl. reflexivity.
  - cbn [has_char] in H. apply orb_false_elim in H. destruct H as [Hc Hf].
    cbn [append split_on]. rewrite Hc, (IH Hf). reflexivity.
Qed.

Lemma split_on_cons (s f : string) (t : list string) :
  split_on sep s = f :: t ->
  has_char sep f = false
  /\ match t with
     | [] => s = f
     | _ => exists r, s = (f ++ String sep r)%string /\ split_on sep r = t
     end.
Proof.
  revert f t. induction s as [| c r IH]; intros f t H.
  - injection H as <- <-. split; reflexivity.
  - cbn [split_on] in H. destruct (Ascii.eqb c sep) eqn:Hc.
    + apply Ascii.eqb_eq in Hc. subst c. injection H as <- <-.
      split; [reflexivity |].
      destruct (split_on sep r) eqn:E; [exact (False_ind _ (split_on_nonempty r E)) |].
      exists r. split; [reflexivity | exact E].
    + destruct (split_on sep r) as [| h t'] eqn:E;
        [exact (False_ind _ (split_on_nonempty r E)) |].
      injection H as <- <-.
      destruct (IH h t' eq_refl) as [Hh Ht].
      split; [cbn [has_char]; rewrite Hc, Hh; reflexivity |].
      destruct t' as [| g t''].
      * rewrite Ht. reflexivity.
      * destruct Ht as (r' & -> & Hr'). exists r'. split; [reflexivity | exact Hr'].
Qed.

End Splitting.

Section CommandLineProofs.

Variable float_of_string : string -> res float.

(** X4: [parse_bounding_box] returns four numbers exactly when the text
    is four comma-free fields joined by three commas and [float] accepts
    each field; the numbers are the fields' values, in order. *)
Theorem parse_bounding_box_ok (box : string) (a b c d : float) :
  parse_bounding_box float_of_string box = Ok (a, b, c, d)
  <-> exists f1 f2 f3 f4,
        box = (f1 ++ "," ++ f2 ++ "," ++ f3 ++ "," ++ f4)%string
        /\ has_char "," f1 = false /\ has_char "," f2 = false
        /\ has_char "," f3 = false /\ has_char "," f4 = false
        /\ float_of_string f1 = Ok a /\ float_of_string f2 = Ok b
        /\ float_of_string f3 = Ok c /\ float_of_string f4 = Ok d.
Proof.
  unfold parse_bounding_box. split.
  - destruct (split_on "," box) as [| f1 [| f2 [| f3 [| f4 r4]]]] eqn:E;
      try discriminate;
      try (destruct (float_of_string f1); cbn [bind]; discriminate);
      try (destruct (float_of_string f1); cbn [bind]; [| discriminate];
           destruct (float_of_string f2); cbn [bind]; discriminate);
      try (destruct (float_of_string f1); cbn [bind]; [| discriminate];
           destruct (float_of_string f2); cbn [bind]; [| discriminate];
           destruct (float_of_string f3); cbn [bind]; discriminate).
    destruct (float_of_string f1) as [a' |] eqn:E1; cbn [bind]; [| discriminate].
    destruct (float_of_string f2) as [b' |] eqn:E2; cbn [bind]; [| discriminate].
    destruct (float_of_string f3) as [c' |] eqn:E3; cbn [bind]; [| discriminate].
    destruct (float_of_string f4) as [d' |] eqn:E4; cbn [bind]; [| discriminate].
    destruct r4 as [| f5 r5];
      [| destruct (float_of_string f5); cbn [bind]; discriminate].
    intros H. injection H as -> -> -> ->.
    destruct (split_on_cons _ _ _ _ E) as [N1 (r1 & -> & S1)].
    destruct (split_on_cons _ _ _ _ S1) as [N2 (r2 & -> & S2)].
    destruct (split_on_cons _ _ _ _ S2) as [N3 (r3 & -> & S3)].
    destruct (split_on_cons _ _ _ _ S3) as [N4 ->].
    exists f1, f2, f3, f4. repeat split; assumption.
  - intros (f1 & f2 & f3 & f4 & -> & N1 & N2 & N3 & N4 & E1 & E2 & E3 & E4).
    change ("," ++ f2 ++ "," ++ f3 ++ "," ++ f4)%string
      with (String "," (f2 ++ String "," (f3 ++ String "," f4))).
    rewrite !split_on_app, split_on_field by assumption.
    rewrite E1, E2, E3, E4. reflexivity.
Qed.

End CommandLineProofs.

(** * Formatting and file names *)

Section Strings.

Lemma has_char_app (c : ascii) (a b : string) :
  has_char c (a ++ b) = (has_char c a || has_char c b)%bool.
Proof.
  induction a as [| d a IH]; [reflexivity |].
  cbn [append has_char]. rewrite IH. apply orb_assoc.
Qed.

Lemma app_sep_inj (c : ascii) (a a' r r' : string) :
  has_char c a = false -> has_char c a' = false ->
  (a ++ String c r)%string = (a' ++ String c r')%string ->
  a = a' /\ r = r'.
Proof.
  revert a'. induction a as [| d a IH]; intros a' Ha Ha' E.
  - destruct a' as [| d' a']; cbn [append] in E.
    + injection E as <-. split; reflexivity.
    + injection E as <- _. cbn [has_char] in Ha'.
      rewrite Ascii.eqb_refl in Ha'. discriminate.
  - cbn [has_char] in Ha. apply orb_false_elim in Ha. destruct Ha as [Hd Ha].
    destruct a' as [| d' a']; cbn [append] in E.
    + injection E as -> _. rewrite Ascii.eqb_refl in Hd. discriminate.
    + injection E as <- E. cbn [has_char] in Ha'.
      apply orb_false_elim in Ha'. destruct Ha' as [_ Ha'].
      destruct (IH a' Ha Ha' E) as [-> ->]. split; reflexivity.
Qed.

Lemma string_length_app (a b : string) :
  String.length (a ++ b) = (String.length a + String.length b)%nat.
Proof.
  induction a as [| c a IH]; [reflexivity |].
  cbn [append String.length]. rewrite IH. reflexivity.
Qed.

Lemma string_app_inv_tail (a a' b : string) :
  (a ++ b)%string = (a' ++ b)%string -> a = a'.
Proof.
  revert a'. induction a as [| c a IH]; intros a' E.
  - destruct a' as [| c' a']; [reflexivity |].
    apply (f_equal String.length) in E.
    rewrite !string_length_app in E. cbn [String.length] in E. lia.
  - destruct a' as [| c' a'].
    + apply (f_equal String.length) in E.
      rewrite !string_length_app in E. cbn [String.length] in E. lia.
    + cbn [append] in E. injection E as <- E. rewrite (IH a' E). reflexivity.
Qed.

Lemma string_app_inv_head (a b b' : string) :
  (a ++ b)%string = (a ++ b')%string -> b = b'.
Proof.
  induction a as [| c a IH]; intros E; [exact E |].
  cbn [append] in E. injection E as E. exact (IH E).
Qed.

Lemma string_app_assoc (a b c : string) :
  (a ++ b ++ c)%string = ((a ++ b) ++ c)%string.
Proof.
  induction a as [| d a IH]; [reflexivity |].
  cbn [append]. rewrite IH. reflexivity.
Qed.

Lemma all_digits_has_char (c : ascii) (s : string) :
  is_digit c = false -> all_digits s = true -> has_char c s = false.
Proof.
  intros Hc. induction s as [| d s IH]; intros H; [reflexivity |].
  cbn [all_digits] in H. apply andb_prop in H. destruct H as [Hd Hs].
  cbn [has_char]. rewrite (IH Hs), orb_false_r.
  destruct (Ascii.eqb d c) eqn:E; [| reflexivity].
  apply Ascii.eqb_eq in E. subst d. congruence.
Qed.

Lemma digit_is_digit (d : Z) : 0 <= d < 10 -> is_digit (digit d) = true.
Proof.
  intros H. unfold is_digit, digit.
  rewrite nat_ascii_embedding by lia.
  apply andb_true_intro. split; apply Nat.leb_le; lia.
Qed.

Lemma digit_inj (d d' : Z) :
  0 <= d < 10 -> 0 <= d' < 10 -> digit d = digit d' -> d = d'.
Proof.
  intros H H' E. apply (f_equal nat_of_ascii) in E. unfold digit in E.
  rewrite !nat_ascii_embedding in E by lia. lia.
Qed.

Lemma decimal_digits_all (n : Z) : all_digits (decimal_digits n) = true.
Proof.
  unfold decimal_digits.
  induction (N.to_uint (Z.to_N n)) as [| u IH | u IH | u IH | u IH | u IH
                                       | u IH | u IH | u IH | u IH | u IH];
    [reflexivity | exact IH ..].
Qed.

Lemma decimal_digits_inj (n n' : Z) :
  0 <= n -> 0 <= n' -> decimal_digits n = decimal_digits n' -> n = n'.
Proof.
  intros H H' E. unfold decimal_digits in E.
  apply (f_equal DecimalString.NilEmpty.uint_of_string) in E.
  rewrite !DecimalString.NilEmpty.usu in E. injection E as E.
  apply DecimalN.Unsigned.to_uint_inj in E.
  apply Z2N.inj; assumption.
Qed.

Lemma six_digits_all (f : Z) : all_digits (six_digits f) = true.
Proof.
  unfold six_digits. cbn [all_digits].
  rewrite !digit_is_digit by (apply Z.mod_pos_bound; lia). reflexivity.
Qed.

Lemma six_digits_inj (f f' : Z) :
  0 <= f < 10 ^ 6 -> 0 <= f' < 10 ^ 6 -> six_digits f = six_digits f' -> f = f'.
Proof.
  intros H H' E. unfold six_digits in E.
  injection E as E5 E4 E3 E2 E1 E0.
  apply digit_inj in E5, E4, E3, E2, E1, E0;
    try (apply Z.mod_pos_bound; lia).
  change (10 ^ 6) with 1000000 in H, H'.
  clear - H H' E5 E4 E3 E2 E1 E0.
  Z.div_mod_to_equations. lia.
Qed.

End Strings.

Section FileNames.

Lemma millionths_nonneg (x : float) : 0 <= millionths x.
Proof.
  unfold millionths.
  pose proof (rne_shr_bounds (Z.abs (ticks x) * 10 ^ 6) 1074 ltac:(lia)) as [L _].
  assert (0 <= Z.abs (ticks x) * 10 ^ 6 / 2 ^ 1074)
    by (apply Z.div_pos; [lia | reflexivity]).
  lia.
Qed.

Lemma format_6f_finite (x : float) :
  is_finite x = true ->
  format_6f x
  = ((if sign_bit x then "-" else "")
     ++ decimal_digits (millionths x / 10 ^ 6) ++ "."
     ++ six_digits (millionths x mod 10 ^ 6))%string.
Proof.
  intros F. rewrite is_finite_spec in F. unfold format_6f.
  destruct (Prim2SF x); try discriminate; reflexivity.
Qed.

Lemma format_6f_no_underscore (x : float) : has_char "_" (format_6f x) = false.
Proof.
  unfold format_6f.
  assert (has_char "_"
            ((if sign_bit x then "-" else "")
             ++ decimal_digits (millionths x / 10 ^ 6) ++ "."
             ++ six_digits (millionths x mod 10 ^ 6)) = false) as H.
  { rewrite !has_char_app.
    rewrite (all_digits_has_char "_" _ eq_refl (decimal_digits_all _)).
    rewrite (all_digits_has_char "_" _ eq_refl (six_digits_all _)).
    destruct (sign_bit x); reflexivity. }
  destruct (Prim2SF x) as [s | s | | s m e]; try exact H.
  - destruct s; reflexivity.
  - reflexivity.
Qed.

Lemma format_6f_inj (x y : float) :
  is_finite x = true -> is_finite y = true ->
  format_6f x = format_6f y ->
  sign_bit x = sign_bit y /\ millionths x = millionths y.
Proof.
  intros Fx Fy E.
  rewrite (format_6f_finite x Fx), (format_6f_finite y Fy) in E.
  pose proof (millionths_nonneg x) as Px. pose proof (millionths_nonneg y) as Py.
  set (Mx := millionths x) in *. set (My := millionths y) in *.
  assert (0 <= Mx / 10 ^ 6) as Ix by (apply Z.div_pos; lia).
  assert (0 <= My / 10 ^ 6) as Iy by (apply Z.div_pos; lia).
  assert (0 <= Mx mod 10 ^ 6 < 10 ^ 6) as Rx by (apply Z.mod_pos_bound; lia).
  assert (0 <= My mod 10 ^ 6 < 10 ^ 6) as Ry by (apply Z.mod_pos_bound; lia).
  pose proof (decimal_digits_all (Mx / 10 ^ 6)) as Dx.
  pose proof (decimal_digits_all (My / 10 ^ 6)) as Dy.
  assert (forall n r r',
            all_digits (decimal_digits n) = true ->
            String "-" r <> (decimal_digits n ++ "." ++ r')%string) as Hminus.
  { intros n r r' Dn Hn. destruct (decimal_digits n) as [| c d];
      cbn [append] in Hn; [discriminate |].
    injection Hn as <- _. cbn [all_digits] in Dn. discriminate. }
  assert (sign_bit x = sign_bit y
          /\ (decimal_digits (Mx / 10 ^ 6) ++ "."
              ++ six_digits (Mx mod 10 ^ 6))%string
             = (decimal_digits (My / 10 ^ 6) ++ "."
                ++ six_digits (My mod 10 ^ 6))%string) as [Es E'].
  { destruct (sign_bit x), (sign_bit y); cbn [append] in E.
    - injection E as E. split; [reflexivity | exact E].
    - exfalso. exact (Hminus _ _ _ Dy E).
    - exfalso. symmetry in E. exact (Hminus _ _ _ Dx E).
    - split; [reflexivity | exact E]. }
  split; [exact Es |].
  cbn [append] in E'.
  apply app_sep_inj in E';
    try (apply all_digits_has_char; [reflexivity | assumption]).
  destruct E' as [Ed Ef].
  apply decimal_digits_inj in Ed; try assumption.
  apply six_digits_inj in Ef; try assumption.
  rewrite (Z.div_mod Mx (10 ^ 6)), (Z.div_mod My (10 ^ 6)) by lia.
  rewrite Ed, Ef. reflexivity.
Qed.

Lemma format_6f_eq (x y : float) :
  is_finite x = true -> is_finite y = true ->
  sign_bit x = sign_bit y -> millionths x = millionths y ->
  format_6f x = format_6f y.
Proof.
  intros Fx Fy Es Em.
  rewrite (format_6f_finite x Fx), (format_6f_finite y Fy), Es, Em.
  reflexivity.
Qed.

Lemma image_name_inj (lat lon lat' lon' : float) :
  image_name lat lon = image_name lat' lon' ->
  format_6f lat = format_6f lat' /\ format_6f lon = format_6f lon'.
Proof.
  unfold image_name. intros E.
  apply string_app_inv_head in E.
  change ("_" ++ format_6f lon ++ ".jpg")%string
    with (String "_" (format_6f lon ++ ".jpg")) in E.
  change ("_" ++ format_6f lon' ++ ".jpg")%string
    with (String "_" (format_6f lon' ++ ".jpg")) in E.
  apply app_sep_inj in E; try apply format_6f_no_underscore.
  destruct E as [E1 E2]. apply string_app_inv_tail in E2. split; assumption.
Qed.

Lemma image_path_prefix (output_dir : string) (lat lon : float) :
  image_path output_dir lat lon
  = (dir_prefix output_dir ++ image_name lat lon)%string.
Proof.
  unfold image_path, path_join, dir_prefix, image_name. cbn [append].
  destruct output_dir as [| c d]; [reflexivity |].
  destruct (ends_with_slash (String c d)); [reflexivity |].
  symmetry. exact (eq_sym (string_app_assoc (String c d) "/" _)).
Qed.

Lemma image_path_inj (output_dir : string) (lat lon lat' lon' : float) :
  image_path output_dir lat lon = image_path output_dir lat' lon' ->
  format_6f lat = format_6f lat' /\ format_6f lon = format_6f lon'.
Proof.
  rewrite !image_path_prefix. intros E.
  apply string_app_inv_head in E. exact (image_name_inj _ _ _ _ E).
Qed.

Lemma sign_bit_ticks (x : float) :
  if sign_bit x then ticks x <= 0 else 0 <= ticks x.
Proof.
  unfold sign_bit, ticks, SFticks.
  destruct (Prim2SF x) as [s | s | | s m e];
    try (destruct s; lia); lia.
Qed.

Lemma millionths_close (x y : float) :
  sign_bit x = sign_bit y -> millionths x = millionths y ->
  10 ^ 6 * Z.abs (ticks x - ticks y) <= 2 ^ 1074.
Proof.
  intros Es Em. unfold millionths in Em.
  pose proof (rne_shr_error (Z.abs (ticks x) * 10 ^ 6) 1074
                ltac:(lia) ltac:(lia)) as Bx.
  pose proof (rne_shr_error (Z.abs (ticks y) * 10 ^ 6) 1074
                ltac:(lia) ltac:(lia)) as By.
  rewrite Em in Bx.
  pose proof (sign_bit_ticks x) as Sx. pose proof (sign_bit_ticks y) as Sy.
  rewrite Es in Sx.
  set (R := rne_shr (Z.abs (ticks y) * 10 ^ 6) 1074 * 2 ^ 1074) in *.
  set (U := 2 ^ 1074) in *.
  change (10 ^ 6) with 1000000 in *.
  destruct (sign_bit y); lia.
Qed.

(** X5: two finite points are given the same file path exactly when
    their latitudes agree in sign bit and in value rounded to six decimals,
    and their longitudes do: such points overwrite each other's image. *)
Theorem image_path_collision (output_dir : string) (lat lon lat' lon' : float) :
  is_finite lat = true -> is_finite lon = true ->
  is_finite lat' = true -> is_finite lon' = true ->
  image_path output_dir lat lon = image_path output_dir lat' lon'
  <-> (sign_bit lat = sign_bit lat' /\ millionths lat = millionths lat')
      /\ (sign_bit lon = sign_bit lon' /\ millionths lon = millionths lon').
Proof.
  intros F1 F2 F3 F4. split.
  - intros E. apply image_path_inj in E. destruct E as [E1 E2].
    split; apply format_6f_inj; assumption.
  - intros [[S1 M1] [S2 M2]]. unfold image_path, image_name.
    rewrite (format_6f_eq lat lat' F1 F3 S1 M1).
    rewrite (format_6f_eq lon lon' F2 F4 S2 M2). reflexivity.
Qed.

Lemma Qabs_F2Q_far (x y : float) :
  (1 # 10 ^ 6 < Qabs (F2Q x - F2Q y))%Q ->
  2 ^ 1074 < 10 ^ 6 * Z.abs (ticks x - ticks y).
Proof.
  unfold F2Q, Qlt, Qabs, Qminus, Qplus, Qopp. cbn [Qnum Qden].
  rewrite Pos2Z.inj_mul. rewrite unit_ticks_Z.
  set (U := 2 ^ 1074). assert (0 < U) as PU by reflexivity.
  replace (ticks x * U + - ticks y * U) with ((ticks x - ticks y) * U) by ring.
  rewrite Z.abs_mul, (Z.abs_eq U) by lia.
  change (Z.pos (10 ^ 6)) with (10 ^ 6).
  set (D := Z.abs (ticks x - ticks y)). intros H.
  apply (Z.mul_lt_mono_pos_r U); [exact PU |]. lia.
Qed.

(** X6: two finite points whose latitudes, or whose longitudes, differ by
    more than one millionth of a degree never share a file path. *)
Theorem image_path_far_apart (output_dir : string) (lat lon lat' lon' : float) :
  is_finite lat = true -> is_finite lon = true ->
  is_finite lat' = true -> is_finite lon' = true ->
  (1 # 10 ^ 6 < Qabs (F2Q lat - F2Q lat'))%Q
  \/ (1 # 10 ^ 6 < Qabs (F2Q lon - F2Q lon'))%Q ->
  image_path output_dir lat lon <> image_path output_dir lat' lon'.
Proof.
  intros F1 F2 F3 F4 Hfar E.
  apply image_path_inj in E. destruct E as [E1 E2].
  apply format_6f_inj in E1, E2; try assumption.
  destruct E1 as [S1 M1]. destruct E2 as [S2 M2].
  pose proof (millionths_close lat lat' S1 M1).
  pose proof (millionths_close lon lon' S2 M2).
  destruct Hfar as [H' | H']; apply Qabs_F2Q_far in H'; lia.
Qed.

End FileNames.

Lemma image_path_collision_witness :
  (is_finite 40.0000001 = true /\ is_finite (-74) = true
   /\ is_finite 40.0000002 = true)
  /\ (image_path "geo_images" 40.0000001 (-74)
      = image_path "geo_images" 40.0000002 (-74)
      <-> (sign_bit 40.0000001 = sign_bit 40.0000002
           /\ millionths 40.0000001 = millionths 40.0000002)
          /\ (sign_bit (-74) = sign_bit (-74)
              /\ millionths (-74) = millionths (-74))).
Proof.
  split; [repeat split |].
  apply (image_path_collision "geo_images" 40.0000001 (-74) 40.0000002 (-74));
    reflexivity.
Defined.

Lemma image_path_far_apart_witness :
  (is_finite 40 = true /\ is_finite (-74) = true
   /\ is_finite 40.009009009009009 = true
   /\ (1 # 10 ^ 6 < Qabs (F2Q 40 - F2Q 40.009009009009009))%Q)
  /\ image_path "geo_images" 40 (-74)
     <> image_path "geo_images" 40.009009009009009 (-74).
Proof.
  split; [repeat split |].
  apply (image_path_far_apart "geo_images" 40 (-74) 40.009009009009009 (-74));
    try reflexivity.
  left. reflexivity.
Defined.

(** * Grid points are finite *)

Section FinitePoints.

Variable math_radians : float -> float.
Variable math_cos : float -> res float.

Lemma add_infinite_stuck (v step : float) :
  is_finite step = true -> is_finite v = false -> is_nan v = false ->
  (v + step)%float = v.
Proof.
  rewrite !is_finite_spec, is_nan_spec. intros Fs Fv Nv.
  apply Prim2SF_inj. rewrite add_spec.
  destruct (Prim2SF v) as [s | s | | s m e]; try discriminate.
  destruct (Prim2SF step) as [s' | s' | | s' m' e']; try discriminate;
    reflexivity.
Qed.

Lemma leb_not_nan (x y : float) : (x <=? y)%float = true -> is_nan x = false.
Proof.
  rewrite leb_spec, is_nan_spec.
  destruct (Prim2SF x); try reflexivity. discriminate.
Qed.

Lemma accumulate_range_stuck (fuel : nat) (v stop step : float) :
  (v <=? stop)%float = true -> (v + step)%float = v ->
  accumulate_range fuel v stop step = None.
Proof.
  intros H E. induction fuel as [| fuel IH]; [reflexivity |].
  cbn [accumulate_range]. rewrite H, E, IH. reflexivity.
Qed.

Lemma accumulate_range_finite (fuel : nat) (start stop step : float)
    (r : list float) :
  is_finite step = true ->
  accumulate_range fuel start stop step = Some r ->
  Forall (fun v => is_finite v = true) r.
Proof.
  intros Fs. revert start r.
  induction fuel as [| fuel IH]; intros start r H; [discriminate |].
  cbn [accumulate_range] in H.
  destruct (start <=? stop)%float eqn:E.
  2:{ injection H as <-. constructor. }
  destruct (is_finite start) eqn:F.
  - destruct (accumulate_range fuel (start + step) stop step) as [r' |] eqn:E';
      [| discriminate].
    injection H as <-. constructor; [exact F | exact (IH _ _ E')].
  - rewrite (add_infinite_stuck start step Fs F (leb_not_nan _ _ E)) in H.
    rewrite (accumulate_range_stuck fuel start stop step E) in H;
      [discriminate |].
    exact (add_infinite_stuck start step Fs F (leb_not_nan _ _ E)).
Qed.

Lemma generate_coordinates_points_finite
    (lat_min lat_max lon_min lon_max step_km lat_step lon_step : float)
    (fuel : nat) (l : list point) :
  grid_steps math_radians math_cos lat_min step_km = Ok (lat_step, lon_step) ->
  is_finite lat_step = true -> is_finite lon_step = true ->
  generate_coordinates math_radians math_cos fuel
    lat_min lat_max lon_min lon_max step_km = Some (Ok l) ->
  Forall (fun p => is_finite (fst p) = true /\ is_finite (snd p) = true) l.
Proof.
  intros G F1 F2 H. unfold generate_coordinates in H. rewrite G in H.
  destruct (while_lat fuel lat_min lat_max lat_step lon_min lon_max lon_step [])
    as [l' |] eqn:W; [| discriminate].
  injection H as ->.
  destruct (while_lat_sound _ _ _ _ _ _ _ _ _ W) as (lats & lons & E1 & E2 & ->).
  cbn [app]. apply Forall_forall. intros p Hp.
  apply in_row_major in Hp. destruct Hp as [Hp1 Hp2].
  assert (lats <> []) as Hne by (intros ->; destruct Hp1).
  pose proof (accumulate_range_finite _ _ _ _ _ F1 E1) as A1.
  pose proof (accumulate_range_finite _ _ _ _ _ F2 (E2 Hne)) as A2.
  rewrite Forall_forall in A1, A2. split; auto.
Qed.

(** X7: with finite steps, every point of a list that
    [generate_coordinates] returns is finite: on an infinite coordinate
    the loop would never leave it. *)
Theorem generate_coordinates_finite
    (lat_min lat_max lon_min lon_max step_km lat_step lon_step : float) :
  grid_steps math_radians math_cos lat_min step_km = Ok (lat_step, lon_step) ->
  is_finite lat_step = true -> is_finite lon_step = true ->
  forall fuel l,
    generate_coordinates math_radians math_cos fuel
      lat_min lat_max lon_min lon_max step_km = Some (Ok l) ->
    forall lat lon, In (lat, lon) l ->
      is_finite lat = true /\ is_finite lon = true.
Proof.
  intros G F1 F2 fuel l H lat lon Hp.
  pose proof (generate_coordinates_points_finite _ _ _ _ _ _ _ _ _ G F1 F2 H) as A.
  rewrite Forall_forall in A. exact (A (lat, lon) Hp).
Qed.

End FinitePoints.

Lemma generate_coordinates_finite_witness :
  (grid_steps radians cos_equator 0 1
   = Ok (0.0090090090090090089, 0.0090090090090090089)%float
   /\ is_finite 0.0090090090090090089 = true)
  /\ forall fuel l,
       generate_coordinates radians cos_equator fuel 0 0.02 (-74) (-73.98) 1
       = Some (Ok l) ->
       forall lat lon, In (lat, lon) l ->
         is_finite lat = true /\ is_finite lon = true.
Proof.
  split; [split; reflexivity |].
  apply (generate_coordinates_finite radians cos_equator 0 0.02 (-74) (-73.98) 1
           0.0090090090090090089 0.0090090090090090089); reflexivity.
Defined.

(** * The batch *)

Section BatchProofs.

Variable math_radians : float -> float.
Variable math_cos : float -> res float.

Lemma create_image_finite (lat lon : float) :
  is_finite lat = true -> is_finite lon = true ->
  exists tags, create_image lat lon = Ok tags.
Proof.
  intros F1 F2.
  destruct (decimal_to_dms_ticks lat F1) as (a1 & a2 & a3 & ? & ? & E1 & _).
  destruct (decimal_to_dms_ticks lon F2) as (b1 & b2 & b3 & ? & ? & E2 & _).
  unfold create_image. rewrite E1, E2. cbn [bind]. eexists. reflexivity.
Qed.

Lemma saved_app (t t' : list event) : saved (t ++ t') = saved t ++ saved t'.
Proof.
  induction t as [| e t IH]; [reflexivity |].
  destruct e; cbn [app saved]; rewrite IH; reflexivity.
Qed.

Lemma written_app (t t' : list event) :
  written (t ++ t') = written t ++ written t'.
Proof.
  induction t as [| e t IH]; [reflexivity |].
  destruct e; cbn [app written]; rewrite IH; reflexivity.
Qed.

(** The loop over finite points: every file is saved and then tagged, in
    order. *)
Lemma create_images_finite (font_found : bool) (output_dir : string)
    (coordinates : list point) :
  Forall (fun p => is_finite (fst p) = true /\ is_finite (snd p) = true)
    coordinates ->
  exists t,
    create_images font_found output_dir coordinates = (t, Ok tt)
    /\ saved t = map (fun p => image_path output_dir (fst p) (snd p)) coordinates
    /\ Forall2 (fun p w => fst w = image_path output_dir (fst p) (snd p)
                           /\ create_image (fst p) (snd p) = Ok (snd w))
         coordinates (written t).
Proof.
  induction 1 as [| [lat lon] rest [F1 F2] _ IH].
  - exists []. repeat split. constructor.
  - destruct IH as (t' & E' & S' & W').
    cbn [fst snd] in F1, F2.
    destruct (create_image_finite lat lon F1 F2) as (tags & Et).
    cbn [create_images]. unfold create_image_io. rewrite Et, E'.
    eexists. split; [reflexivity |].
    cbn [app saved written map fst snd]. rewrite S'. split; [reflexivity |].
    constructor; [split; [reflexivity | exact Et] | exact W'].
Qed.

(** X8: once [generate_images] gets its grid, with a finite longitude
    step, it cannot fail: every grid point is finite, so each image is
    saved and then given its GPS tags, in grid order. *)
Theorem generate_images_completes
    (lat_min lat_max lon_min lon_max lat_step lon_step : float) :
  grid_steps math_radians math_cos lat_min 1 = Ok (lat_step, lon_step) ->
  is_finite lon_step = true ->
  forall dir_exists font_found fuel output_dir t r,
    generate_images math_radians math_cos dir_exists font_found fuel
      lat_min lat_max lon_min lon_max output_dir = Some (t, r) ->
    r = Ok tt
    /\ exists coordinates,
         generate_coordinates math_radians math_cos fuel
           lat_min lat_max lon_min lon_max 1 = Some (Ok coordinates)
         /\ saved t
            = map (fun p => image_path output_dir (fst p) (snd p)) coordinates
         /\ Forall2 (fun p w => fst w = image_path output_dir (fst p) (snd p)
                                /\ create_image (fst p) (snd p) = Ok (snd w))
              coordinates (written t).
Proof.
  intros G F2 dir_exists font_found fuel output_dir t r H.
  assert (is_finite lat_step = true) as F1.
  { apply grid_steps_ok in G. destruct G as (c & _ & _ & -> & _). reflexivity. }
  unfold generate_images in H.
  destruct (generate_coordinates math_radians math_cos fuel
              lat_min lat_max lon_min lon_max 1)
    as [[coordinates | e] |] eqn:E; [| | discriminate].
  2:{ exfalso. unfold generate_coordinates in E. rewrite G in E.
      destruct (while_lat fuel lat_min lat_max lat_step lon_min lon_max
                  lon_step []); discriminate. }
  pose proof (generate_coordinates_points_finite math_radians math_cos
                _ _ _ _ _ _ _ _ _ G F1 F2 E) as Hfin.
  destruct (create_images_finite font_found output_dir coordinates Hfin)
    as (t' & E' & S' & W').
  rewrite E' in H. injection H as <- <-.
  split; [reflexivity |]. exists coordinates. split; [reflexivity |].
  rewrite saved_app, written_app. cbn [saved written].
  destruct dir_exists; cbn [saved written app]; split; assumption.
Qed.

(** X9: when [create_image] raises on a point that follows finite points,
    the batch stops there with that exception: the images before it are
    saved and tagged, the failing image is saved without tags, and no
    later point is touched. *)
Theorem create_images_abort (font_found : bool) (output_dir : string)
    (before after : list point) (lat lon : float) (e : exn) :
  Forall (fun p => is_finite (fst p) = true /\ is_finite (snd p) = true)
    before ->
  create_image lat lon = Raise e ->
  exists t,
    create_images font_found output_dir (before ++ (lat, lon) :: after)
    = (t, Raise e)
    /\ saved t
       = map (fun p => image_path output_dir (fst p) (snd p))
           (before ++ [(lat, lon)])
    /\ map fst (written t)
       = map (fun p => image_path output_dir (fst p) (snd p)) before.
Proof.
  intros Hfin He. induction Hfin as [| [la lo] rest [F1 F2] _ IH].
  - cbn [app create_images]. unfold create_image_io. rewrite He.
    eexists. split; [reflexivity |]. split; reflexivity.
  - destruct IH as (t' & E' & S' & W').
    cbn [fst snd] in F1, F2.
    destruct (create_image_finite la lo F1 F2) as (tags & Et).
    cbn [app create_images]. unfold create_image_io. rewrite Et.
    cbn [app] in E'. rewrite E'.
    eexists. split; [reflexivity |].
    cbn [app saved written map fst snd]. rewrite S', W'. split; reflexivity.
Qed.

End BatchProofs.

Lemma generate_images_completes_witness :
  (grid_steps radians cos_equator 0 1
   = Ok (0.0090090090090090089, 0.0090090090090090089)%float
   /\ is_finite 0.0090090090090090089 = true)
  /\ forall dir_exists font_found fuel output_dir t r,
       generate_images radians cos_equator dir_exists font_found fuel
         0 0.02 (-74) (-73.98) output_dir = Some (t, r) ->
       r = Ok tt
       /\ exists coordinates,
            generate_coordinates radians cos_equator fuel
              0 0.02 (-74) (-73.98) 1 = Some (Ok coordinates)
            /\ saved t
               = map (fun p => image_path output_dir (fst p) (snd p))
                   coordinates
            /\ Forall2 (fun p w =>
                          fst w = image_path output_dir (fst p) (snd p)
                          /\ create_image (fst p) (snd p) = Ok (snd w))
                 coordinates (written t).
Proof.
  split; [split; reflexivity |].
  apply (generate_images_completes radians cos_equator 0 0.02 (-74) (-73.98)
           0.0090090090090090089 0.0090090090090090089); reflexivity.
Defined.

Lemma create_images_abort_witness :
  (Forall (fun p => is_finite (fst p) = true /\ is_finite (snd p) = true)
     [(1, 2)%float]
   /\ create_image infinity 3 = Raise OverflowError)
  /\ exists t,
       create_images false "out" ([(1, 2)%float] ++ (infinity, 3%float) :: [(4, 5)%float])
       = (t, Raise OverflowError)
       /\ saved t
          = map (fun p => image_path "out" (fst p) (snd p))
              ([(1, 2)%float] ++ [(infinity, 3%float)])
       /\ map fst (written t)
          = map (fun p => image_path "out" (fst p) (snd p)) [(1, 2)%float].
Proof.
  assert (Forall (fun p : point =>
                    is_finite (fst p) = true /\ is_finite (snd p) = true)
            [(1, 2)%float]) as H
    by (constructor; [split; reflexivity | constructor]).
  split; [split; [exact H | reflexivity] |].
  apply (create_images_abort false "out" [(1, 2)%float] [(4, 5)%float]
           infinity 3 OverflowError H).
  reflexivity.
Defined.

(** * No image overwrites another *)

Section DistinctPaths.

Variable math_radians : float -> float.
Variable math_cos : float -> res float.

Lemma leb_sandwich (lo a b hi : float) :
  is_finite lo = true -> is_finite hi = true ->
  (lo <=? a)%float = true -> (a <=? b)%float = true ->
  (b <=? hi)%float = true ->
  is_finite a = true /\ is_finite b = true.
Proof.
  rewrite !is_finite_spec, !leb_spec. unfold SFleb.
  destruct (Prim2SF lo) as [s0 | s0 | | s0 m0 e0]; try discriminate;
    destruct (Prim2SF hi) as [s3 | s3 | | s3 m3 e3]; try discriminate;
    destruct (Prim2SF a) as [s1 | [] | | s1 m1 e1];
    destruct (Prim2SF b) as [s2 | [] | | s2 m2 e2];
    cbn [SFcompare SFfinite]; intros _ _ H1 H2 H3;
    try discriminate; try (split; reflexivity);
    try (destruct s0; discriminate); try (destruct s3; discriminate);
    try (destruct s1; discriminate); try (destruct s2; discriminate).
Qed.

Lemma accumulate_range_spaced (G k : Z) (fuel : nat) (start stop step : float)
    (r : list float) :
  is_finite start = true -> is_finite stop = true -> is_finite step = true ->
  1 <= k <= 2044 -> 0 <= G ->
  - 2 ^ (53 + k) < ticks start + ticks step ->
  ticks stop + ticks step < 2 ^ (53 + k) ->
  2 ^ (k - 1) + G <= ticks step ->
  accumulate_range fuel start stop step = Some r ->
  Forall (fun v => is_finite v = true) r
  /\ StronglySorted (fun a b => ticks a + G <= ticks b) r.
Proof.
  intros Fstart Fstop Fstep Hk HG Hlo Hhi Hs H.
  assert (0 < 2 ^ (k - 1)) as Pk by (apply pow2_pos; lia).
  assert (forall f v l,
            is_finite v = true -> ticks start <= ticks v ->
            accumulate_range f v stop step = Some l ->
            (Forall (fun x => is_finite x = true) l
             /\ StronglySorted (fun a b => ticks a + G <= ticks b) l)
            /\ Forall (fun x => ticks v <= ticks x) l) as Hind.
  { induction f as [| f IH]; intros v l Fv Hsv E; [discriminate |].
    cbn [accumulate_range] in E.
    destruct (v <=? stop)%float eqn:Hvs.
    2:{ injection E as <-. repeat split; constructor. }
    destruct (accumulate_range f (v + step) stop step) as [l' |] eqn:E';
      [| discriminate].
    injection E as <-.
    rewrite (leb_ticks v stop Fv Fstop) in Hvs. apply Z.leb_le in Hvs.
    destruct (add_error v step k Fv Fstep Hk ltac:(lia)) as [Fn Hn].
    destruct (IH _ _ Fn ltac:(lia) E') as [[I1 I2] I3].
    assert (Forall (fun x => ticks v + G <= ticks x) l') as Hgt.
    { eapply Forall_impl; [| exact I3]. cbn. intros; lia. }
    repeat split.
    - constructor; assumption.
    - constructor; assumption.
    - constructor; [lia |]. eapply Forall_impl; [| exact Hgt]. cbn. intros; lia. }
  exact (proj1 (Hind fuel start r Fstart ltac:(lia) H)).
Qed.

Lemma spaced_formats (G : Z) (r : list float) :
  2 ^ 1074 < 10 ^ 6 * G ->
  Forall (fun v => is_finite v = true) r ->
  StronglySorted (fun a b => ticks a + G <= ticks b) r ->
  NoDup (map format_6f r).
Proof.
  intros HG Hfin Hs.
  induction Hs as [| a l Hs IH Ha]; [constructor |].
  inversion Hfin as [| ? ? Fa Hfin']; subst.
  cbn [map]. constructor; [| exact (IH Hfin')].
  intros Hin. apply in_map_iff in Hin. destruct Hin as (b & Eb & Hb).
  rewrite Forall_forall in Ha, Hfin'.
  destruct (format_6f_inj b a (Hfin' b Hb) Fa Eb) as [Es Em].
  pose proof (millionths_close b a Es Em).
  specialize (Ha b Hb). lia.
Qed.

Lemma NoDup_map_coarser {A B C : Type} (f : A -> B) (h : A -> C) (l : list A) :
  (forall x y, f x = f y -> h x = h y) ->
  NoDup (map h l) -> NoDup (map f l).
Proof.
  intros Hfh. induction l as [| a l IH]; intros H; [constructor |].
  cbn [map] in *. inversion H as [| ? ? Ha Hl]; subst.
  constructor; [| exact (IH Hl)].
  intros Hin. apply Ha. apply in_map_iff in Hin. destruct Hin as (b & Eb & Hb).
  apply in_map_iff. exists b. split; [exact (Hfh _ _ Eb) | exact Hb].
Qed.

Lemma NoDup_map_row_major {B C D : Type} (F : point -> B)
    (g : float -> C) (h : float -> D) (lats lons : list float) :
  (forall a b a' b', F (a, b) = F (a', b') -> g a = g a' /\ h b = h b') ->
  NoDup (map g lats) -> NoDup (map h lons) ->
  NoDup (map F (row_major lats lons)).
Proof.
  intros HF Hg Hh. induction lats as [| a lats IH]; [constructor |].
  cbn [map] in Hg. inversion Hg as [| ? ? Ha Hg']; subst.
  rewrite row_major_cons, map_app. apply NoDup_app.
  - rewrite map_map.
    apply (NoDup_map_coarser (fun x => F (a, x)) h); [| exact Hh].
    intros x y E. exact (proj2 (HF _ _ _ _ E)).
  - exact (IH Hg').
  - intros q Hq Hq'. apply Ha.
    apply in_map_iff in Hq. destruct Hq as (p & <- & Hp).
    apply in_map_iff in Hp. destruct Hp as (b & <- & _).
    apply in_map_iff in Hq'. destruct Hq' as ([a' b'] & E & Hp').
    apply in_row_major in Hp'. cbn [fst snd] in Hp'.
    apply in_map_iff. exists a'. split; [| exact (proj1 Hp')].
    exact (proj1 (HF _ _ _ _ E)).
Qed.

Lemma range_formats_distinct (fuel : nat) (start stop step : float)
    (r : list float) :
  (-1024 <=? start)%float = true -> (stop <=? 1024)%float = true ->
  (0x1p-19 <=? step)%float = true -> (step <=? 1024)%float = true ->
  accumulate_range fuel start stop step = Some r ->
  NoDup (map format_6f r).
Proof.
  intros B1 B2 B3 B4 H.
  destruct (start <=? stop)%float eqn:Hss.
  2:{ destruct fuel as [| fuel]; [discriminate |].
      cbn [accumulate_range] in H. rewrite Hss in H. injection H as <-.
      constructor. }
  destruct (leb_sandwich (-1024) start stop 1024 eq_refl eq_refl B1 Hss B2)
    as [Fstart Fstop].
  pose proof (leb_between_finite 0x1p-19 step 1024 eq_refl eq_refl B3 B4)
    as Fstep.
  rewrite (leb_ticks (-1024) start eq_refl Fstart) in B1.
  rewrite (leb_ticks stop 1024 Fstop eq_refl) in B2.
  rewrite (leb_ticks 0x1p-19 step eq_refl Fstep) in B3.
  rewrite (leb_ticks step 1024 Fstep eq_refl) in B4.
  apply Z.leb_le in B1, B2, B3, B4.
  assert (ticks (-1024) = - 2 ^ 1084) as T1 by reflexivity.
  assert (ticks 1024 = 2 ^ 1084) as T2 by reflexivity.
  assert (ticks 0x1p-19 = 2 ^ 1055) as T3 by reflexivity.
  rewrite T1 in B1. rewrite T2 in B2, B4. rewrite T3 in B3.
  assert (2 ^ 1086 = 4 * 2 ^ 1084) as P1 by reflexivity.
  assert (2 ^ 1055 = 2 ^ 23 * 2 ^ 1032) as P2 by reflexivity.
  assert (0 < 2 ^ 1032) as P4 by reflexivity.
  assert (0 < 2 ^ 1084) as P5 by reflexivity.
  destruct (accumulate_range_spaced (2 ^ 1055 - 2 ^ 1032) 1033
              fuel start stop step r Fstart Fstop Fstep) as [Hfin Hsort];
    try exact H;
    try (change (53 + 1033) with 1086); try (change (1033 - 1) with 1032);
    try lia.
  apply (spaced_formats (2 ^ 1055 - 2 ^ 1032)); [reflexivity | assumption ..].
Qed.

(** X10: on a box within [-1024, 1024] degrees with both steps between
    [2^-19] and [1024] degrees, the points [generate_coordinates] returns
    all get different file paths: no image of the run overwrites another. *)
Theorem generate_coordinates_distinct_paths
    (lat_min lat_max lon_min lon_max step_km lat_step lon_step : float) :
  grid_steps math_radians math_cos lat_min step_km = Ok (lat_step, lon_step) ->
  (-1024 <=? lat_min)%float = true -> (lat_max <=? 1024)%float = true ->
  (-1024 <=? lon_min)%float = true -> (lon_max <=? 1024)%float = true ->
  (0x1p-19 <=? lat_step)%float = true -> (lat_step <=? 1024)%float = true ->
  (0x1p-19 <=? lon_step)%float = true -> (lon_step <=? 1024)%float = true ->
  forall fuel l output_dir,
    generate_coordinates math_radians math_cos fuel
      lat_min lat_max lon_min lon_max step_km = Some (Ok l) ->
    NoDup (map (fun p => image_path output_dir (fst p) (snd p)) l).
Proof.
  intros G A1 A2 O1 O2 S1 S2 S3 S4 fuel l output_dir H.
  unfold generate_coordinates in H. rewrite G in H.
  destruct (while_lat fuel lat_min lat_max lat_step lon_min lon_max lon_step [])
    as [l' |] eqn:W; [| discriminate].
  injection H as ->.
  destruct (while_lat_sound _ _ _ _ _ _ _ _ _ W) as (lats & lons & E1 & E2 & ->).
  cbn [app].
  destruct lats as [| lat0 lats'] eqn:El; [constructor |].
  rewrite <- El in *.
  specialize (E2 ltac:(rewrite El; discriminate)).
  apply (NoDup_map_row_major _ format_6f format_6f).
  - intros a b a' b' E. cbn [fst snd] in E. exact (image_path_inj _ _ _ _ _ E).
  - exact (range_formats_distinct _ _ _ _ _ A1 A2 S1 S2 E1).
  - exact (range_formats_distinct _ _ _ _ _ O1 O2 S3 S4 E2).
Qed.

End DistinctPaths.

Lemma generate_coordinates_distinct_paths_witness :
  (grid_steps radians cos_equator 0 1
   = Ok (0.0090090090090090089, 0.0090090090090090089)%float
   /\ (-1024 <=? 0)%float = true /\ (0.02 <=? 1024)%float = true
   /\ (-1024 <=? -74)%float = true /\ (-73.98 <=? 1024)%float = true
   /\ (0x1p-19 <=? 0.0090090090090090089)%float = true
   /\ (0.0090090090090090089 <=? 1024)%float = true)
  /\ forall fuel l output_dir,
       generate_coordinates radians cos_equator fuel 0 0.02 (-74) (-73.98) 1
       = Some (Ok l) ->
       NoDup (map (fun p => image_path output_dir (fst p) (snd p)) l).
Proof.
  split; [repeat split |].
  apply (generate_coordinates_distinct_paths radians cos_equator
           0 0.02 (-74) (-73.98) 1
           0.0090090090090090089 0.0090090090090090089); reflexivity.
Defined.

(** * Reading the tags back *)

Section TagsRoundTrip.

Lemma signed_dms_close (x : float) :
  is_finite x = true ->
  exists dms,
    decimal_to_dms x = Ok dms
    /\ (Qabs ((if Qle_bool 0 (F2Q x) then dms_to_decimal dms
               else - dms_to_decimal dms) - F2Q x)
        <= (1 # 3600) * (1 + (1 # 2 ^ 42)))%Q.
Proof.
  intros Fx.
  destruct (decimal_to_dms_ticks x Fx)
    as (fd & fm & fs & m & s & E & Td & Tm & Ts & Hm & Hs & Hb).
  exists (fd, fm, fs). split; [exact E |].
  unfold dms_to_decimal.
  assert (if Qle_bool 0 (F2Q x)
          then (Z.abs (ticks x) # unit_ticks) == F2Q x
          else (Z.abs (ticks x) # unit_ticks) == - F2Q x)%Q as Hsign.
  { assert (Qle_bool 0 (F2Q x) = (0 <=? ticks x)) as ->
      by (unfold Qle_bool, F2Q; cbn [Qnum Qden]; rewrite Z.mul_1_r; reflexivity).
    unfold F2Q, Qeq, Qopp. cbn [Qnum Qden].
    destruct (Z.leb_spec 0 (ticks x)); f_equal; lia. }
  set (t := Z.abs (ticks x)) in *.
  set (d := t / 2 ^ 1074) in *.
  pose proof (recon_Q t d m s) as R.
  set (n := 3600 * t - (3600 * d + 60 * m + s) * 2 ^ 1074) in *.
  assert ((- (61 * 2 ^ 1026) # unit_ticks) <= (n # unit_ticks))%Q as L1
    by (apply Qle_ticks; lia).
  assert ((n # unit_ticks) <= (2 ^ 1074 + 61 * 2 ^ 1026 # unit_ticks))%Q as L2
    by (apply Qle_ticks; lia).
  assert ((- (61 * 2 ^ 1026) # unit_ticks) == - (61 # 2 ^ 48))%Q as C1
    by reflexivity.
  assert ((2 ^ 1074 + 61 * 2 ^ 1026 # unit_ticks) == 1 + (61 # 2 ^ 48))%Q as C2
    by reflexivity.
  rewrite C1, R in L1. rewrite C2, R in L2.
  set (T := (t # unit_ticks)%Q) in *.
  change (2 ^ 48)%positive with 281474976710656%positive in *.
  change (2 ^ 42)%positive with 4398046511104%positive.
  destruct (Qle_bool 0 (F2Q x)); cbv iota in Hsign |- *;
    rewrite (F2Q_int fd _ Td), (F2Q_int fm _ Tm), (F2Q_int fs _ Ts);
    apply Qabs_Qle_condition; split; lra.
Qed.

(** X11: the GPS tags [create_image] writes for a finite point, read back
    as signed decimal degrees (the triple as
    [degrees + minutes/60 + seconds/3600], negated for ['S'] and ['W']),
    are within [(1 + 2^-42) / 3600] of a degree of the latitude and of the
    longitude. *)
Theorem create_image_tags_round_trip (lat lon : float) :
  is_finite lat = true -> is_finite lon = true ->
  exists tags,
    create_image lat lon = Ok tags
    /\ (Qabs (gps_to_decimal (gps_latitude tags) (gps_latitude_ref tags)
              - F2Q lat)
        <= (1 # 3600) * (1 + (1 # 2 ^ 42)))%Q
    /\ (Qabs (gps_to_decimal (gps_longitude tags) (gps_longitude_ref tags)
              - F2Q lon)
        <= (1 # 3600) * (1 + (1 # 2 ^ 42)))%Q.
Proof.
  intros Flat Flon.
  destruct (signed_dms_close lat Flat) as (la & Ela & Bla).
  destruct (signed_dms_close lon Flon) as (lo & Elo & Blo).
  unfold create_image. rewrite Ela, Elo. cbn [bind].
  rewrite (ge_zero_Q lat Flat), (ge_zero_Q lon Flon).
  eexists. split; [reflexivity |].
  cbn [gps_latitude gps_latitude_ref gps_longitude gps_longitude_ref].
  unfold gps_to_decimal.
  split.
  - destruct (Qle_bool 0 (F2Q lat)); exact Bla.
  - destruct (Qle_bool 0 (F2Q lon)); exact Blo.
Qed.

End TagsRoundTrip.

Lemma create_image_tags_round_trip_witness :
  (is_finite 40.01 = true /\ is_finite (-73.99) = true)
  /\ exists tags,
       create_image 40.01 (-73.99) = Ok tags
       /\ (Qabs (gps_to_decimal (gps_latitude tags) (gps_latitude_ref tags)
                 - F2Q 40.01)
           <= (1 # 3600) * (1 + (1 # 2 ^ 42)))%Q
       /\ (Qabs (gps_to_decimal (gps_longitude tags) (gps_longitude_ref tags)
                 - F2Q (-73.99))
           <= (1 # 3600) * (1 + (1 # 2 ^ 42)))%Q.
Proof.
  split; [split; reflexivity |].
  apply (create_image_tags_round_trip 40.01 (-73.99)); reflexivity.
Defined.

(** * Exact cases of the codec *)

Section WholeDegrees.

Lemma ticks_inj_pos (f g : float) :
  is_finite f = true -> is_finite g = true ->
  0 < ticks f -> ticks f = ticks g -> f = g.
Proof.
  intros Ff Fg Hp E. apply Prim2SF_inj.
  pose proof (Prim2SF_valid f) as Vf. pose proof (Prim2SF_valid g) as Vg.
  rewrite is_finite_spec in Ff, Fg. unfold ticks in *.
  destruct (Prim2SF f) as [s | s | | s m e]; try discriminate;
    cbn [SFticks] in *; try lia.
  destruct (Prim2SF g) as [s' | s' | | s' m' e']; try discriminate;
    cbn [SFticks] in *; try lia.
  cbv zeta in *.
  pose proof (pos_ticks_compare m m' e e' Vf Vg) as C.
  assert (0 <= Z.pos m * 2 ^ (e + 1074))
    by (apply Z.mul_nonneg_nonneg; [lia | apply Z.pow_nonneg; lia]).
  assert (0 <= Z.pos m' * 2 ^ (e' + 1074))
    by (apply Z.mul_nonneg_nonneg; [lia | apply Z.pow_nonneg; lia]).
  destruct s; [lia |]. destruct s'; [lia |].
  rewrite E, Z.compare_refl in C.
  destruct (Z.compare_spec e e'); try discriminate. subst e'.
  symmetry in C. apply Pos.compare_eq in C. subst m'. reflexivity.
Qed.

(** X12: on a finite whole number of degrees the codec is exact:
    [decimal_to_dms(x)] is [(|x|, 0.0, 0.0)]. *)
Theorem decimal_to_dms_whole_degrees (x : float) (n : Z) :
  is_finite x = true -> (F2Q x == inject_Z n)%Q ->
  decimal_to_dms x = Ok (abs x, 0, 0)%float.
Proof.
  intros Fx Hn.
  assert (ticks x = n * 2 ^ 1074) as Tx.
  { unfold F2Q, Qeq, inject_Z in Hn. cbn [Qnum Qden] in Hn.
    rewrite unit_ticks_Z in Hn. lia. }
  unfold decimal_to_dms. cbv zeta. set (ax := abs x).
  assert (is_finite ax = true) as Fax by (unfold ax; rewrite finite_abs; exact Fx).
  assert (ticks ax = Z.abs n * 2 ^ 1074) as Tax.
  { unfold ax. rewrite ticks_abs, Tx, Z.abs_mul. reflexivity. }
  assert (2 ^ 1074 <> 0) as NU by (apply Z.pow_nonzero; lia).
  rewrite (int_ticks ax Fax), Tax, Z.quot_mul by exact NU. cbn [bind].
  assert (Py.float (Z.abs n) = Ok ax) as Ef.
  { destruct (Z.eq_dec n 0) as [-> | Hn0].
    - assert (ax = 0%float) as ->; [| reflexivity].
      apply Prim2SF_inj. unfold ax. rewrite abs_spec.
      rewrite is_finite_spec in Fx. unfold ticks in Tx.
      pose proof (Prim2SF_valid x) as V.
      destruct (Prim2SF x) as [s | s | | s m e]; try discriminate;
        [reflexivity |].
      exfalso. cbn [SFticks] in Tx. cbv zeta in Tx.
      assert (0 < Z.pos m * 2 ^ (e + 1074)).
      { apply Z.mul_pos_pos; [lia |]. apply pow2_pos.
        pose proof (valid_finite_exp s m e V). lia. }
      destruct s; lia.
    - destruct (float_ticks (Z.abs n)) as (f & E & Ff & Tf).
      { rewrite <- Tax. destruct (ticks_bound ax) as [-> B]. exact B. }
      rewrite E. f_equal. symmetry.
      rewrite <- Tax in Tf. destruct (ticks_bound ax) as [R _].
      rewrite R in Tf.
      apply ticks_inj_pos; try assumption; [| symmetry; exact Tf].
      assert (0 < 2 ^ 1074) by reflexivity. nia. }
  rewrite Ef. cbn [bind].
  destruct (sub_ticks ax ax Fax Fax) as [F1 T1].
  { rewrite Z.sub_diag, rnd_ticks_0. reflexivity. }
  rewrite Z.sub_diag, rnd_ticks_0 in T1.
  destruct (mul60_ticks (ax - ax) F1) as [F2 T2].
  { rewrite T1. reflexivity. }
  rewrite T1 in T2. change (rnd_ticks (60 * 0)) with 0 in T2.
  rewrite (int_ticks _ F2), T2.
  change (Z.quot 0 (2 ^ 1074)) with 0. cbn [bind].
  change (Py.float 0) with (@Ok float 0%float). cbn [bind].
  set (md := ((ax - ax) * 60)%float) in *.
  destruct (sub_ticks md 0 F2 eq_refl) as [F3 T3].
  { rewrite T2. reflexivity. }
  rewrite T2 in T3. change (rnd_ticks (0 - ticks 0)) with 0 in T3.
  destruct (mul60_ticks (md - 0) F3) as [F4 T4].
  { rewrite T3. reflexivity. }
  rewrite T3 in T4. change (rnd_ticks (60 * 0)) with 0 in T4.
  rewrite (int_ticks _ F4), T4.
  change (Z.quot 0 (2 ^ 1074)) with 0. cbn [bind].
  reflexivity.
Qed.

(** X13: for every finite [x] the three components of
    [decimal_to_dms(x)] are finite whole numbers, each the integer part of
    the finite non-negative float the code hands to [int]: the degrees of
    [|x|], the minutes of [(|x| - degrees) * 60] and the seconds of
    [(minutes_decimal - minutes) * 60], minutes and seconds being between
    0 and 59.  The fraction of a second is dropped, not rounded. *)
Theorem decimal_to_dms_whole_parts (x : float) :
  is_finite x = true ->
  exists degrees minutes seconds,
    decimal_to_dms x = Ok (degrees, minutes, seconds)
    /\ (is_finite degrees = true /\ is_finite minutes = true
        /\ is_finite seconds = true)
    /\ (is_finite ((abs x - degrees) * 60) = true
        /\ (0 <=? (abs x - degrees) * 60)%float = true)
    /\ (is_finite ((((abs x - degrees) * 60) - minutes) * 60) = true
        /\ (0 <=? (((abs x - degrees) * 60) - minutes) * 60)%float = true)
    /\ (F2Q degrees == inject_Z (Qfloor (F2Q (abs x))))%Q
    /\ (F2Q minutes == inject_Z (Qfloor (F2Q ((abs x - degrees) * 60))))%Q
    /\ (F2Q seconds
        == inject_Z (Qfloor (F2Q ((((abs x - degrees) * 60) - minutes) * 60))))%Q
    /\ 0 <= Qfloor (F2Q (abs x))
    /\ 0 <= Qfloor (F2Q ((abs x - degrees) * 60)) <= 59
    /\ 0 <= Qfloor (F2Q ((((abs x - degrees) * 60) - minutes) * 60)) <= 59.
Proof.
  intros Fx.
  destruct (decimal_to_dms_steps x Fx)
    as (fd & fm & fs & E & Ffin & (Fp & Fq) & Td & Tm & Ts & Bp & Bq).
  exists fd, fm, fs. split; [exact E |]. split; [exact Ffin |].
  set (p := ((abs x - fd) * 60)%float) in *.
  set (q := ((p - fm) * 60)%float) in *.
  assert (0 < 2 ^ 1074) as PU by reflexivity.
  assert (ticks 0 = 0) as T0 by reflexivity.
  assert (forall y, Qfloor (F2Q y) = ticks y / 2 ^ 1074) as Hfloor
    by (intros y; reflexivity).
  rewrite !Hfloor, ticks_abs.
  split.
  { split; [exact Fp |].
    rewrite (leb_ticks 0 p eq_refl Fp), T0. apply Z.leb_le. lia. }
  split.
  { split; [exact Fq |].
    rewrite (leb_ticks 0 q eq_refl Fq), T0. apply Z.leb_le. lia. }
  split; [exact (F2Q_int fd _ Td) |].
  split; [exact (F2Q_int fm _ Tm) |].
  split; [exact (F2Q_int fs _ Ts) |].
  split; [apply Z.div_pos; lia |].
  assert (forall t, 0 <= t < 60 * 2 ^ 1074 -> 0 <= t / 2 ^ 1074 <= 59) as Hq.
  { intros t Ht.
    assert (t / 2 ^ 1074 < 60) by (apply Z.div_lt_upper_bound; lia).
    assert (0 <= t / 2 ^ 1074) by (apply Z.div_pos; lia). lia. }
  split; apply Hq; assumption.
Qed.

End WholeDegrees.

Lemma decimal_to_dms_whole_degrees_witness :
  (is_finite (-74) = true /\ (F2Q (-74) == inject_Z (-74))%Q)
  /\ decimal_to_dms (-74) = Ok (abs (-74), 0, 0)%float.
Proof.
  split; [split; reflexivity |].
  apply (decimal_to_dms_whole_degrees (-74) (-74)); reflexivity.
Defined.

Lemma decimal_to_dms_whole_parts_witness :
  is_finite 40.758896 = true
  /\ exists degrees minutes seconds,
       decimal_to_dms 40.758896 = Ok (degrees, minutes, seconds)
       /\ (is_finite degrees = true /\ is_finite minutes = true
           /\ is_finite seconds = true)
       /\ (is_finite ((abs 40.758896 - degrees) * 60) = true
           /\ (0 <=? (abs 40.758896 - degrees) * 60)%float = true)
       /\ (is_finite ((((abs 40.758896 - degrees) * 60) - minutes) * 60) = true
           /\ (0 <=? (((abs 40.758896 - degrees) * 60) - minutes) * 60)%float
              = true)
       /\ (F2Q degrees == inject_Z (Qfloor (F2Q (abs 40.758896))))%Q
       /\ (F2Q minutes
           == inject_Z (Qfloor (F2Q ((abs 40.758896 - degrees) * 60))))%Q
       /\ (F2Q seconds
           == inject_Z
                (Qfloor (F2Q ((((abs 40.758896 - degrees) * 60) - minutes)
                              * 60))))%Q
       /\ 0 <= Qfloor (F2Q (abs 40.758896))
       /\ 0 <= Qfloor (F2Q ((abs 40.758896 - degrees) * 60)) <= 59
       /\ 0 <= Qfloor (F2Q ((((abs 40.758896 - degrees) * 60) - minutes) * 60))
          <= 59.
Proof.
  split; [reflexivity |].
  apply (decimal_to_dms_whole_parts 40.758896). reflexivity.
Defined.

(** * A step backwards *)

Section Overflow.

(** Past the largest binary64 number the rounding of a positive exact
    result is the infinity of its sign. *)
Lemma round_aux_overflow (s : bool) (m e t a b : Z) :
  0 < m -> 0 < t -> 0 <= a -> 0 <= b -> b - a = e + 1074 ->
  t * 2 ^ a = m * 2 ^ b ->
  2 ^ 2098 <= rne_shr t (drop_bits t) * 2 ^ drop_bits t ->
  e <= fexp prec emax (Zdigits2 m + e) ->
  binary_round_aux prec emax s m e loc_Exact = S754_infinity s.
Proof.
  intros Hm Ht Ha Hb Hab E Hmax Hn.
  pose proof (Zdigits2_scale t m a b Ht Hm Ha Hb E) as Hd.
  pose proof (Zdigits2_bounds t Ht) as Bt.
  set (n := fexp prec emax (Zdigits2 m + e) - e).
  assert (0 <= n) as Hn0 by (unfold n; lia).
  rewrite (round_aux_eq s m e Hm Hn0). fold n.
  set (nt := drop_bits t).
  assert (nt = Z.max 0 (Zdigits2 t - 53)) as Hnt by (apply drop_bits_pos; exact Ht).
  assert (nt + a = n + b) as Hshift.
  { unfold n. rewrite fexp_53. lia. }
  assert (rne_shr m n = rne_shr t nt) as Hr.
  { rewrite <- (rne_shr_scale m n b) by lia.
    rewrite <- (rne_shr_scale t nt a) by lia.
    rewrite E, Hshift. reflexivity. }
  rewrite Hr.
  assert (e + n = nt - 1074) as He by lia.
  rewrite He.
  assert (0 <= nt) as Hnt2 by lia.
  assert (0 < 2 ^ nt) as Pnt by (apply pow2_pos; lia).
  fold nt in Hmax.
  assert (0 < rne_shr t nt <= 2 ^ 53) as Hr1.
  { destruct (Z.eq_dec nt 0) as [E0 | E0].
    - rewrite E0. unfold rne_shr. cbn [Z.leb Z.compare].
      assert (2 ^ Zdigits2 t <= 2 ^ 53) by (apply Z.pow_le_mono_r; lia).
      lia.
    - pose proof (rne_shr_bounds t nt ltac:(lia)) as B.
      assert (Zdigits2 t = nt + 53) as Dt by lia.
      assert (2 ^ 52 <= t / 2 ^ nt).
      { apply Z.div_le_lower_bound; [lia |].
        rewrite <- Z.pow_add_r by lia.
        replace (nt + 52) with (Zdigits2 t - 1) by lia. lia. }
      assert (t / 2 ^ nt < 2 ^ 53).
      { apply Z.div_lt_upper_bound; [lia |].
        rewrite <- Z.pow_add_r by lia.
        replace (nt + 53) with (Zdigits2 t) by lia. lia. }
      lia. }
  assert (2 ^ 2098 <= 2 ^ (53 + nt)) as Hbig.
  { rewrite Z.pow_add_r by lia.
    assert (rne_shr t nt * 2 ^ nt <= 2 ^ 53 * 2 ^ nt)
      by (apply Z.mul_le_mono_nonneg_r; lia).
    lia. }
  apply Z.pow_le_mono_r_iff in Hbig; try lia.
  destruct (Z.eqb_spec (rne_shr t nt) (2 ^ 53)) as [C | C].
  - unfold SFmake. change (2 ^ 52) with (Zpos (Z.to_pos (2 ^ 52))).
    destruct (Z.leb_spec (nt - 1074 + 1) 971); [lia | reflexivity].
  - assert (2 ^ 2098 < 2 ^ (53 + nt)) as Hbig'.
    { rewrite Z.pow_add_r by lia.
      assert (rne_shr t nt * 2 ^ nt < 2 ^ 53 * 2 ^ nt)
        by (apply Z.mul_lt_mono_pos_r; lia).
      lia. }
    apply Z.pow_lt_mono_r_iff in Hbig'; try lia.
    destruct (rne_shr t nt) as [| p | p] eqn:Ep; try lia.
    unfold SFmake.
    destruct (Z.leb_spec (nt - 1074) 971); [lia | reflexivity].
Qed.

Lemma round_overflow (s : bool) (m : positive) (e : Z) :
  -1074 <= e ->
  let t := Zpos m * 2 ^ (e + 1074) in
  2 ^ 2098 <= rne_shr t (drop_bits t) * 2 ^ drop_bits t ->
  binary_round prec emax s m e = S754_infinity s.
Proof.
  intros He t Hmax. unfold binary_round.
  set (f := fexp prec emax (Zpos (digits2_pos m) + e)).
  destruct (shl_align_spec m e f) as [A1 A2].
  destruct (shl_align m e f) as [mz ez]. cbn [fst snd] in A1, A2.
  assert (-1074 <= f) as Hf by (unfold f; rewrite fexp_53; lia).
  assert (0 < 2 ^ (e + 1074)) by (apply pow2_pos; lia).
  assert (Zpos mz * 2 ^ (ez + 1074) = t) as Et.
  { unfold t. rewrite A2, <- Z.mul_assoc, <- Z.pow_add_r by lia.
    do 2 f_equal. lia. }
  apply (round_aux_overflow s (Zpos mz) ez t 0 (ez + 1074)); try lia.
  change (Zpos (digits2_pos m)) with (Zdigits2 (Zpos m)) in f.
  assert (Zdigits2 (Zpos mz) + ez = Zdigits2 (Zpos m) + e) as Ed.
  { pose proof (Zdigits2_scale (Zpos mz) (Zpos m) 0 (e - ez)
                  ltac:(lia) ltac:(lia) ltac:(lia) ltac:(lia)) as D.
    rewrite Z.pow_0_r, Z.mul_1_r in D. rewrite <- A1 in A2. specialize (D A2). lia. }
  rewrite Ed. fold f. lia.
Qed.

Lemma normalize_overflow (m e : Z) :
  -1074 <= e ->
  2 ^ 2098 <= Z.abs (rnd_ticks (m * 2 ^ (e + 1074))) ->
  binary_normalize prec emax m e false = S754_infinity (m <? 0).
Proof.
  intros He Hmax.
  assert (0 < 2 ^ (e + 1074)) by (apply pow2_pos; lia).
  destruct m as [| p | p]; cbn [binary_normalize].
  - exfalso. rewrite Z.mul_0_l, rnd_ticks_0 in Hmax.
    assert (0 < 2 ^ 2098) by reflexivity. lia.
  - pose proof (rnd_ticks_nonneg (Z.pos p * 2 ^ (e + 1074)) ltac:(lia)) as P.
    rewrite Z.abs_eq in Hmax by exact P.
    rewrite rnd_ticks_pos in Hmax by lia.
    apply round_overflow; [exact He | exact Hmax].
  - replace (Z.neg p * 2 ^ (e + 1074)) with (- (Zpos p * 2 ^ (e + 1074)))
      in Hmax by lia.
    pose proof (rnd_ticks_nonneg (Z.pos p * 2 ^ (e + 1074)) ltac:(lia)) as P.
    rewrite rnd_ticks_opp, Z.abs_opp, Z.abs_eq in Hmax by exact P.
    rewrite rnd_ticks_pos in Hmax by lia.
    apply round_overflow; [exact He | exact Hmax].
Qed.

Lemma SFadd_overflow (x y : spec_float) :
  valid_binary x = true -> valid_binary y = true ->
  SFfinite x = true -> SFfinite y = true ->
  2 ^ 2098 <= Z.abs (rnd_ticks (SFticks x + SFticks y)) ->
  SFadd prec emax x y = S754_infinity (SFticks x + SFticks y <? 0).
Proof.
  intros Vx Vy Fx Fy Hmax.
  destruct x as [sx | sx | | sx mx ex]; try discriminate;
    destruct y as [sy | sy | | sy my ey]; try discriminate.
  - exfalso. cbn [SFticks] in Hmax. change (0 + 0) with 0 in Hmax.
    rewrite rnd_ticks_0 in Hmax.
    assert (0 < 2 ^ 2098) by reflexivity. lia.
  - exfalso. change (SFticks (S754_zero sx)) with 0 in Hmax.
    rewrite Z.add_0_l in Hmax. destruct (SFticks_valid _ Vy) as [R B].
    rewrite R in Hmax. lia.
  - exfalso. change (SFticks (S754_zero sy)) with 0 in Hmax.
    rewrite Z.add_0_r in Hmax. destruct (SFticks_valid _ Vx) as [R B].
    rewrite R in Hmax. lia.
  - pose proof (valid_finite_exp _ _ _ Vx). pose proof (valid_finite_exp _ _ _ Vy).
    cbn [SFadd]. set (ez := Z.min ex ey).
    set (msum := cond_Zopp sx (Zpos (fst (shl_align mx ex ez)))
                 + cond_Zopp sy (Zpos (fst (shl_align my ey ez)))).
    assert (msum * 2 ^ (ez + 1074)
            = SFticks (S754_finite sx mx ex) + SFticks (S754_finite sy my ey)) as E.
    { unfold msum. rewrite Z.mul_add_distr_r, !aligned_ticks by lia. reflexivity. }
    rewrite <- E in *.
    rewrite (normalize_overflow msum ez ltac:(lia) Hmax). f_equal.
    assert (0 < 2 ^ (ez + 1074)) by (apply pow2_pos; lia).
    destruct (Z.ltb_spec msum 0), (Z.ltb_spec (msum * 2 ^ (ez + 1074)) 0);
      try reflexivity; nia.
Qed.

End Overflow.

Section Monotone.

Lemma rne_shr_0 (t : Z) : rne_shr t 0 = t.
Proof. reflexivity. Qed.

Lemma drop_bits_log2 (t : Z) :
  0 < t -> 0 < drop_bits t ->
  2 ^ (52 + drop_bits t) <= t /\ 2 ^ 52 <= t / 2 ^ drop_bits t.
Proof.
  intros Ht Hn. unfold drop_bits in *. rewrite Z.abs_eq in * by lia.
  pose proof (Z.log2_spec t Ht) as [L _].
  set (n := Z.max 0 (Z.log2 t + 1 - 53)) in *.
  assert (52 + n = Z.log2 t) as E by lia.
  rewrite E. split; [exact L |].
  apply Z.div_le_lower_bound; [apply pow2_pos; lia |].
  rewrite <- Z.pow_add_r by lia. rewrite Z.add_comm, E. exact L.
Qed.

(** Rounding does not cross a binary64 number: above. *)
Lemma rnd_ticks_upper (t a k : Z) :
  0 < t -> a < 2 ^ 53 -> 0 <= k -> t <= a * 2 ^ k ->
  rnd_ticks t <= a * 2 ^ k.
Proof.
  intros Ht Ha Hk Hle. rewrite rnd_ticks_pos by lia.
  pose proof (drop_bits_nonneg t) as Hn0.
  set (n := drop_bits t) in *.
  assert (0 < 2 ^ k) as Pk by (apply pow2_pos; lia).
  destruct (Z.eq_dec n 0) as [E0 | E0].
  { rewrite E0, rne_shr_0, Z.pow_0_r. lia. }
  destruct (drop_bits_log2 t Ht ltac:(fold n; lia)) as [L1 L2]. fold n in L1, L2.
  assert (0 < 2 ^ n) as Pn by (apply pow2_pos; lia).
  assert (n <= k) as Hnk.
  { apply Z.nlt_ge. intros C.
    assert (2 ^ (53 + k) <= 2 ^ (52 + n)) by (apply Z.pow_le_mono_r; lia).
    rewrite Z.pow_add_r in H by lia.
    assert (a * 2 ^ k < 2 ^ 53 * 2 ^ k) by (apply Z.mul_lt_mono_pos_r; lia).
    lia. }
  set (R := a * 2 ^ (k - n)).
  assert (a * 2 ^ k = R * 2 ^ n) as ER.
  { unfold R. rewrite <- Z.mul_assoc, <- Z.pow_add_r by lia.
    do 2 f_equal. lia. }
  rewrite ER in *.
  pose proof (rne_shr_bounds t n ltac:(lia)) as B.
  pose proof (Z.div_mod t (2 ^ n) ltac:(lia)) as D.
  pose proof (Z.mod_pos_bound t (2 ^ n) Pn) as M.
  set (q := t / 2 ^ n) in *. set (r := t mod 2 ^ n) in *.
  assert (q <= R) as HqR by nia.
  destruct (Z.eq_dec q R) as [Eq | Nq].
  - assert (r = 0) as Er by nia.
    rewrite (rne_shr_exact t n ltac:(lia) Er). lia.
  - assert (rne_shr t n <= R) by lia.
    apply Z.mul_le_mono_nonneg_r; lia.
Qed.

(** Rounding does not cross a binary64 number: below. *)
Lemma rnd_ticks_lower (t a k : Z) :
  0 < a < 2 ^ 53 -> 0 <= k -> a * 2 ^ k <= t ->
  a * 2 ^ k <= rnd_ticks t.
Proof.
  intros Ha Hk Hle.
  assert (0 < 2 ^ k) as Pk by (apply pow2_pos; lia).
  assert (0 < t) as Ht by nia.
  rewrite rnd_ticks_pos by lia.
  pose proof (drop_bits_nonneg t) as Hn0.
  set (n := drop_bits t) in *.
  destruct (Z.eq_dec n 0) as [E0 | E0].
  { rewrite E0, rne_shr_0, Z.pow_0_r. lia. }
  destruct (drop_bits_log2 t Ht ltac:(fold n; lia)) as [L1 L2]. fold n in L1, L2.
  assert (0 < 2 ^ n) as Pn by (apply pow2_pos; lia).
  pose proof (rne_shr_bounds t n ltac:(lia)) as B.
  set (q := t / 2 ^ n) in *.
  assert (q * 2 ^ n <= rne_shr t n * 2 ^ n) as Hq
    by (apply Z.mul_le_mono_nonneg_r; lia).
  destruct (Z_le_gt_dec n k) as [Hnk | Hnk].
  - set (R := a * 2 ^ (k - n)).
    assert (a * 2 ^ k = R * 2 ^ n) as ER.
    { unfold R. rewrite <- Z.mul_assoc, <- Z.pow_add_r by lia.
      do 2 f_equal. lia. }
    rewrite ER in *.
    assert (R <= q) by (apply Z.div_le_lower_bound; lia).
    assert (R * 2 ^ n <= q * 2 ^ n) by (apply Z.mul_le_mono_nonneg_r; lia).
    lia.
  - assert (2 ^ (53 + k) <= 2 ^ (52 + n)) as P by (apply Z.pow_le_mono_r; lia).
    rewrite !Z.pow_add_r in P by lia.
    assert (a * 2 ^ k < 2 ^ 53 * 2 ^ k) by (apply Z.mul_lt_mono_pos_r; lia).
    assert (2 ^ 52 * 2 ^ n <= q * 2 ^ n) by (apply Z.mul_le_mono_nonneg_r; lia).
    lia.
Qed.

Lemma rnd_ticks_below (t a k : Z) :
  Z.abs a < 2 ^ 53 -> 0 <= k -> t <= a * 2 ^ k -> rnd_ticks t <= a * 2 ^ k.
Proof.
  intros Ha Hk Hle.
  assert (0 < 2 ^ k) as Pk by (apply pow2_pos; lia).
  destruct (Z.lt_trichotomy t 0) as [Hneg | [-> | Hpos]].
  - replace t with (- - t) by lia. rewrite rnd_ticks_opp.
    destruct (Z_le_gt_dec 0 a) as [Ha0 | Ha0].
    + pose proof (rnd_ticks_nonneg (- t) ltac:(lia)). nia.
    + pose proof (rnd_ticks_lower (- t) (- a) k ltac:(lia) Hk ltac:(nia)). nia.
  - rewrite rnd_ticks_0. exact Hle.
  - apply rnd_ticks_upper; lia.
Qed.

End Monotone.

Section BackwardStep.

Variable math_radians : float -> float.
Variable math_cos : float -> res float.

Lemma leb_finite_below (r v stop : float) :
  is_finite r = true -> is_finite v = true -> ticks r <= ticks v ->
  (v <=? stop)%float = true -> (r <=? stop)%float = true.
Proof.
  intros Fr Fv Hle H. destruct (is_finite stop) eqn:Fs.
  - rewrite (leb_ticks v stop Fv Fs) in H. rewrite (leb_ticks r stop Fr Fs).
    apply Z.leb_le in H. apply Z.leb_le. lia.
  - rewrite is_finite_spec in Fr, Fv, Fs. rewrite leb_spec in *.
    unfold SFleb in *.
    destruct (Prim2SF stop) as [s | [] | | s m e]; try discriminate;
      destruct (Prim2SF v) as [s1 | s1 | | s1 m1 e1]; try discriminate;
      destruct (Prim2SF r) as [s2 | s2 | | s2 m2 e2]; try discriminate;
      reflexivity.
Qed.

Lemma add_nonpos_leb (v s stop : float) :
  is_finite s = true -> ticks s <= 0 ->
  (v <=? stop)%float = true -> (v + s <=? stop)%float = true.
Proof.
  intros Fs Hs H. destruct (is_finite v) eqn:Fv.
  2:{ rewrite (add_infinite_stuck v s Fs Fv (leb_not_nan _ _ H)). exact H. }
  destruct (ticks_form v) as (a & k & Ea & Ha & Hk).
  assert (rnd_ticks (ticks v + ticks s) <= ticks v) as Hr.
  { rewrite Ea at 2. apply rnd_ticks_below; lia. }
  destruct (Z_lt_le_dec (Z.abs (rnd_ticks (ticks v + ticks s))) (2 ^ 2098))
    as [Hok | Hov].
  - destruct (add_ticks v s Fv Fs Hok) as [Fr Tr].
    apply (leb_finite_below (v + s) v stop Fr Fv); [lia | exact H].
  - destruct (ticks_bound v) as [_ Bv].
    assert (ticks v + ticks s < 0) as Hneg.
    { apply Z.nle_gt. intros C.
      pose proof (rnd_ticks_nonneg _ C). lia. }
    rewrite is_finite_spec in Fv, Fs.
    rewrite leb_spec in *. rewrite add_spec.
    unfold ticks in Hov, Hneg.
    change (SF64add (Prim2SF v) (Prim2SF s))
      with (SFadd prec emax (Prim2SF v) (Prim2SF s)).
    rewrite (SFadd_overflow _ _ (Prim2SF_valid v) (Prim2SF_valid s) Fv Fs Hov).
    apply Z.ltb_lt in Hneg. rewrite Hneg.
    unfold SFleb in *.
    destruct (Prim2SF stop) as [s0 | [] | | s0 m0 e0]; try reflexivity;
      destruct (Prim2SF v) as [s1 | s1 | | s1 m1 e1]; discriminate.
Qed.

Lemma while_lat_backward (fuel : nat)
    (lat lat_max lat_step lon_min lon_max lon_step : float)
    (coordinates : list point) :
  is_finite lat_step = true -> ticks lat_step <= 0 ->
  (lat <=? lat_max)%float = true ->
  while_lat fuel lat lat_max lat_step lon_min lon_max lon_step coordinates
  = None.
Proof.
  intros Fs Hs. revert lat coordinates.
  induction fuel as [| fuel IH]; intros lat coordinates H; [reflexivity |].
  cbn [while_lat]. rewrite H.
  destruct (while_lon fuel lat lon_min lon_max lon_step coordinates);
    [| reflexivity].
  apply IH. exact (add_nonpos_leb lat lat_step lat_max Fs Hs H).
Qed.

(** X14: with a finite negative latitude step, as a negative [step_km]
    gives, and [lat_min <= lat_max], [generate_coordinates] never returns:
    the latitude only moves away from [lat_max]. *)
Theorem generate_coordinates_backward_step
    (lat_min lat_max lon_min lon_max step_km lat_step lon_step : float) :
  grid_steps math_radians math_cos lat_min step_km = Ok (lat_step, lon_step) ->
  is_finite lat_step = true -> (lat_step <? 0)%float = true ->
  (lat_min <=? lat_max)%float = true ->
  forall fuel l,
    generate_coordinates math_radians math_cos fuel
      lat_min lat_max lon_min lon_max step_km <> Some (Ok l).
Proof.
  intros G Fs Hs H fuel l. unfold generate_coordinates. rewrite G.
  rewrite (ltb_ticks lat_step 0 Fs eq_refl) in Hs. apply Z.ltb_lt in Hs.
  change (ticks 0) with 0 in Hs.
  rewrite while_lat_backward; [discriminate | exact Fs | lia | exact H].
Qed.

End BackwardStep.

Lemma generate_coordinates_backward_step_witness :
  (grid_steps radians cos_equator 0 (-1)
   = Ok (-0.0090090090090090089, -0.0090090090090090089)%float
   /\ is_finite (-0.0090090090090090089) = true
   /\ (-0.0090090090090090089 <? 0)%float = true
   /\ (0 <=? 0.02)%float = true)
  /\ forall fuel l,
       generate_coordinates radians cos_equator fuel 0 0.02 (-74) (-73.98) (-1)
       <> Some (Ok l).
Proof.
  split; [repeat split |].
  apply (generate_coordinates_backward_step radians cos_equator
           0 0.02 (-74) (-73.98) (-1)
           (-0.0090090090090090089) (-0.0090090090090090089)); reflexivity.
Defined.

(** * The shape of a returned grid *)

Section GridShape.

Variable math_radians : float -> float.
Variable math_cos : float -> res float.

Lemma ticks_inj_nonzero (f g : float) :
  is_finite f = true -> is_finite g = true ->
  ticks f <> 0 -> ticks f = ticks g -> f = g.
Proof.
  intros Ff Fg Hp E. apply Prim2SF_inj.
  pose proof (Prim2SF_valid f) as Vf. pose proof (Prim2SF_valid g) as Vg.
  rewrite is_finite_spec in Ff, Fg. unfold ticks in *.
  destruct (Prim2SF f) as [s | s | | s m e]; try discriminate;
    cbn [SFticks] in *; try lia.
  destruct (Prim2SF g) as [s' | s' | | s' m' e']; try discriminate;
    cbn [SFticks] in *; try (destruct s; lia).
  cbv zeta in *.
  pose proof (pos_ticks_compare m m' e e' Vf Vg) as C.
  assert (0 <= Z.pos m * 2 ^ (e + 1074))
    by (apply Z.mul_nonneg_nonneg; [lia | apply Z.pow_nonneg; lia]).
  assert (0 <= Z.pos m' * 2 ^ (e' + 1074))
    by (apply Z.mul_nonneg_nonneg; [lia | apply Z.pow_nonneg; lia]).
  assert (s = s' /\ Z.pos m * 2 ^ (e + 1074) = Z.pos m' * 2 ^ (e' + 1074))
    as [<- E'] by (destruct s, s'; split; try reflexivity; lia).
  rewrite E', Z.compare_refl in C.
  destruct (Z.compare_spec e e'); try discriminate. subst e'.
  symmetry in C. apply Pos.compare_eq in C. subst m'. reflexivity.
Qed.

Lemma rnd_ticks_above (t a k : Z) :
  Z.abs a < 2 ^ 53 -> 0 <= k -> a * 2 ^ k <= t -> a * 2 ^ k <= rnd_ticks t.
Proof.
  intros Ha Hk Hle.
  pose proof (rnd_ticks_below (- t) (- a) k ltac:(lia) Hk ltac:(lia)) as H.
  rewrite rnd_ticks_opp in H. lia.
Qed.

(** A finite sum with a non-negative step is the rounded exact sum and is
    not below its first operand. *)
Lemma add_nonneg_ticks (v s : float) :
  is_finite v = true -> is_finite s = true -> is_finite (v + s) = true ->
  0 <= ticks s ->
  ticks (v + s) = rnd_ticks (ticks v + ticks s) /\ ticks v <= ticks (v + s).
Proof.
  intros Fv Fs Fr Hs.
  destruct (ticks_form v) as (a & k & Ea & Ha & Hk).
  assert (ticks v <= rnd_ticks (ticks v + ticks s)) as Hr.
  { rewrite Ea at 1. apply rnd_ticks_above; lia. }
  destruct (Z_lt_le_dec (Z.abs (rnd_ticks (ticks v + ticks s))) (2 ^ 2098))
    as [Hok | Hov].
  - destruct (add_ticks v s Fv Fs Hok) as [_ Tr]. rewrite Tr. auto.
  - exfalso. rewrite is_finite_spec in Fv, Fs, Fr.
    rewrite add_spec in Fr. unfold ticks in Hov.
    change (SF64add (Prim2SF v) (Prim2SF s))
      with (SFadd prec emax (Prim2SF v) (Prim2SF s)) in Fr.
    rewrite (SFadd_overflow _ _ (Prim2SF_valid v) (Prim2SF_valid s) Fv Fs Hov)
      in Fr.
    discriminate.
Qed.

Lemma accumulate_range_backward (fuel : nat) (start stop step : float) :
  is_finite step = true -> ticks step <= 0 ->
  (start <=? stop)%float = true ->
  accumulate_range fuel start stop step = None.
Proof.
  intros Fs Hs. revert start.
  induction fuel as [| fuel IH]; intros start H; [reflexivity |].
  cbn [accumulate_range]. rewrite H.
  rewrite (IH _ (add_nonpos_leb start step stop Fs Hs H)). reflexivity.
Qed.

(** Whatever the finite step, a range that is returned is finite and
    strictly increasing. *)
Lemma accumulate_range_sorted (fuel : nat) (start stop step : float)
    (r : list float) :
  is_finite step = true ->
  accumulate_range fuel start stop step = Some r -> increasing r.
Proof.
  intros Fs. destruct (Z_le_gt_dec (ticks step) 0) as [Hs | Hs].
  { intros H. destruct (start <=? stop)%float eqn:Hss.
    - rewrite (accumulate_range_backward fuel start stop step Fs Hs Hss) in H.
      discriminate.
    - destruct fuel as [| fuel]; [discriminate |].
      cbn [accumulate_range] in H. rewrite Hss in H. injection H as <-.
      split; constructor. }
  revert start r.
  induction fuel as [| fuel IH]; intros start r H; [discriminate |].
  pose proof (accumulate_range_finite _ _ _ _ _ Fs H) as Hfin.
  cbn [accumulate_range] in H.
  destruct (start <=? stop)%float eqn:Hss.
  2:{ injection H as <-. split; constructor. }
  destruct (accumulate_range fuel (start + step) stop step) as [r' |] eqn:E';
    [| discriminate].
  injection H as <-.
  destruct (IH _ _ E') as [Hfin' Hsort'].
  split; [exact Hfin |]. constructor; [exact Hsort' |].
  destruct r' as [| x r'']; [constructor |].
  assert (x = (start + step)%float) as ->.
  { destruct fuel as [| fuel']; [discriminate |].
    cbn [accumulate_range] in E'.
    destruct (start + step <=? stop)%float; [| discriminate].
    destruct (accumulate_range fuel' (start + step + step) stop step);
      [| discriminate].
    injection E' as <- _. reflexivity. }
  inversion Hfin as [| ? ? Fstart _]; subst.
  inversion Hfin' as [| ? ? Fx _]; subst.
  inversion Hsort' as [| ? ? _ Hlt]; subst.
  destruct (add_nonneg_ticks start step Fstart Fs Fx ltac:(lia)) as [Tx Hle].
  assert (ticks start < ticks (start + step)) as Hstrict.
  { destruct (Z.eq_dec (ticks start) (ticks (start + step))) as [Eq | Ne];
      [| lia].
    exfalso.
    assert ((start + step)%float = start) as Estuck.
    { symmetry. apply ticks_inj_nonzero; try assumption.
      intros Z0. rewrite Z0 in Tx, Eq. rewrite Z.add_0_l in Tx.
      destruct (ticks_bound step) as [R _]. rewrite R in Tx. lia. }
    pose proof (accumulate_range_stuck fuel start stop step Hss Estuck) as N.
    rewrite Estuck in E'. rewrite N in E'. discriminate. }
  constructor; [exact Hstrict |].
  eapply Forall_impl; [| exact Hlt]. cbn. intros; lia.
Qed.

(** X3: whatever the finite steps, a list that [generate_coordinates]
    returns has no point twice, every point lies inside the box on all four
    sides, and a non-empty list starts at the corner
    [(lat_min, lon_min)]. *)
Theorem generate_coordinates_distinct_in_box
    (lat_min lat_max lon_min lon_max step_km lat_step lon_step : float) :
  grid_steps math_radians math_cos lat_min step_km = Ok (lat_step, lon_step) ->
  is_finite lat_step = true -> is_finite lon_step = true ->
  forall fuel l,
    generate_coordinates math_radians math_cos fuel
      lat_min lat_max lon_min lon_max step_km = Some (Ok l) ->
    NoDup l
    /\ (forall lat lon, In (lat, lon) l ->
          (lat_min <=? lat)%float = true /\ (lat <=? lat_max)%float = true
          /\ (lon_min <=? lon)%float = true /\ (lon <=? lon_max)%float = true)
    /\ (l <> [] -> hd_error l = Some (lat_min, lon_min)).
Proof.
  intros G F1 F2 fuel l H.
  unfold generate_coordinates in H. rewrite G in H.
  destruct (while_lat fuel lat_min lat_max lat_step lon_min lon_max lon_step [])
    as [l' |] eqn:W; [| discriminate].
  injection H as ->.
  destruct (while_lat_sound _ _ _ _ _ _ _ _ _ W) as (rows & lons & E1 & E2 & ->).
  cbn [app].
  destruct rows as [| lat0 lats] eqn:Er.
  { cbn [row_major flat_map].
    split; [constructor |].
    split; [intros ? ? [] | intros Hne; exfalso; apply Hne; reflexivity]. }
  rewrite <- Er in *.
  specialize (E2 ltac:(rewrite Er; discriminate)).
  pose proof (accumulate_range_sorted _ _ _ _ _ F1 E1) as I1.
  pose proof (accumulate_range_sorted _ _ _ _ _ F2 E2) as I2.
  assert (forall fuel start stop step r,
            accumulate_range fuel start stop step = Some r -> increasing r ->
            forall v, In v r -> (start <=? v)%float = true) as Hfrom.
  { clear. intros fuel start stop step r H [Hfin Hsort] v Hv.
    destruct (start <=? stop)%float eqn:Hss.
    - destruct (accumulate_range_head _ _ _ _ _ H Hss) as (r' & ->).
      inversion Hfin as [| ? ? Fs Hfin']; subst.
      inversion Hsort as [| ? ? _ Hlt]; subst.
      destruct Hv as [<- | Hv].
      + rewrite (leb_ticks start start Fs Fs). apply Z.leb_refl.
      + rewrite Forall_forall in Hfin', Hlt.
        rewrite (leb_ticks start v Fs (Hfin' v Hv)). apply Z.leb_le.
        specialize (Hlt v Hv). lia.
    - destruct fuel as [| fuel]; [discriminate |].
      cbn [accumulate_range] in H. rewrite Hss in H. injection H as <-.
      destruct Hv. }
  split; [apply NoDup_row_major; apply increasing_NoDup; assumption |].
  split.
  - intros lat lon Hp. apply in_row_major in Hp. cbn [fst snd] in Hp.
    destruct Hp as [Hp1 Hp2]. repeat split.
    + exact (Hfrom _ _ _ _ _ E1 I1 lat Hp1).
    + exact (accumulate_range_bounded _ _ _ _ _ E1 lat Hp1).
    + exact (Hfrom _ _ _ _ _ E2 I2 lon Hp2).
    + exact (accumulate_range_bounded _ _ _ _ _ E2 lon Hp2).
  - intros Hne.
    assert ((lat_min <=? lat_max)%float = true) as Hss1.
    { destruct (lat_min <=? lat_max)%float eqn:Hss; [reflexivity |].
      destruct fuel as [| k]; [discriminate |].
      cbn [accumulate_range] in E1. rewrite Hss, Er in E1. discriminate. }
    destruct (accumulate_range_head _ _ _ _ _ E1 Hss1) as (r1 & Er1).
    destruct lons as [| lon0 lons'].
    { exfalso. apply Hne. clear. induction rows; [reflexivity | exact IHrows]. }
    assert ((lon_min <=? lon_max)%float = true) as Hss2.
    { destruct (lon_min <=? lon_max)%float eqn:Hss; [reflexivity |].
      destruct fuel as [| k]; [discriminate |].
      cbn [accumulate_range] in E2. rewrite Hss in E2. discriminate. }
    destruct (accumulate_range_head _ _ _ _ _ E2 Hss2) as (r2 & Er2).
    injection Er2 as -> _. rewrite Er1. reflexivity.
Qed.

End GridShape.

Lemma generate_coordinates_distinct_in_box_witness :
  (grid_steps radians cos_equator 0 1
   = Ok (0.0090090090090090089, 0.0090090090090090089)%float
   /\ is_finite 0.0090090090090090089 = true)
  /\ forall fuel l,
       generate_coordinates radians cos_equator fuel 0 0.02 (-74) (-73.98) 1
       = Some (Ok l) ->
       NoDup l
       /\ (forall lat lon, In (lat, lon) l ->
             (0 <=? lat)%float = true /\ (lat <=? 0.02)%float = true
             /\ (-74 <=? lon)%float = true /\ (lon <=? -73.98)%float = true)
       /\ (l <> [] -> hd_error l = Some (0, -74)%float).
Proof.
  split; [split; reflexivity |].
  apply (generate_coordinates_distinct_in_box radians cos_equator
           0 0.02 (-74) (-73.98) 1
           0.0090090090090090089 0.0090090090090090089); reflexivity.
Defined.
